(** * IPR utilities: red-black trees, sequences and the scope model

    A shallow embedding of [ipr/utility] (namespace [ipr::util::rb_tree],
    both copies present in the sources) and of the sequence / overload /
    scope classes of [ipr/impl].

    Nodes live in an arena: a pointer is an index into a list of nodes and
    the null pointer is [None].  Every member function that reads or writes
    through a pointer is a computation in a state-and-failure monad over
    the tree object ([root], [count]) together with the arena; following a
    null or dangling pointer makes the computation fail. *)

From stdpp Require Import base option list numbers sorting sets strings.
From Stdlib Require Import ZArith Lia.

Set Warnings "-clear-no-such-hyp,-level-tolerance".

Local Open Scope Z_scope.

(** ** Memory layout shared by the two copies of [rb_tree] *)

(** [link<Node>::Color]. *)
Inductive Color := Black | Red.

#[global] Instance Color_eq_dec : EqDecision Color.
Proof. solve_decision. Defined.

(** A [Node*]: [None] is the null pointer, [Some i] the i-th arena cell. *)
Definition ptr := option nat.

(** [link<Node>] ([arm[Left]], [arm[Right]], [arm[Parent]], [color])
    followed by the payload of the node ([node<T>::data], or the members
    that a class deriving from [link] adds). *)
Record node (T : Type) := mk_node {
  arm_left : ptr;
  arm_right : ptr;
  arm_parent : ptr;
  color : Color;
  data : T
}.
Arguments mk_node {T} _ _ _ _ _.
Arguments arm_left {T} _.
Arguments arm_right {T} _.
Arguments arm_parent {T} _.
Arguments color {T} _.
Arguments data {T} _.

(** [core<Node>]: the [root] pointer and the [count], with the arena
    [mem] that holds the nodes the pointers refer to. *)
Record core (T : Type) := mk_core {
  mem : list (node T);
  root : ptr;
  count : Z
}.
Arguments mk_core {T} _ _ _.
Arguments mem {T} _.
Arguments root {T} _.
Arguments count {T} _.

(** The largest [int]; [int] is 32 bits wide. *)
Definition INT_MAX : Z := 2147483647.

(** [core() : root(0), count(0)] over a given arena. *)
Definition core_init {T} (m : list (node T)) : core T := mk_core m None 0.

(** [int size() const { return count; }] *)
Definition size {T} (s : core T) : Z := count s.

(** ** The monad of member functions *)

Definition M (T A : Type) : Type := core T → option (A * core T).

#[global] Instance M_ret {T} : MRet (M T) := λ A a s, Some (a, s).
#[global] Instance M_bind {T} : MBind (M T) := λ A B f m s,
  match m s with
  | Some (a, s') => f a s'
  | None => None
  end.

(** Undefined behaviour: a null dereference, or a loop that does not end. *)
Definition fail {T A} : M T A := λ _, None.

Section accessors.
Context {T : Type}.

(** [*p] *)
Definition deref (p : ptr) : M T (node T) := λ s,
  match p with
  | Some i => match mem s !! i with Some n => Some (n, s) | None => None end
  | None => None
  end.

Definition store (p : ptr) (n : node T) : M T unit := λ s,
  match p with
  | Some i => Some (tt, mk_core (<[i:=n]> (mem s)) (root s) (count s))
  | None => None
  end.

(** [p->left()], [p->right()], [p->parent()], [p->color], [p->data]
    as r-values. *)
Definition get_left (p : ptr) : M T ptr := n ← deref p; mret (arm_left n).
Definition get_right (p : ptr) : M T ptr := n ← deref p; mret (arm_right n).
Definition get_parent (p : ptr) : M T ptr := n ← deref p; mret (arm_parent n).
Definition get_color (p : ptr) : M T Color := n ← deref p; mret (color n).
Definition get_data (p : ptr) : M T T := n ← deref p; mret (data n).

(** The same members as l-values: [p->left() = v] and so on. *)
Definition set_left (p v : ptr) : M T unit :=
  n ← deref p;
  store p (mk_node v (arm_right n) (arm_parent n) (color n) (data n)).
Definition set_right (p v : ptr) : M T unit :=
  n ← deref p;
  store p (mk_node (arm_left n) v (arm_parent n) (color n) (data n)).
Definition set_parent (p v : ptr) : M T unit :=
  n ← deref p;
  store p (mk_node (arm_left n) (arm_right n) v (color n) (data n)).
Definition set_color (p : ptr) (c : Color) : M T unit :=
  n ← deref p;
  store p (mk_node (arm_left n) (arm_right n) (arm_parent n) c (data n)).

(** [this->root]. *)
Definition get_root : M T ptr := λ s, Some (root s, s).
Definition set_root (v : ptr) : M T unit := λ s,
  Some (tt, mk_core (mem s) v (count s)).

(** [++this->count]; incrementing an [int] that holds [INT_MAX]
    overflows, which has no defined behaviour. *)
Definition incr_count : M T unit := λ s,
  if decide (count s < INT_MAX)
  then Some (tt, mk_core (mem s) (root s) (count s + 1))
  else None.

(** A [Node**]: the address of [this->root], of [p->left()] or of
    [p->right()]. *)
Inductive slot := slot_root | slot_left (p : ptr) | slot_right (p : ptr).

(** [*slot] as an r-value. *)
Definition read_slot (sl : slot) : M T ptr :=
  match sl with
  | slot_root => get_root
  | slot_left p => get_left p
  | slot_right p => get_right p
  end.

(** [*slot = v] *)
Definition write_slot (sl : slot) (v : ptr) : M T unit :=
  match sl with
  | slot_root => set_root v
  | slot_left p => set_left p v
  | slot_right p => set_right p v
  end.

(** Number of iterations granted to a loop that walks the tree: one
    more than the number of arena cells.  A walk along stored links of
    a well-formed tree never needs that many. *)
Definition fuel_of (s : core T) : nat := S (length (mem s)).
Definition get_fuel : M T nat := λ s, Some (fuel_of s, s).
End accessors.

(** ** First copy of [namespace rb_tree] *)

Module rb_tree.
Section rb_tree.
Context {T : Type}.

(** [core<Node>::rotate_left] *)
Definition rotate_left (x : ptr) : M T unit :=
  y ← get_right x;
  yl ← get_left y;
  set_right x yl;;
  yl ← get_left y;
  (if bool_decide (yl ≠ None)
   then yl ← get_left y; set_parent yl x
   else mret tt);;
  xp ← get_parent x;
  set_parent y xp;;
  xp ← get_parent x;
  (if bool_decide (xp = None) then set_root y
   else
     xp ← get_parent x;
     xpl ← get_left xp;
     if bool_decide (xpl = x)
     then xp ← get_parent x; set_left xp y
     else xp ← get_parent x; set_right xp y);;
  set_left y x;;
  set_parent x y.

(** [core<Node>::rotate_right] *)
Definition rotate_right (x : ptr) : M T unit :=
  y ← get_left x;
  yr ← get_right y;
  set_left x yr;;
  yr ← get_right y;
  (if bool_decide (yr ≠ None)
   then yr ← get_right y; set_parent yr x
   else mret tt);;
  xp ← get_parent x;
  set_parent y xp;;
  xp ← get_parent x;
  (if bool_decide (xp = None) then set_root y
   else
     xp ← get_parent x;
     xpr ← get_right xp;
     if bool_decide (xpr = x)
     then xp ← get_parent x; set_right xp y
     else xp ← get_parent x; set_left xp y);;
  set_right y x;;
  set_parent x y.

(** The condition of the loop of [fixup_insert]:
    [z != root && z->parent()->color == Node::Red]. *)
Definition fixup_cond (z : ptr) : M T bool :=
  r ← get_root;
  if bool_decide (z ≠ r)
  then zp ← get_parent z; c ← get_color zp; mret (bool_decide (c = Red))
  else mret false.

(** One run of the body of the loop of [fixup_insert]; the result is
    the value of [z] at the end of the body. *)
Definition fixup_body (z : ptr) : M T ptr :=
  zp ← get_parent z;
  zpp ← get_parent zp;
  zppl ← get_left zpp;
  if bool_decide (zp = zppl) then
    zp ← get_parent z; zpp ← get_parent zp;
    y ← get_right zpp;
    is_red ← (if bool_decide (y ≠ None)
              then c ← get_color y; mret (bool_decide (c = Red))
              else mret false);
    if is_red : bool then
      zp ← get_parent z; set_color zp Black;;
      set_color y Black;;
      zp ← get_parent z; zpp ← get_parent zp; set_color zpp Red;;
      zp ← get_parent z; zpp ← get_parent zp;
      mret zpp
    else
      zp ← get_parent z; zpr ← get_right zp;
      z ← (if bool_decide (zpr = z)
           then z ← get_parent z; rotate_left z;; mret z
           else mret z);
      zp ← get_parent z; set_color zp Black;;
      zp ← get_parent z; zpp ← get_parent zp; set_color zpp Red;;
      zp ← get_parent z; zpp ← get_parent zp; rotate_right zpp;;
      mret z
  else
    zp ← get_parent z; zpp ← get_parent zp;
    y ← get_left zpp;
    is_red ← (if bool_decide (y ≠ None)
              then c ← get_color y; mret (bool_decide (c = Red))
              else mret false);
    if is_red : bool then
      zp ← get_parent z; set_color zp Black;;
      set_color y Black;;
      zp ← get_parent z; zpp ← get_parent zp; set_color zpp Red;;
      zp ← get_parent z; zpp ← get_parent zp;
      mret zpp
    else
      zp ← get_parent z; zpl ← get_left zp;
      z ← (if bool_decide (zpl = z)
           then z ← get_parent z; rotate_right z;; mret z
           else mret z);
      zp ← get_parent z; set_color zp Black;;
      zp ← get_parent z; zpp ← get_parent zp; set_color zpp Red;;
      zp ← get_parent z; zpp ← get_parent zp; rotate_left zpp;;
      mret z.

Fixpoint fixup_loop (fuel : nat) (z : ptr) : M T unit :=
  match fuel with
  | O => fail
  | S fuel =>
      continue ← fixup_cond z;
      if continue : bool
      then z ← fixup_body z; fixup_loop fuel z
      else mret tt
  end.

(** [core<Node>::fixup_insert] *)
Definition fixup_insert (z : ptr) : M T unit :=
  fuel ← get_fuel;
  fixup_loop fuel z;;
  r ← get_root;
  set_color r Black.

(** *** [chain<Node>]: the tree does not own its nodes *)

Fixpoint chain_find_loop {Key} (fuel : nat) (key : Key)
    (comp : Key → T → Z) (result : ptr) (found : bool) : M T ptr :=
  match fuel with
  | O => fail
  | S fuel =>
      if bool_decide (result ≠ None) && negb found then
        d ← get_data result;
        let ordering := comp key d in
        if decide (ordering < 0) then
          result ← get_left result;
          chain_find_loop fuel key comp result found
        else if decide (ordering > 0) then
          result ← get_right result;
          chain_find_loop fuel key comp result found
        else chain_find_loop fuel key comp result true
      else mret result
  end.

(** [chain<Node>::find] *)
Definition chain_find {Key} (key : Key) (comp : Key → T → Z) : M T ptr :=
  fuel ← get_fuel;
  r ← get_root;
  chain_find_loop fuel key comp r false.

Fixpoint chain_insert_loop (fuel : nat) (z : ptr) (comp : T → T → Z)
    (sl : slot) (up : ptr) (found : bool) : M T (slot * ptr) :=
  match fuel with
  | O => fail
  | S fuel =>
      cur ← (if negb found then read_slot sl else mret None);
      if negb found && bool_decide (cur ≠ None) then
        zd ← get_data z;
        cur ← read_slot sl;
        d ← get_data cur;
        let ordering := comp zd d in
        if decide (ordering < 0) then
          up ← read_slot sl;
          chain_insert_loop fuel z comp (slot_left up) up found
        else if decide (ordering > 0) then
          up ← read_slot sl;
          chain_insert_loop fuel z comp (slot_right up) up found
        else chain_insert_loop fuel z comp sl up true
      else mret (sl, up)
  end.

(** [chain<Node>::insert] *)
Definition chain_insert (z : ptr) (comp : T → T → Z) : M T ptr :=
  fuel ← get_fuel;
  '(sl, up) ← chain_insert_loop fuel z comp slot_root None false;
  r ← get_root;
  (if bool_decide (r = None) then
     set_root z;;
     set_color z Black
   else
     cur ← read_slot sl;
     if bool_decide (cur = None) then
       write_slot sl z;;
       set_parent z up;;
       set_color z Red;;
       fixup_insert z
     else mret tt);;
  incr_count;;
  mret z.

(** *** [container<T>]: the tree owns one payload per node *)

(** [operator new (sizeof(node<T>))]: a new cell at the end of the
    arena, holding whatever the storage held ([raw]). *)
Definition operator_new (raw : node T) : M T ptr := λ s,
  Some (Some (length (mem s)), mk_core (mem s ++ [raw]) (root s) (count s)).

(** [new (&n->data) T(u)] *)
Definition construct_data (n : ptr) (d : T) : M T unit :=
  c ← deref n;
  store n (mk_node (arm_left c) (arm_right c) (arm_parent c) (color c) d).

(** [container<T>::allocate] *)
Definition allocate (raw : node T) : M T ptr :=
  n ← operator_new raw;
  set_left n None;;
  set_right n None;;
  set_parent n None;;
  mret n.

(** [container<T>::make_node]; [ctor] is the constructor [T(const U&)]. *)
Definition make_node {U} (raw : node T) (ctor : U → T) (u : U) : M T ptr :=
  n ← allocate raw;
  construct_data n (ctor u);;
  mret n.

Fixpoint container_find_loop {Key} (fuel : nat) (key : Key)
    (comp : Key → T → Z) (x : ptr) : M T ptr :=
  match fuel with
  | O => fail
  | S fuel =>
      if bool_decide (x ≠ None) then
        d ← get_data x;
        let ordering := comp key d in
        if decide (ordering < 0) then
          x ← get_left x;
          container_find_loop fuel key comp x
        else if decide (ordering > 0) then
          x ← get_right x;
          container_find_loop fuel key comp x
        else mret x
      else mret None
  end.

(** [container<T>::find]; the result [&x->data] is identified with the
    node [x] that holds the payload. *)
Definition container_find {Key} (key : Key) (comp : Key → T → Z) : M T ptr :=
  fuel ← get_fuel;
  r ← get_root;
  container_find_loop fuel key comp r.

Fixpoint container_insert_loop {Key} (fuel : nat) (key : Key)
    (comp : Key → T → Z) (sl : slot) (parent where_ : ptr) (found : bool)
    : M T (slot * ptr * ptr) :=
  match fuel with
  | O => fail
  | S fuel =>
      if bool_decide (where_ ≠ None) && negb found then
        d ← get_data where_;
        let ordering := comp key d in
        let '(sl, parent, found) :=
          if decide (ordering < 0) then (slot_left where_, where_, found)
          else if decide (ordering > 0) then (slot_right where_, where_, found)
          else (sl, parent, true) in
        where_ ← read_slot sl;
        container_insert_loop fuel key comp sl parent where_ found
      else mret (sl, parent, where_)
  end.

(** [container<T>::insert]; as for [find], the result [&where->data] is
    the node that holds the payload. *)
Definition container_insert {Key} (raw : node T) (ctor : Key → T)
    (key : Key) (comp : Key → T → Z) : M T ptr :=
  r ← get_root;
  if bool_decide (r = None) then
    n ← make_node raw ctor key;
    set_root n;;
    r ← get_root; set_color r Black;;
    incr_count;;
    get_root
  else
    fuel ← get_fuel;
    r ← get_root;
    '(sl, parent, where_) ←
      container_insert_loop fuel key comp slot_root None r false;
    if bool_decide (where_ = None) then
      n ← make_node raw ctor key;
      write_slot sl n;;
      let where_ := n in
      set_parent where_ parent;;
      set_color where_ Red;;
      incr_count;;
      fixup_insert where_;;
      mret where_
    else mret where_.
End rb_tree.
End rb_tree.

(** ** Second copy of [namespace rb_tree]

    The revised copy writes [nullptr] for [0], leaves the arms of a fresh
    node to [make_node] and destroys only the payload of a node. *)

Module rb_tree2.
Section rb_tree2.
Context {T : Type}.

(** [core<Node>::rotate_left] *)
Definition rotate_left (x : ptr) : M T unit :=
  y ← get_right x;
  yl ← get_left y;
  set_right x yl;;
  yl ← get_left y;
  (if bool_decide (yl ≠ None)
   then yl ← get_left y; set_parent yl x
   else mret tt);;
  xp ← get_parent x;
  set_parent y xp;;
  xp ← get_parent x;
  (if bool_decide (xp = None) then set_root y
   else
     xp ← get_parent x;
     xpl ← get_left xp;
     if bool_decide (xpl = x)
     then xp ← get_parent x; set_left xp y
     else xp ← get_parent x; set_right xp y);;
  set_left y x;;
  set_parent x y.

(** [core<Node>::rotate_right] *)
Definition rotate_right (x : ptr) : M T unit :=
  y ← get_left x;
  yr ← get_right y;
  set_left x yr;;
  yr ← get_right y;
  (if bool_decide (yr ≠ None)
   then yr ← get_right y; set_parent yr x
   else mret tt);;
  xp ← get_parent x;
  set_parent y xp;;
  xp ← get_parent x;
  (if bool_decide (xp = None) then set_root y
   else
     xp ← get_parent x;
     xpr ← get_right xp;
     if bool_decide (xpr = x)
     then xp ← get_parent x; set_right xp y
     else xp ← get_parent x; set_left xp y);;
  set_right y x;;
  set_parent x y.

(** The condition of the loop of [fixup_insert]:
    [z != root && z->parent()->color == Node::Red]. *)
Definition fixup_cond (z : ptr) : M T bool :=
  r ← get_root;
  if bool_decide (z ≠ r)
  then zp ← get_parent z; c ← get_color zp; mret (bool_decide (c = Red))
  else mret false.

(** One run of the body of the loop of [fixup_insert]; the result is
    the value of [z] at the end of the body. *)
Definition fixup_body (z : ptr) : M T ptr :=
  zp ← get_parent z;
  zpp ← get_parent zp;
  zppl ← get_left zpp;
  if bool_decide (zp = zppl) then
    zp ← get_parent z; zpp ← get_parent zp;
    y ← get_right zpp;
    is_red ← (if bool_decide (y ≠ None)
              then c ← get_color y; mret (bool_decide (c = Red))
              else mret false);
    if is_red : bool then
      zp ← get_parent z; set_color zp Black;;
      set_color y Black;;
      zp ← get_parent z; zpp ← get_parent zp; set_color zpp Red;;
      zp ← get_parent z; zpp ← get_parent zp;
      mret zpp
    else
      zp ← get_parent z; zpr ← get_right zp;
      z ← (if bool_decide (zpr = z)
           then z ← get_parent z; rotate_left z;; mret z
           else mret z);
      zp ← get_parent z; set_color zp Black;;
      zp ← get_parent z; zpp ← get_parent zp; set_color zpp Red;;
      zp ← get_parent z; zpp ← get_parent zp; rotate_right zpp;;
      mret z
  else
    zp ← get_parent z; zpp ← get_parent zp;
    y ← get_left zpp;
    is_red ← (if bool_decide (y ≠ None)
              then c ← get_color y; mret (bool_decide (c = Red))
              else mret false);
    if is_red : bool then
      zp ← get_parent z; set_color zp Black;;
      set_color y Black;;
      zp ← get_parent z; zpp ← get_parent zp; set_color zpp Red;;
      zp ← get_parent z; zpp ← get_parent zp;
      mret zpp
    else
      zp ← get_parent z; zpl ← get_left zp;
      z ← (if bool_decide (zpl = z)
           then z ← get_parent z; rotate_right z;; mret z
           else mret z);
      zp ← get_parent z; set_color zp Black;;
      zp ← get_parent z; zpp ← get_parent zp; set_color zpp Red;;
      zp ← get_parent z; zpp ← get_parent zp; rotate_left zpp;;
      mret z.

Fixpoint fixup_loop (fuel : nat) (z : ptr) : M T unit :=
  match fuel with
  | O => fail
  | S fuel =>
      continue ← fixup_cond z;
      if continue : bool
      then z ← fixup_body z; fixup_loop fuel z
      else mret tt
  end.

(** [core<Node>::fixup_insert] *)
Definition fixup_insert (z : ptr) : M T unit :=
  fuel ← get_fuel;
  fixup_loop fuel z;;
  r ← get_root;
  set_color r Black.

(** *** [chain<Node>]: the tree does not own its nodes *)

Fixpoint chain_find_loop {Key} (fuel : nat) (key : Key)
    (comp : Key → T → Z) (result : ptr) (found : bool) : M T ptr :=
  match fuel with
  | O => fail
  | S fuel =>
      if bool_decide (result ≠ None) && negb found then
        d ← get_data result;
        let ordering := comp key d in
        if decide (ordering < 0) then
          result ← get_left result;
          chain_find_loop fuel key comp result found
        else if decide (ordering > 0) then
          result ← get_right result;
          chain_find_loop fuel key comp result found
        else chain_find_loop fuel key comp result true
      else mret result
  end.

(** [chain<Node>::find] *)
Definition chain_find {Key} (key : Key) (comp : Key → T → Z) : M T ptr :=
  fuel ← get_fuel;
  r ← get_root;
  chain_find_loop fuel key comp r false.

Fixpoint chain_insert_loop (fuel : nat) (z : ptr) (comp : T → T → Z)
    (sl : slot) (up : ptr) (found : bool) : M T (slot * ptr) :=
  match fuel with
  | O => fail
  | S fuel =>
      cur ← (if negb found then read_slot sl else mret None);
      if negb found && bool_decide (cur ≠ None) then
        zd ← get_data z;
        cur ← read_slot sl;
        d ← get_data cur;
        let ordering := comp zd d in
        if decide (ordering < 0) then
          up ← read_slot sl;
          chain_insert_loop fuel z comp (slot_left up) up found
        else if decide (ordering > 0) then
          up ← read_slot sl;
          chain_insert_loop fuel z comp (slot_right up) up found
        else chain_insert_loop fuel z comp sl up true
      else mret (sl, up)
  end.

(** [chain<Node>::insert] *)
Definition chain_insert (z : ptr) (comp : T → T → Z) : M T ptr :=
  fuel ← get_fuel;
  '(sl, up) ← chain_insert_loop fuel z comp slot_root None false;
  r ← get_root;
  (if bool_decide (r = None) then
     set_root z;;
     set_color z Black
   else
     cur ← read_slot sl;
     if bool_decide (cur = None) then
       write_slot sl z;;
       set_parent z up;;
       set_color z Red;;
       fixup_insert z
     else mret tt);;
  incr_count;;
  mret z.

(** *** [container<T>]: the tree owns one payload per node *)

(** [operator new (sizeof(node<T>))]: a new cell at the end of the
    arena, holding whatever the storage held ([raw]). *)
Definition operator_new (raw : node T) : M T ptr := λ s,
  Some (Some (length (mem s)), mk_core (mem s ++ [raw]) (root s) (count s)).

(** [new (&n->data) T(u)] *)
Definition construct_data (n : ptr) (d : T) : M T unit :=
  c ← deref n;
  store n (mk_node (arm_left c) (arm_right c) (arm_parent c) (color c) d).

(** [container<T>::allocate] *)
Definition allocate (raw : node T) : M T ptr :=
  operator_new raw.

(** [container<T>::make_node]; [ctor] is the constructor [T(const U&)]. *)
Definition make_node {U} (raw : node T) (ctor : U → T) (u : U) : M T ptr :=
  n ← allocate raw;
  construct_data n (ctor u);;
  set_left n None;;
  set_right n None;;
  set_parent n None;;
  mret n.

Fixpoint container_find_loop {Key} (fuel : nat) (key : Key)
    (comp : Key → T → Z) (x : ptr) : M T ptr :=
  match fuel with
  | O => fail
  | S fuel =>
      if bool_decide (x ≠ None) then
        d ← get_data x;
        let ordering := comp key d in
        if decide (ordering < 0) then
          x ← get_left x;
          container_find_loop fuel key comp x
        else if decide (ordering > 0) then
          x ← get_right x;
          container_find_loop fuel key comp x
        else mret x
      else mret None
  end.

(** [container<T>::find]; the result [&x->data] is identified with the
    node [x] that holds the payload. *)
Definition container_find {Key} (key : Key) (comp : Key → T → Z) : M T ptr :=
  fuel ← get_fuel;
  r ← get_root;
  container_find_loop fuel key comp r.

Fixpoint container_insert_loop {Key} (fuel : nat) (key : Key)
    (comp : Key → T → Z) (sl : slot) (parent where_ : ptr) (found : bool)
    : M T (slot * ptr * ptr) :=
  match fuel with
  | O => fail
  | S fuel =>
      if bool_decide (where_ ≠ None) && negb found then
        d ← get_data where_;
        let ordering := comp key d in
        let '(sl, parent, found) :=
          if decide (ordering < 0) then (slot_left where_, where_, found)
          else if decide (ordering > 0) then (slot_right where_, where_, found)
          else (sl, parent, true) in
        where_ ← read_slot sl;
        container_insert_loop fuel key comp sl parent where_ found
      else mret (sl, parent, where_)
  end.

(** [container<T>::insert]; as for [find], the result [&where->data] is
    the node that holds the payload. *)
Definition container_insert {Key} (raw : node T) (ctor : Key → T)
    (key : Key) (comp : Key → T → Z) : M T ptr :=
  r ← get_root;
  if bool_decide (r = None) then
    n ← make_node raw ctor key;
    set_root n;;
    r ← get_root; set_color r Black;;
    incr_count;;
    get_root
  else
    fuel ← get_fuel;
    r ← get_root;
    '(sl, parent, where_) ←
      container_insert_loop fuel key comp slot_root None r false;
    if bool_decide (where_ = None) then
      n ← make_node raw ctor key;
      write_slot sl n;;
      let where_ := n in
      set_parent where_ parent;;
      set_color where_ Red;;
      incr_count;;
      fixup_insert where_;;
      mret where_
    else mret where_.
End rb_tree2.
End rb_tree2.

(** * Sequences, overload sets and scopes ([ipr/impl]) *)

Module impl.

(** ** Results of member functions that may throw *)

Inductive exception :=
  | domain_error (what : string)
  | out_of_range
  | logic_error (what : string).

(** A call returns a value, throws, or has no defined behaviour (it
    reads through a pointer or an iterator that designates nothing). *)
Inductive outcome (A : Type) :=
  | returns (a : A)
  | throws (e : exception)
  | undefined.
Arguments returns {A} _.
Arguments throws {A} _.
Arguments undefined {A}.

(** [util::check] *)
Definition check {A} (p : option A) : outcome A :=
  match p with
  | Some a => returns a
  | None => throws (logic_error "attempt to dereference a null pointer")
  end.

(** Conversion to [int] of a size that fits no [int]: the value modulo
    2^32, in the range of [int]. *)
Definition to_int (z : Z) : Z := (z + 2 ^ 31) `mod` 2 ^ 32 - 2 ^ 31.

(** ** [ipr::Sequence<T>] and its implementations *)

(** The interface: [size()] and [get(int)]; [operator[]] is [get]. *)
Class Sequence (S T : Type) := {
  Sequence_size : S → Z;
  Sequence_get : S → Z → outcome T
}.

(** [val_sequence<T>]: the elements, in the order of [push_back]. *)
Record val_sequence (T : Type) := mk_val_sequence { val_elems : list T }.
Arguments mk_val_sequence {T} _.
Arguments val_elems {T} _.

Definition val_sequence_size {T} (v : val_sequence T) : Z :=
  to_int (Z.of_nat (length (val_elems v))).

Definition val_sequence_push_back {T} (v : val_sequence T) (x : T)
    : val_sequence T := mk_val_sequence (val_elems v ++ [x]).

Definition val_sequence_get {T} (v : val_sequence T) (p : Z) : outcome T :=
  if decide (p < 0 ∨ p >= val_sequence_size v)
  then throws (domain_error "val_sequence::get")
  else match val_elems v !! Z.to_nat p with
       | Some x => returns x
       | None => undefined
       end.

#[global] Instance val_sequence_Sequence {T} : Sequence (val_sequence T) T :=
  {| Sequence_size := val_sequence_size; Sequence_get := val_sequence_get |}.

(** [ref_sequence<T>]: a [std::deque] of pointers; [deque::at] checks the
    index, taken as a [size_t], against the size. *)
Record ref_sequence (T : Type) := mk_ref_sequence { ref_elems : list T }.
Arguments mk_ref_sequence {T} _.
Arguments ref_elems {T} _.

Definition ref_sequence_size {T} (v : ref_sequence T) : Z :=
  to_int (Z.of_nat (length (ref_elems v))).

Definition ref_sequence_push_back {T} (v : ref_sequence T) (x : T)
    : ref_sequence T := mk_ref_sequence (ref_elems v ++ [x]).

Definition ref_sequence_get {T} (v : ref_sequence T) (p : Z) : outcome T :=
  if decide (0 ≤ p)
  then match ref_elems v !! Z.to_nat p with
       | Some x => returns x
       | None => throws out_of_range
       end
  else throws out_of_range.

#[global] Instance ref_sequence_Sequence {T} : Sequence (ref_sequence T) T :=
  {| Sequence_size := ref_sequence_size; Sequence_get := ref_sequence_get |}.

(** [empty_sequence<T>] *)
Inductive empty_sequence (T : Type) : Type := mk_empty_sequence.
Arguments mk_empty_sequence {T}.

Definition empty_sequence_size {T} (v : empty_sequence T) : Z := 0.

Definition empty_sequence_get {T} (v : empty_sequence T) (p : Z) : outcome T :=
  throws (domain_error "empty_sequence::get").

#[global] Instance empty_sequence_Sequence {T}
    : Sequence (empty_sequence T) T :=
  {| Sequence_size := empty_sequence_size;
     Sequence_get := empty_sequence_get |}.

(** [singleton_declset<T>] *)
Record singleton_declset (T : Type) := mk_singleton_declset { datum : T }.
Arguments mk_singleton_declset {T} _.
Arguments datum {T} _.

Definition singleton_declset_size {T} (v : singleton_declset T) : Z := 1.

Definition singleton_declset_get {T} (v : singleton_declset T) (i : Z)
    : outcome T :=
  if decide (i = 1) then returns (datum v)
  else throws (domain_error "singleton_declset::get").

#[global] Instance singleton_declset_Sequence {T}
    : Sequence (singleton_declset T) T :=
  {| Sequence_size := singleton_declset_size;
     Sequence_get := singleton_declset_get |}.

(** ** Names, types and their ordering *)

(** [compare(int, int)]; nodes are compared by their [node_id]. *)
Definition compare (lhs rhs : Z) : Z :=
  if decide (lhs < rhs) then -1 else if decide (lhs > rhs) then 1 else 0.

(** ** Declarations of a scope *)

(** [basic_decl_data<D>], a [scope_datum] with the link to the master
    data; the specifiers play no part here.  [scope_datum()] sets
    [scope_pos(-1)] and [decl(0)]. *)
Record decl_data := mk_decl_data {
  scope_pos : Z;
  decl : ptr;
  master_data : ptr
}.

(** [master_decl_data<I>]: an [overload_entry] ([type], [declset]) that
    is also a [scope_datum], whose [decl] is the master declaration
    ([master_decl], null when constructed), and that knows its
    [overload] set.  The definition, the linkage and the home region
    play no part here. *)
Record master_decl_data := mk_master_decl_data {
  type : Z;
  declset : ref_sequence nat;
  master_decl : ptr;
  overload : ptr
}.

(** [impl::Overload]: the [name], the header of the chain of [entries]
    and the [masters] in order of appearance. *)
Record Overload := mk_Overload {
  name : Z;
  entries_root : ptr;
  entries_count : Z;
  masters : list ptr
}.

(** [impl::Scope] with one of its factories, [vars]: the container of
    overload sets, the header of the chain of the [decl_sequence], and
    the two farms of the factory.  A farm never moves its objects, so an
    object is known by the order of its creation. *)
Record Scope := mk_Scope {
  overloads : core Overload;
  decls_root : ptr;
  decls_count : Z;
  farm_decls : list (node decl_data);
  farm_master_info : list (node master_decl_data)
}.

(** What [Scope::operator[]] hands out: the scope's [missing], an
    [impl::Overload] of the container, or the [singleton_overload] of a
    member of a homogeneous scope. *)
Inductive overload_ref :=
  | ref_missing
  | ref_overload (ovl : nat)
  | ref_singleton (member : Z).

Definition SM (A : Type) : Type := Scope → option (A * Scope).

#[global] Instance SM_ret : MRet SM := λ A a sc, Some (a, sc).
#[global] Instance SM_bind : MBind SM := λ A B f m sc,
  match m sc with
  | Some (a, sc') => f a sc'
  | None => None
  end.

(** A member function of [overloads] run on the scope. *)
Definition with_overloads {A} (m : M Overload A) : SM A := λ sc,
  match m (overloads sc) with
  | Some (a, c) =>
      Some (a, mk_Scope c (decls_root sc) (decls_count sc)
                 (farm_decls sc) (farm_master_info sc))
  | None => None
  end.

(** A member function of the chain [decls] run on the scope. *)
Definition with_decls {A} (m : M decl_data A) : SM A := λ sc,
  match m (mk_core (farm_decls sc) (decls_root sc) (decls_count sc)) with
  | Some (a, c) =>
      Some (a, mk_Scope (overloads sc) (root c) (count c)
                 (mem c) (farm_master_info sc))
  | None => None
  end.

(** [*ovl] and [*ovl = o] for an overload set of the container. *)
Definition get_overload (ovl : ptr) : SM Overload :=
  with_overloads (get_data ovl).

Definition set_overload (ovl : ptr) (o : Overload) : SM unit :=
  with_overloads (n ← deref ovl;
                  store ovl (mk_node (arm_left n) (arm_right n) (arm_parent n)
                               (color n) o)).

(** A member function of a chain of entries, whose header holds [r] and
    [c], run on the farm of the entries; the new header comes back. *)
Definition on_master_info {A} (r : ptr) (c : Z) (m : M master_decl_data A)
    : SM (A * ptr * Z) := λ sc,
  match m (mk_core (farm_master_info sc) r c) with
  | Some (a, c') =>
      Some ((a, root c', count c'),
            mk_Scope (overloads sc) (decls_root sc) (decls_count sc)
              (farm_decls sc) (mem c'))
  | None => None
  end.

(** A member function of the chain [ovl->entries] run on the scope. *)
Definition with_entries {A} (ovl : ptr) (m : M master_decl_data A) : SM A :=
  o ← get_overload ovl;
  '(a, r, c) ← on_master_info (entries_root o) (entries_count o) m;
  set_overload ovl (mk_Overload (name o) r c (masters o));;
  mret a.


(** [node_compare]: a type against an entry and an entry against an
    entry, both by the [node_id] of the types. *)
Definition node_compare_type (t : Z) (e : master_decl_data) : Z :=
  compare t (type e).
Definition node_compare_entry (l r : master_decl_data) : Z :=
  compare (type l) (type r).

(** Modelled from the spec: the order of the scope's name-tree, "an
    Owning Tree keyed by name producing Overload objects".  The bodies
    of [Scope::operator[]] and [Scope::make_var], and with them the
    comparator that they hand to the container, are not in the sources;
    [node_compare] has no overload for a name against an overload set. *)
Definition name_compare (n : Z) (o : Overload) : Z := compare n (name o).

(** [master_info.make(ovl, t)]: [stable_farm::make] of a
    [master_decl_data(ovl, t)]; [link()] zeroes the arms and sets
    [color(Red)]. *)
Definition master_info_make (ovl : ptr) (t : Z) : SM ptr := λ sc,
  Some (Some (length (farm_master_info sc)),
        mk_Scope (overloads sc) (decls_root sc) (decls_count sc)
          (farm_decls sc)
          (farm_master_info sc
             ++ [mk_node None None None Red (mk_master_decl_data t (mk_ref_sequence []) None ovl)])).

(** [decls.make(mdd)]: [stable_farm::make] of a [decl_rep<T>(mdd)], whose
    constructor sets [master_data] and [decl] and registers the new
    declaration in [mdd->declset]. *)
Definition decls_make (mdd : ptr) : SM ptr := λ sc,
  let this := length (farm_decls sc) in
  match mdd with
  | Some i =>
      match farm_master_info sc !! i with
      | Some n =>
          let e := data n in
          Some (Some this,
                mk_Scope (overloads sc) (decls_root sc) (decls_count sc)
                  (farm_decls sc
                     ++ [mk_node None None None Red
                           (mk_decl_data (-1) (Some this) mdd)])
                  (<[i := mk_node (arm_left n) (arm_right n) (arm_parent n)
                            (color n)
                            (mk_master_decl_data (type e)
                               (ref_sequence_push_back (declset e) this)
                               (master_decl e) (overload e))]>
                     (farm_master_info sc)))
      | None => None
      end
  | None => None
  end.

(** Modelled from the spec: [Overload::push_back], whose body is not in
    the sources.  The new entry is "appended to both the type-tree and
    the insertion-ordered master list". *)
Definition Overload_push_back (ovl data : ptr) : SM unit :=
  with_entries ovl (rb_tree.chain_insert data node_compare_entry);;
  o ← get_overload ovl;
  set_overload ovl (mk_Overload (name o) (entries_root o) (entries_count o)
                      (masters o ++ [data])).

(** Modelled from the spec: [Overload::lookup], whose body is not in the
    sources.  The "type-tree either finds an existing OverloadEntry" or
    reports none. *)
Definition Overload_lookup (ovl : ptr) (t : Z) : SM ptr :=
  with_entries ovl (rb_tree.chain_find t node_compare_type).

(** [decl_factory::declare] *)
Definition declare (ovl : ptr) (t : Z) : SM ptr :=
  data ← master_info_make ovl t;
  master ← decls_make data;
  Overload_push_back ovl data;;
  mret master.

(** [decl_factory::redeclare] *)
Definition redeclare (entry : ptr) : SM ptr := decls_make entry.

(** ** The [decl_sequence] of a scope *)

(** Modelled from the spec: [scope_datum::comp], declared only.  A
    [scope_datum] is "ordered by position inside a Decl-Sequence tree". *)
Definition scope_datum_comp (l r : decl_data) : Z :=
  compare (scope_pos l) (scope_pos r).

(** Modelled from the spec: [decl_sequence::insert], whose body is not in
    the sources; the declaration enters the tree keyed by position. *)
Definition decl_sequence_insert (d : ptr) : M decl_data ptr :=
  rb_tree.chain_insert d scope_datum_comp.

(** Modelled from the spec: [decl_sequence::size], whose body is not in
    the sources. *)
Definition decl_sequence_size (s : core decl_data) : Z := size s.

(** The nodes of the tree under [p], from left to right. *)
Fixpoint inorder {T} (fuel : nat) (p : ptr) : M T (list nat) :=
  match fuel with
  | O => fail
  | S fuel =>
      match p with
      | None => mret []
      | Some i =>
          l ← get_left p;
          r ← get_right p;
          before ← inorder fuel l;
          after ← inorder fuel r;
          mret (before ++ i :: after)
      end
  end.

(** Modelled from the spec: [decl_sequence::get], whose body is not in
    the sources.  It is to "retrieve the i-th-by-position declaration",
    and an index outside [0, size()) "signals an out-of-range
    condition". *)
Definition decl_sequence_get (i : Z) (s : core decl_data) : outcome nat :=
  if decide (i < 0 ∨ i >= decl_sequence_size s)
  then throws (domain_error "decl_sequence::get")
  else
    match inorder (fuel_of s) (root s) s with
    | Some (order, _) =>
        match order !! Z.to_nat i with
        | Some p =>
            match mem s !! p with
            | Some n => check (decl (data n))
            | None => undefined
            end
        | None => undefined
        end
    | None => undefined
    end.

(** ** Declaring and looking up in a scope *)

(** [decl->decl_data.scope_pos = pos] *)
Definition set_scope_pos (d : ptr) (pos : Z) : M decl_data unit :=
  n ← deref d;
  store d (mk_node (arm_left n) (arm_right n) (arm_parent n) (color n)
             (mk_decl_data pos (decl (data n)) (master_data (data n)))).

(** Modelled from the spec: [Scope::add_member], whose body is not in the
    sources.  "Every declaration entering a Scope receives the next
    integer scope position" and enters the decl-sequence. *)
Definition add_member (d : ptr) : SM unit :=
  with_decls (pos ← (λ s, Some (size s, s));
              set_scope_pos d pos;;
              decl_sequence_insert d;;
              mret tt).

(** [Overload(name)]: no entry, no master. *)
Definition Overload_ctor (n : Z) : Overload := mk_Overload n None 0 [].

(** Modelled from the spec: [Scope::make_var] and its siblings, whose
    bodies are not in the sources.  "Scope's name-tree either finds an
    existing Overload or creates one; Overload's type-tree either finds
    an existing OverloadEntry or creates a fresh MasterDeclData";
    otherwise "a new declaration object is created sharing the existing
    MasterDeclData". *)
Definition Scope_declare (raw : node Overload) (n t : Z) : SM ptr :=
  ovl ← with_overloads
           (rb_tree.container_insert raw Overload_ctor n name_compare);
  entry ← Overload_lookup ovl t;
  d ← (if bool_decide (entry = None) then declare ovl t
       else redeclare entry);
  add_member d;;
  mret d.

(** [empty_overload], the type of the member [missing] of a scope; it
    has no state. *)
Inductive empty_overload : Type := mk_empty_overload.

(** Modelled from the spec: [empty_overload::size] and
    [empty_overload::get], whose bodies are not in the sources: "a
    zero-size Overload", and "indexing it at position 0 raises
    OutOfRange". *)
Definition empty_overload_size (m : empty_overload) : Z := 0.
Definition empty_overload_get (m : empty_overload) (i : Z) : outcome nat :=
  throws (domain_error "empty_overload::get").

#[global] Instance empty_overload_Sequence : Sequence empty_overload nat :=
  {| Sequence_size := empty_overload_size;
     Sequence_get := empty_overload_get |}.

(** The [empty_overload] that a reference designates, when it is the
    [missing] of the scope. *)
Definition as_empty_overload (r : overload_ref) : option empty_overload :=
  match r with
  | ref_missing => Some mk_empty_overload
  | ref_overload _ | ref_singleton _ => None
  end.

(** Modelled from the spec: [Scope::operator[]], whose body is not in the
    sources.  "Absence returns a shared, stateless, zero-size Overload
    singleton." *)
Definition Scope_subscript (n : Z) : SM overload_ref :=
  ovl ← with_overloads (rb_tree.container_find n name_compare);
  mret (match ovl with
        | Some i => ref_overload i
        | None => ref_missing
        end).



(** [decl_rep<T>::decl_set] and [decl_rep<T>::master] *)
Definition decl_set (d : nat) (sc : Scope) : outcome (ref_sequence nat) :=
  match farm_decls sc !! d with
  | Some n =>
      match master_data (data n) with
      | Some i =>
          match farm_master_info sc !! i with
          | Some e => returns (declset (data e))
          | None => undefined
          end
      | None => undefined
      end
  | None => undefined
  end.

Definition master (d : nat) (sc : Scope) : outcome nat :=
  match farm_decls sc !! d with
  | Some n =>
      match master_data (data n) with
      | Some i =>
          match farm_master_info sc !! i with
          | Some e => check (master_decl (data e))
          | None => undefined
          end
      | None => undefined
      end
  | None => undefined
  end.

(** [decl_rep<T>::position] *)
Definition position (d : nat) (sc : Scope) : outcome Z :=
  match farm_decls sc !! d with
  | Some n => returns (scope_pos (data n))
  | None => undefined
  end.

(** [Scope(region, type)]: nothing declared. *)
Definition Scope_init : Scope := mk_Scope (core_init []) None 0 [] [].

(** ** Homogeneous scopes *)

(** A member of a homogeneous scope (a parameter, a base or an
    enumerator), known by the [node_id] of its name. *)
Record member_rep := mk_member_rep { member_name : Z }.

(** The loop of [homogeneous_scope<Member>::operator[]], from index [i]
    on, [fuel] members remaining. *)
Fixpoint homogeneous_scope_search (decls : val_sequence member_rep)
    (n : Z) (fuel : nat) (i : Z) : outcome overload_ref :=
  match fuel with
  | O => returns ref_missing
  | S fuel =>
      match val_sequence_get decls i with
      | returns d =>
          if decide (member_name d = n) then returns (ref_singleton i)
          else homogeneous_scope_search decls n fuel (i + 1)
      | throws e => throws e
      | undefined => undefined
      end
  end.

(** [homogeneous_scope<Member>::operator[]] *)
Definition homogeneous_scope_subscript (decls : val_sequence member_rep)
    (n : Z) : outcome overload_ref :=
  let s := val_sequence_size decls in
  homogeneous_scope_search decls n (Z.to_nat s) 0.

End impl.

(** * The comparison of ranges ([ipr/utility]) *)

Module util.

(** [lexicographical_compare::operator()], the same in both copies of
    the file.  A range is the list of the elements between its two
    iterators; [compare] answers an [int], and the loop returns the first
    answer that is not zero. *)
Fixpoint lexicographical_compare {A B : Type} (compare : A → B → Z)
    (range1 : list A) (range2 : list B) : Z :=
  match range1, range2 with
  | x :: range1, y :: range2 =>
      let cmp := compare x y in
      if decide (cmp ≠ 0) then cmp
      else lexicographical_compare compare range1 range2
  | [], [] => 0
  | [], _ :: _ => -1
  | _ :: _, [] => 1
  end.

End util.

(** * Declaring in a homogeneous scope ([ipr/impl]) *)

(** [homogeneous_scope<Member>::push_back]: the member built from the
    arguments goes to the end of [decls.seq]. *)
Definition homogeneous_scope_push_back
    (decls : impl.val_sequence impl.member_rep) (m : impl.member_rep)
    : impl.val_sequence impl.member_rep :=
  impl.val_sequence_push_back decls m.

(** ** Total correctness of computations *)

Section wp.
Context {T : Type}.

(** [wp m s Q]: run from [s], the computation [m] does not fail, and its
    result and final state satisfy [Q]. *)
Definition wp {A} (m : M T A) (s : core T) (Q : A → core T → Prop) : Prop :=
  ∃ a s', m s = Some (a, s') ∧ Q a s'.

Lemma wp_ret {A} (a : A) s Q : Q a s → wp (mret a) s Q.
Proof. intros H. exists a, s. done. Qed.

Lemma wp_bind {A B} (m : M T A) (k : A → M T B) s Q :
  wp m s (λ a s', wp (k a) s' Q) → wp (m ≫= k) s Q.
Proof.
  intros (a & s' & Hm & b & s'' & Hk & HQ). exists b, s''.
  split; [|done]. unfold mbind, M_bind. by rewrite Hm.
Qed.

Lemma wp_mono {A} (m : M T A) s (Q Q' : A → core T → Prop) :
  wp m s Q → (∀ a s', Q a s' → Q' a s') → wp m s Q'.
Proof. intros (a & s' & Hm & HQ) H. exists a, s'. eauto. Qed.

Lemma wp_run {A} (m : M T A) s Q :
  wp m s Q → ∃ a s', m s = Some (a, s') ∧ Q a s'.
Proof. done. Qed.

Lemma wp_deref i n s Q :
  mem s !! i = Some n → Q n s → wp (deref (Some i)) s Q.
Proof. intros Hi HQ. exists n, s. unfold deref. by rewrite Hi. Qed.

Lemma wp_store i n s Q :
  Q tt (mk_core (<[i:=n]> (mem s)) (root s) (count s)) →
  wp (store (Some i) n) s Q.
Proof. intros HQ. by eexists _, _. Qed.

Lemma wp_get_left i n s Q :
  mem s !! i = Some n → Q (arm_left n) s → wp (get_left (Some i)) s Q.
Proof. intros. apply wp_bind. eapply wp_deref; [done|]. by apply wp_ret. Qed.

Lemma wp_get_right i n s Q :
  mem s !! i = Some n → Q (arm_right n) s → wp (get_right (Some i)) s Q.
Proof. intros. apply wp_bind. eapply wp_deref; [done|]. by apply wp_ret. Qed.

Lemma wp_get_parent i n s Q :
  mem s !! i = Some n → Q (arm_parent n) s → wp (get_parent (Some i)) s Q.
Proof. intros. apply wp_bind. eapply wp_deref; [done|]. by apply wp_ret. Qed.

Lemma wp_get_color i n s Q :
  mem s !! i = Some n → Q (color n) s → wp (get_color (Some i)) s Q.
Proof. intros. apply wp_bind. eapply wp_deref; [done|]. by apply wp_ret. Qed.

Lemma wp_get_data i n s Q :
  mem s !! i = Some n → Q (data n) s → wp (get_data (Some i)) s Q.
Proof. intros. apply wp_bind. eapply wp_deref; [done|]. by apply wp_ret. Qed.

Lemma wp_set_left i n v s Q :
  mem s !! i = Some n →
  Q tt (mk_core (<[i:=mk_node v (arm_right n) (arm_parent n) (color n) (data n)]> (mem s))
          (root s) (count s)) →
  wp (set_left (Some i) v) s Q.
Proof. intros. apply wp_bind. eapply wp_deref; [done|]. by apply wp_store. Qed.

Lemma wp_set_right i n v s Q :
  mem s !! i = Some n →
  Q tt (mk_core (<[i:=mk_node (arm_left n) v (arm_parent n) (color n) (data n)]> (mem s))
          (root s) (count s)) →
  wp (set_right (Some i) v) s Q.
Proof. intros. apply wp_bind. eapply wp_deref; [done|]. by apply wp_store. Qed.

Lemma wp_set_parent i n v s Q :
  mem s !! i = Some n →
  Q tt (mk_core (<[i:=mk_node (arm_left n) (arm_right n) v (color n) (data n)]> (mem s))
          (root s) (count s)) →
  wp (set_parent (Some i) v) s Q.
Proof. intros. apply wp_bind. eapply wp_deref; [done|]. by apply wp_store. Qed.

Lemma wp_set_color i n c s Q :
  mem s !! i = Some n →
  Q tt (mk_core (<[i:=mk_node (arm_left n) (arm_right n) (arm_parent n) c (data n)]> (mem s))
          (root s) (count s)) →
  wp (set_color (Some i) c) s Q.
Proof. intros. apply wp_bind. eapply wp_deref; [done|]. by apply wp_store. Qed.

Lemma wp_get_root s Q : Q (root s) s → wp get_root s Q.
Proof. intros. by eexists _, _. Qed.

Lemma wp_set_root v s Q :
  Q tt (mk_core (mem s) v (count s)) → wp (set_root v) s Q.
Proof. intros. by eexists _, _. Qed.

Lemma wp_incr_count s Q :
  count s < INT_MAX →
  Q tt (mk_core (mem s) (root s) (count s + 1)) → wp incr_count s Q.
Proof.
  intros Hc HQ. eexists _, _. split; [|exact HQ].
  unfold incr_count. by rewrite decide_True.
Qed.

Lemma wp_get_fuel s Q : Q (fuel_of s) s → wp get_fuel s Q.
Proof. intros. by eexists _, _. Qed.
End wp.

(** ** The tree a memory represents *)

Section abstraction.
Context {T : Type}.

(** The shape stored in the arena, with the cell and payload of every
    node: what the links say, read from the root. *)
Inductive tree :=
  | Leaf
  | Br (c : Color) (l : tree) (p : nat) (d : T) (r : tree).

Definition root_ptr (t : tree) : ptr :=
  match t with Leaf => None | Br _ _ p _ _ => Some p end.

Definition color_of (t : tree) : Color :=
  match t with Leaf => Black | Br c _ _ _ _ => c end.

(** In-order traversal: cell and payload of each node. *)
Fixpoint elements (t : tree) : list (nat * T) :=
  match t with
  | Leaf => []
  | Br _ l p d r => elements l ++ (p, d) :: elements r
  end.

Definition ptrs (t : tree) : list nat := (elements t).*1.
Definition keys (t : tree) : list T := (elements t).*2.

(** [rep m up t]: in memory [m], the links of the cells of [t] spell out
    [t], the root of [t] having [up] as its parent. *)
Fixpoint rep (m : list (node T)) (up : ptr) (t : tree) : Prop :=
  match t with
  | Leaf => True
  | Br c l p d r =>
      m !! p = Some (mk_node (root_ptr l) (root_ptr r) up c d)
      ∧ rep m (Some p) l ∧ rep m (Some p) r
  end.

(** A tree with a hole: the path from the hole up to the root, each step
    recording on which side the hole hangs and what hangs on the other. *)
Inductive side := L | R.

Record frame := mk_frame {
  f_side : side;
  f_color : Color;
  f_ptr : nat;
  f_data : T;
  f_sib : tree
}.

Definition ctx := list frame.

Definition fill (f : frame) (t : tree) : tree :=
  match f_side f with
  | L => Br (f_color f) t (f_ptr f) (f_data f) (f_sib f)
  | R => Br (f_color f) (f_sib f) (f_ptr f) (f_data f) t
  end.

Fixpoint plug (t : tree) (k : ctx) : tree :=
  match k with
  | [] => t
  | f :: k => plug (fill f t) k
  end.

Definition ctx_parent (k : ctx) : ptr :=
  match k with [] => None | f :: _ => Some (f_ptr f) end.

Definition ctx_color (k : ctx) : Color :=
  match k with [] => Black | f :: _ => f_color f end.

Definition frame_node (f : frame) (q up : ptr) : node T :=
  match f_side f with
  | L => mk_node q (root_ptr (f_sib f)) up (f_color f) (f_data f)
  | R => mk_node (root_ptr (f_sib f)) q up (f_color f) (f_data f)
  end.

(** [rep_ctx m q k]: the cells of the path [k] are linked as [k] says,
    the hole holding the pointer [q]. *)
Fixpoint rep_ctx (m : list (node T)) (q : ptr) (k : ctx) : Prop :=
  match k with
  | [] => True
  | f :: k' =>
      m !! f_ptr f = Some (frame_node f q (ctx_parent k'))
      ∧ rep m (Some (f_ptr f)) (f_sib f)
      ∧ rep_ctx m (Some (f_ptr f)) k'
  end.

Fixpoint ctx_ptrs (k : ctx) : list nat :=
  match k with
  | [] => []
  | f :: k' => f_ptr f :: ptrs (f_sib f) ++ ctx_ptrs k'
  end.

(** The pointer at the top of [plug t k], given the pointer in the hole. *)
Definition ctx_top (q : ptr) (k : ctx) : ptr :=
  match last k with None => q | Some f => Some (f_ptr f) end.

(** The place that holds the pointer to the hole. *)
Definition ctx_slot (k : ctx) : slot :=
  match k with
  | [] => slot_root
  | f :: _ =>
      match f_side f with
      | L => slot_left (Some (f_ptr f))
      | R => slot_right (Some (f_ptr f))
      end
  end.

(** [Rep s t]: the tree object [s] holds exactly the tree [t]. *)
Definition Rep (s : core T) (t : tree) : Prop :=
  rep (mem s) None t ∧ root s = root_ptr t ∧ NoDup (ptrs t).

Lemma ptrs_Br c l p d r : ptrs (Br c l p d r) = ptrs l ++ p :: ptrs r.
Proof. unfold ptrs. simpl. by rewrite fmap_app. Qed.

Lemma ptrs_fill f t : ptrs (fill f t) ≡ₚ f_ptr f :: ptrs (f_sib f) ++ ptrs t.
Proof.
  unfold fill. destruct (f_side f); rewrite ptrs_Br.
  - rewrite <-Permutation_middle. f_equiv. apply (comm (++)).
  - by rewrite <-Permutation_middle.
Qed.

Lemma ptrs_plug t k : ptrs (plug t k) ≡ₚ ptrs t ++ ctx_ptrs k.
Proof.
  revert t. induction k as [|f k IH]; intros t; simpl.
  - by rewrite app_nil_r.
  - rewrite IH, ptrs_fill. simpl.
    rewrite <-Permutation_middle. f_equiv.
    rewrite (comm (++) (ptrs (f_sib f))), <-(assoc (++)). done.
Qed.

Lemma root_ptr_fill f t : root_ptr (fill f t) = Some (f_ptr f).
Proof. unfold fill. by destruct (f_side f). Qed.

Lemma root_ptr_plug t k : root_ptr (plug t k) = ctx_top (root_ptr t) k.
Proof.
  revert t. induction k as [|f k IH]; intros t; [done|].
  simpl. rewrite IH, root_ptr_fill. unfold ctx_top.
  rewrite last_cons. by destruct (last k).
Qed.

Lemma rep_fill m up f t :
  rep m up (fill f t) ↔
    m !! f_ptr f = Some (frame_node f (root_ptr t) up)
    ∧ rep m (Some (f_ptr f)) (f_sib f) ∧ rep m (Some (f_ptr f)) t.
Proof. unfold fill, frame_node. destruct (f_side f); simpl; naive_solver. Qed.

Lemma rep_plug m t k :
  rep m None (plug t k) ↔ rep m (ctx_parent k) t ∧ rep_ctx m (root_ptr t) k.
Proof.
  revert t. induction k as [|f k IH]; intros t; simpl; [naive_solver|].
  rewrite IH, rep_fill, root_ptr_fill. naive_solver.
Qed.

(** Writing a cell outside a tree does not disturb it. *)
Lemma rep_frame m up t i n :
  i ∉ ptrs t → rep m up t → rep (<[i:=n]> m) up t.
Proof.
  revert up. induction t as [|c l IHl p d r IHr]; intros up Hi; [done|].
  rewrite ptrs_Br in Hi. simpl. intros (Hp & Hl & Hr).
  split_and!.
  - rewrite list_lookup_insert_ne; [done|]. set_solver.
  - apply IHl; [set_solver|done].
  - apply IHr; [set_solver|done].
Qed.

Lemma rep_ctx_frame m q k i n :
  i ∉ ctx_ptrs k → rep_ctx m q k → rep_ctx (<[i:=n]> m) q k.
Proof.
  revert q. induction k as [|f k IH]; intros q Hi; [done|].
  simpl in *. intros (Hp & Hs & Hk). split_and!.
  - rewrite list_lookup_insert_ne; [done|]. set_solver.
  - apply rep_frame; [set_solver|done].
  - apply IH; [set_solver|done].
Qed.

(** Every cell of a represented tree is allocated. *)
Lemma rep_valid m up t i : rep m up t → i ∈ ptrs t → (i < length m)%nat.
Proof.
  revert up. induction t as [|c l IHl p d r IHr]; intros up; simpl.
  - intros _ Hi. unfold ptrs in Hi. simpl in Hi. set_solver.
  - rewrite ptrs_Br. intros (Hp & Hl & Hr) Hi.
    apply elem_of_app in Hi as [Hi|Hi]; [by eapply IHl|].
    apply elem_of_cons in Hi as [->|Hi]; [by eapply lookup_lt_Some|by eapply IHr].
Qed.

Lemma rep_ctx_valid m q k i :
  rep_ctx m q k → i ∈ ctx_ptrs k → (i < length m)%nat.
Proof.
  revert q. induction k as [|f k IH]; intros q; simpl.
  - set_solver.
  - intros (Hp & Hs & Hk) Hi.
    apply elem_of_cons in Hi as [->|Hi]; [by eapply lookup_lt_Some|].
    apply elem_of_app in Hi as [Hi|Hi]; [by eapply rep_valid|by eapply IH].
Qed.

(** The represented tree is determined by memory beyond the parent of
    its root. *)
Lemma rep_reparent m up up' c l p d r :
  p ∉ ptrs l → p ∉ ptrs r →
  rep m up (Br c l p d r) →
  rep (<[p:=mk_node (root_ptr l) (root_ptr r) up' c d]> m) up' (Br c l p d r).
Proof.
  intros Hl Hr (Hp & Hl' & Hr'). simpl. split_and!.
  - apply list_lookup_insert_eq. by eapply lookup_lt_Some.
  - by apply rep_frame.
  - by apply rep_frame.
Qed.


#[global] Typeclasses Opaque ptrs ctx_ptrs.

Global Instance set_unfold_ptrs_Leaf i : SetUnfoldElemOf i (ptrs Leaf) False.
Proof. constructor. unfold ptrs. simpl. set_solver. Qed.

Global Instance set_unfold_ptrs_Br i c l p d r P Q :
  SetUnfoldElemOf i (ptrs l) P → SetUnfoldElemOf i (ptrs r) Q →
  SetUnfoldElemOf i (ptrs (Br c l p d r)) (P ∨ i = p ∨ Q).
Proof. intros [HP] [HQ]. constructor. rewrite ptrs_Br. set_solver. Qed.

Global Instance set_unfold_ptrs_fill i f t P Q :
  SetUnfoldElemOf i (ptrs (f_sib f)) P → SetUnfoldElemOf i (ptrs t) Q →
  SetUnfoldElemOf i (ptrs (fill f t)) (i = f_ptr f ∨ P ∨ Q).
Proof. intros [HP] [HQ]. constructor. rewrite ptrs_fill. set_solver. Qed.

Global Instance set_unfold_ptrs_plug i t k P Q :
  SetUnfoldElemOf i (ptrs t) P → SetUnfoldElemOf i (ctx_ptrs k) Q →
  SetUnfoldElemOf i (ptrs (plug t k)) (P ∨ Q).
Proof. intros [HP] [HQ]. constructor. rewrite ptrs_plug. set_solver. Qed.

Global Instance set_unfold_ctx_ptrs_nil i : SetUnfoldElemOf i (ctx_ptrs []) False.
Proof. constructor. simpl. set_solver. Qed.

Global Instance set_unfold_ctx_ptrs_cons i f k P Q :
  SetUnfoldElemOf i (ptrs (f_sib f)) P → SetUnfoldElemOf i (ctx_ptrs k) Q →
  SetUnfoldElemOf i (ctx_ptrs (f :: k)) (i = f_ptr f ∨ P ∨ Q).
Proof. intros [HP] [HQ]. constructor. simpl. set_solver. Qed.

Lemma NoDup_ptrs_Br c l p d r :
  NoDup (ptrs (Br c l p d r)) ↔
    NoDup (ptrs l) ∧ NoDup (ptrs r) ∧ p ∉ ptrs l ∧ p ∉ ptrs r
    ∧ (∀ i, i ∈ ptrs l → i ∉ ptrs r).
Proof. rewrite ptrs_Br, NoDup_app, NoDup_cons. set_solver. Qed.

Lemma NoDup_ctx_ptrs_cons f k :
  NoDup (ctx_ptrs (f :: k)) ↔
    NoDup (ptrs (f_sib f)) ∧ NoDup (ctx_ptrs k) ∧ f_ptr f ∉ ptrs (f_sib f)
    ∧ f_ptr f ∉ ctx_ptrs k ∧ (∀ i, i ∈ ptrs (f_sib f) → i ∉ ctx_ptrs k).
Proof. simpl. rewrite NoDup_cons, NoDup_app. set_solver. Qed.

Lemma NoDup_ptrs_plug t k :
  NoDup (ptrs (plug t k)) ↔
    NoDup (ptrs t) ∧ NoDup (ctx_ptrs k) ∧ (∀ i, i ∈ ptrs t → i ∉ ctx_ptrs k).
Proof. rewrite ptrs_plug, NoDup_app. set_solver. Qed.

Lemma ctx_top_cons q f k : ctx_top q (f :: k) = ctx_top (Some (f_ptr f)) k.
Proof. unfold ctx_top. rewrite last_cons. by destruct (last k). Qed.

Lemma NoDup_plug_congr t t' k :
  ptrs t' ≡ₚ ptrs t → NoDup (ptrs (plug t k)) → NoDup (ptrs (plug t' k)).
Proof. intros Ht. by rewrite !ptrs_plug, Ht. Qed.

Lemma Rep_plug s t k :
  Rep s (plug t k) ↔
    rep (mem s) (ctx_parent k) t ∧ rep_ctx (mem s) (root_ptr t) k
    ∧ root s = ctx_top (root_ptr t) k
    ∧ NoDup (ptrs t) ∧ NoDup (ctx_ptrs k) ∧ (∀ i, i ∈ ptrs t → i ∉ ctx_ptrs k).
Proof.
  unfold Rep. rewrite rep_plug, root_ptr_plug, NoDup_ptrs_plug. naive_solver.
Qed.

(** What a call may change: neither the number of cells, nor cells
    outside of [P], nor the counter. *)
Definition mem_frame (P : list nat) (s s' : core T) : Prop :=
  length (mem s') = length (mem s)
  ∧ ∀ i, i ∉ P → mem s' !! i = mem s !! i.

End abstraction.

Arguments tree : clear implicits.
Arguments frame : clear implicits.
Arguments ctx : clear implicits.

Ltac lookup_simpl :=
  cbn [mem root count arm_left arm_right arm_parent color data];
  repeat first
    [ rewrite list_lookup_insert_eq
        by (rewrite ?length_insert; eapply lookup_lt_Some; eassumption)
    | rewrite list_lookup_insert_ne by done ].

Ltac lookup := lookup_simpl; first [ eassumption | reflexivity ].

Ltac bd_solve :=
  cbn [root_ptr ctx_parent];
  solve [ done | congruence | intros ?; congruence ].

(** The counter is below [INT_MAX]: by the hypotheses on the counts of
    the states at hand. *)
Ltac count_solve :=
  cbn [mem root count] in *; unfold INT_MAX in *; lia.

Ltac wp_step :=
  lazymatch goal with
  | |- wp (mret _) _ _ => apply wp_ret
  | |- wp (write_slot (ctx_slot _) _ ≫= _) _ _ => fail
  | |- wp (_ ≫= _) _ _ => apply wp_bind
  | |- wp (get_left (Some _)) _ _ => eapply wp_get_left; [lookup|]
  | |- wp (get_right (Some _)) _ _ => eapply wp_get_right; [lookup|]
  | |- wp (get_parent (Some _)) _ _ => eapply wp_get_parent; [lookup|]
  | |- wp (get_color (Some _)) _ _ => eapply wp_get_color; [lookup|]
  | |- wp (get_data (Some _)) _ _ => eapply wp_get_data; [lookup|]
  | |- wp (set_left (Some _) _) _ _ => eapply wp_set_left; [lookup|]
  | |- wp (set_right (Some _) _) _ _ => eapply wp_set_right; [lookup|]
  | |- wp (set_parent (Some _) _) _ _ => eapply wp_set_parent; [lookup|]
  | |- wp (set_color (Some _) _) _ _ => eapply wp_set_color; [lookup|]
  | |- wp get_root _ _ => apply wp_get_root
  | |- wp (set_root _) _ _ => apply wp_set_root
  | |- wp incr_count _ _ => apply wp_incr_count; [count_solve|]
  | |- wp get_fuel _ _ => apply wp_get_fuel
  | |- wp (if bool_decide _ then _ else _) _ _ =>
      first [ rewrite bool_decide_eq_true_2 by bd_solve
            | rewrite bool_decide_eq_false_2 by bd_solve ]
  end;
  cbv beta;
  cbn [mem root count arm_left arm_right arm_parent color data
       root_ptr ctx_parent read_slot write_slot].

Ltac wp_steps := repeat wp_step.

Lemma root_ptr_notin {T} (t : tree T) i : i ∉ ptrs t → root_ptr t ≠ Some i.
Proof. destruct t; [done|]. simpl. set_solver. Qed.

(** Disjointness of cells: every quantified fact is used at the cells
    in scope, and what remains is propositional. *)
Ltac inst_nat H :=
  repeat match goal with
  | p : nat |- _ =>
      let t := type of (H p) in
      lazymatch goal with
      | _ : t |- _ => fail
      | _ => pose proof (H p)
      end
  end.

Ltac find_true :=
  lazymatch goal with
  | |- True => exact I
  | |- _ ∨ _ => first [ left; find_true | right; find_true ]
  end.

Ltac neg_atoms H :=
  lazymatch type of H with
  | ¬ (_ ∨ _) =>
      let H1 := fresh in
      let H2 := fresh in
      apply Decidable.not_or in H as [H1 H2]; neg_atoms H1; neg_atoms H2
  | ¬ False => clear H
  | ¬ True => destruct (H I)
  | _ => idtac
  end.

Ltac use_imp H :=
  lazymatch type of H with
  | ?P → ¬ ?Q =>
      first
        [ let HP := fresh in
          assert P as HP by find_true; specialize (H HP); clear HP; neg_atoms H
        | let HN := fresh in
          assert (¬ P) as HN by (let HP := fresh in
                                 intros HP; apply (H HP); find_true);
          clear H; neg_atoms HN
        | clear H ]
  | _ => neg_atoms H
  end.

Ltac ptr_sat :=
  cbn [f_ptr f_sib f_side f_color f_data] in *;
  repeat match goal with
  | H : NoDup (ptrs (Br _ _ _ _ _)) |- _ =>
      rewrite NoDup_ptrs_Br in H; destruct H as (?&?&?&?&?)
  | H : NoDup (ctx_ptrs (_ :: _)) |- _ =>
      rewrite NoDup_ctx_ptrs_cons in H; cbn [f_ptr f_sib] in H;
      destruct H as (?&?&?&?&?)
  end;
  repeat match goal with
  | H : ∀ i : nat, i ∈ ?l1 → i ∉ ?l2 |- _ => inst_nat H; clear H
  end;
  repeat match goal with
  | H : _ |- _ => progress set_unfold in H
  end;
  cbn [f_ptr f_sib f_side f_color f_data] in *;
  repeat match goal with
  | H : _ → ¬ _ |- _ => use_imp H
  | H : ¬ (_ ∨ _) |- _ => neg_atoms H
  end.

Ltac ptr_solve := first [ done | set_unfold; intuition congruence ].

Ltac frame_solve :=
  cbn [mem root count];
  repeat first
    [ assumption
    | apply rep_frame; [ptr_solve|]
    | apply rep_ctx_frame; [ptr_solve|] ].

Ltac mem_frame_solve :=
  split; cbn [mem root count];
  [ by rewrite ?length_insert
  | let i := fresh "i" in let Hi := fresh "Hi" in
    intros i Hi; set_unfold in Hi; neg_atoms Hi;
    rewrite ?list_lookup_insert_ne by done; done ].

Ltac rep_finish :=
  rewrite rep_plug;
  cbn [rep rep_ctx root_ptr ctx_parent mem root count frame_node fill
       f_side f_color f_ptr f_data f_sib];
  split_and!; try done; try lookup; frame_solve.

Ltac Rep_finish :=
  unfold Rep; split_and!;
  [ rep_finish
  | cbn [mem root count]; rewrite root_ptr_plug; cbn [root_ptr];
    rewrite ?ctx_top_cons in *; done
  | assumption ].

Section rotations.
Context {T : Type}.
Implicit Types (s : core T) (t a b g : tree T) (k : ctx T).

Lemma wp_rotate_left s cx a x dx cy b y dy g k :
  Rep s (plug (Br cx a x dx (Br cy b y dy g)) k) →
  wp (rb_tree.rotate_left (Some x)) s (λ _ s',
    Rep s' (plug (Br cy (Br cx a x dx b) y dy g) k)
    ∧ count s' = count s
    ∧ mem_frame (ptrs (plug (Br cx a x dx (Br cy b y dy g)) k)) s s').
Proof.
  intros HRep.
  assert (NoDup (ptrs (plug (Br cy (Br cx a x dx b) y dy g) k))) as Hnd'.
  { eapply NoDup_plug_congr, HRep. rewrite !ptrs_Br. by rewrite <-(assoc (++)). }
  revert HRep.
  rewrite Rep_plug. cbn [rep root_ptr]. rewrite !NoDup_ptrs_Br.
  intros ((Hx & Ha & Hy & Hb & Hg) & Hk & Hroot & Hnd & Hndk & Hdis).
  destruct Hnd as (Hnda & (Hndb & Hndg & Hyb & Hyg & Hbg) & Hxa & Hxyg & Haxg).
  unfold rb_tree.rotate_left.
  destruct b as [|cb bl pb db br]; destruct k as [|[sd cf pf df sib] k'];
    cbn [rep rep_ctx frame_node f_side f_color f_ptr f_data f_sib ctx_parent
         root_ptr] in *.
  - ptr_sat. wp_steps. split_and!; [Rep_finish|done|mem_frame_solve].
  - destruct Hk as (Hf & Hsib & Hk). ptr_sat.
    assert (root_ptr sib ≠ Some x) by (apply root_ptr_notin; ptr_solve).
    destruct sd; cbn [f_side] in *; wp_steps;
      (split_and!; [Rep_finish|done|mem_frame_solve]).
  - destruct Hb as (Hpb & Hbl & Hbr). ptr_sat.
    wp_steps. split_and!; [Rep_finish|done|mem_frame_solve].
  - destruct Hk as (Hf & Hsib & Hk). destruct Hb as (Hpb & Hbl & Hbr). ptr_sat.
    assert (root_ptr sib ≠ Some x) by (apply root_ptr_notin; ptr_solve).
    destruct sd; cbn [f_side] in *; wp_steps;
      (split_and!; [Rep_finish|done|mem_frame_solve]).
Qed.

Lemma wp_rotate_right s cx a x dx cy b y dy g k :
  Rep s (plug (Br cx (Br cy a y dy b) x dx g) k) →
  wp (rb_tree.rotate_right (Some x)) s (λ _ s',
    Rep s' (plug (Br cy a y dy (Br cx b x dx g)) k)
    ∧ count s' = count s
    ∧ mem_frame (ptrs (plug (Br cx (Br cy a y dy b) x dx g) k)) s s').
Proof.
  intros HRep.
  assert (NoDup (ptrs (plug (Br cy a y dy (Br cx b x dx g)) k))) as Hnd'.
  { eapply NoDup_plug_congr, HRep. rewrite !ptrs_Br. by rewrite <-(assoc (++)). }
  revert HRep.
  rewrite Rep_plug. cbn [rep root_ptr]. rewrite !NoDup_ptrs_Br.
  intros ((Hx & (Hy & Ha & Hb) & Hg) & Hk & Hroot & Hnd & Hndk & Hdis).
  destruct Hnd as ((Hnda & Hndb & Hya & Hyb & Hab) & Hndg & Hxyb & Hxg & Hybg).
  unfold rb_tree.rotate_right.
  destruct b as [|cb bl pb db br]; destruct k as [|[sd cf pf df sib] k'];
    cbn [rep rep_ctx frame_node f_side f_color f_ptr f_data f_sib ctx_parent
         root_ptr] in *.
  - ptr_sat. wp_steps. split_and!; [Rep_finish|done|mem_frame_solve].
  - destruct Hk as (Hf & Hsib & Hk). ptr_sat.
    assert (root_ptr sib ≠ Some x) by (apply root_ptr_notin; ptr_solve).
    destruct sd; cbn [f_side] in *; wp_steps;
      (split_and!; [Rep_finish|done|mem_frame_solve]).
  - destruct Hb as (Hpb & Hbl & Hbr). ptr_sat.
    wp_steps. split_and!; [Rep_finish|done|mem_frame_solve].
  - destruct Hk as (Hf & Hsib & Hk). destruct Hb as (Hpb & Hbl & Hbr). ptr_sat.
    assert (root_ptr sib ≠ Some x) by (apply root_ptr_notin; ptr_solve).
    destruct sd; cbn [f_side] in *; wp_steps;
      (split_and!; [Rep_finish|done|mem_frame_solve]).
Qed.
End rotations.

(** ** What [fixup_insert] does to the tree *)

Section fixup_pure.
Context {T : Type}.
Implicit Types (t : tree T) (k : ctx T) (f : frame T).

Definition blacken t : tree T :=
  match t with Leaf => Leaf | Br _ l p d r => Br Black l p d r end.

(** The loop of [fixup_insert], read on the tree: [t] is the subtree at
    [z] and [k] the path above it. *)
Fixpoint fixup_z t k : tree T :=
  match k with
  | fp :: fg :: k2 =>
      match f_color fp with
      | Black => plug t k
      | Red =>
          let uncle := f_sib fg in
          match color_of uncle with
          | Red =>
              fixup_z
                (fill (mk_frame (f_side fg) Red (f_ptr fg) (f_data fg)
                         (blacken uncle))
                   (fill (mk_frame (f_side fp) Black (f_ptr fp) (f_data fp)
                            (f_sib fp)) t))
                k2
          | Black =>
              let p := f_ptr fp in
              let dp := f_data fp in
              let sib := f_sib fp in
              let g := f_ptr fg in
              let dg := f_data fg in
              match f_side fg, f_side fp, t with
              | L, L, _ =>
                  plug (Br Black t p dp (Br Red sib g dg uncle)) k2
              | L, R, Br cz tl z dz tr =>
                  plug (Br Black (Br Red sib p dp tl) z dz
                          (Br Red tr g dg uncle)) k2
              | R, R, _ =>
                  plug (Br Black (Br Red uncle g dg sib) p dp t) k2
              | R, L, Br cz tl z dz tr =>
                  plug (Br Black (Br Red uncle g dg tl) z dz
                          (Br Red tr p dp sib)) k2
              | _, _, Leaf => plug t k
              end
          end
      end
  | _ => plug t k
  end.

(** The root of the whole tree is black. *)
Definition ctx_root_black k : Prop :=
  match last k with Some f => f_color f = Black | None => True end.

Lemma ctx_ind2 (P : ctx T → Prop) :
  P [] → (∀ f, P [f]) → (∀ f g k, P k → P (f :: g :: k)) → ∀ k, P k.
Proof.
  intros H0 H1 H2. fix IH 1. intros [|f [|g k]]; [apply H0|apply H1|].
  apply H2, IH.
Qed.

Lemma ctx_root_black_cons f k :
  k ≠ [] → ctx_root_black (f :: k) → ctx_root_black k.
Proof.
  unfold ctx_root_black. rewrite last_cons. destruct k as [|g k]; [done|].
  intros _. rewrite last_cons. by destruct (last k).
Qed.

Lemma ctx_root_black_cons2 f g k :
  ctx_root_black (f :: g :: k) → ctx_root_black k.
Proof.
  intros H. destruct k as [|h k]; [done|].
  by do 2 (apply ctx_root_black_cons in H; [|done]).
Qed.

Lemma ctx_top_in q k :
  k ≠ [] → ∃ i, ctx_top q k = Some i ∧ i ∈ ctx_ptrs k.
Proof.
  revert q. induction k as [|f k IH]; intros q Hk; [done|].
  rewrite ctx_top_cons. destruct k as [|g k].
  - exists (f_ptr f). split; [done|]. set_solver.
  - destruct (IH (Some (f_ptr f))) as (i & Hi & Hin); [done|].
    exists i. split; [done|]. set_solver.
Qed.
End fixup_pure.

Section fixup_heap.
Context {T : Type}.
Implicit Types (s : core T) (t : tree T) (k : ctx T) (f : frame T).

Lemma mem_frame_refl P s : mem_frame P s s.
Proof. by split. Qed.

Lemma mem_frame_trans P P' s1 s2 s3 :
  mem_frame P s1 s2 → mem_frame P' s2 s3 → (∀ i, i ∈ P' → i ∈ P) →
  mem_frame P s1 s3.
Proof.
  intros [Hl1 H1] [Hl2 H2] HP. split; [congruence|].
  intros i Hi. rewrite H2, H1; [done..|]. naive_solver.
Qed.

(** The loop stops where the parent of [z] is black, or [z] is the root. *)
Lemma wp_fixup_loop_exit fuel s t k z :
  Rep s (plug t k) → root_ptr t = Some z → ctx_color k = Black →
  wp (rb_tree.fixup_loop (S fuel) (Some z)) s (λ _ s', s' = s).
Proof.
  destruct t as [|cz tl z' dz tr]; [done|]. intros HRep [= ->] Hc.
  apply Rep_plug in HRep as ((Hz & Htl & Htr) & Hk & Hroot & Hnd & Hndk & Hdis).
  cbn [rb_tree.fixup_loop]. unfold rb_tree.fixup_cond.
  destruct s as [m r c]. cbn [mem root count root_ptr] in *. subst r.
  destruct k as [|[sd cf pf df sib] k'].
  - change (ctx_top (Some z) []) with (Some z). wp_steps. done.
  - destruct (ctx_top_in (Some z) ({| f_side := sd; f_color := cf; f_ptr := pf;
      f_data := df; f_sib := sib |} :: k')) as (i & Hi & Hin); [done|].
    rewrite Hi. assert (i ≠ z) by (intros ->; by eapply Hdis; [|done]; set_solver).
    cbn [ctx_color f_color] in Hc. subst cf.
    destruct Hk as (Hf & Hsib & Hk).
    cbn [rep_ctx frame_node f_side f_color f_ptr f_data f_sib ctx_parent] in *.
    destruct sd; wp_steps; done.
Qed.

Lemma Rep_root_ne s t k z :
  Rep s (plug t k) → root_ptr t = Some z → k ≠ [] → root s ≠ Some z.
Proof.
  intros (_ & _ & Hroot & _ & _ & Hdis)%Rep_plug Hz Hk.
  destruct (ctx_top_in (root_ptr t) k Hk) as (i & Hi & Hin).
  rewrite Hroot, Hi. intros [= ->]. eapply Hdis; [|done].
  destruct t; simplify_eq/=. set_solver.
Qed.

Lemma elements_plug_congr t t' k :
  elements t' = elements t → elements (plug t' k) = elements (plug t k).
Proof.
  revert t t'. induction k as [|f k IH]; intros t t' Ht; [done|].
  simpl. apply IH. unfold fill. destruct (f_side f); simpl; by rewrite Ht.
Qed.

Lemma ptrs_elements_congr t t' :
  elements t' = elements t → ∀ i, i ∈ ptrs t' → i ∈ ptrs t.
Proof. unfold ptrs. by intros ->. Qed.

Lemma NoDup_elements_congr t t' :
  elements t' = elements t → NoDup (ptrs t) → NoDup (ptrs t').
Proof. unfold ptrs. by intros ->. Qed.

End fixup_heap.

Ltac elements_norm :=
  cbn [elements fill blacken f_side f_color f_ptr f_data f_sib plug];
  repeat first [ rewrite <-app_assoc | rewrite <-app_comm_cons ].

Ltac elements_solve :=
  elements_norm;
  first [ reflexivity | apply elements_plug_congr; elements_norm; reflexivity ].

Ltac nodup_solve H :=
  eapply NoDup_elements_congr; [|exact H]; elements_solve.

Ltac incl_solve := apply ptrs_elements_congr; elements_solve.

Ltac Rep_open H :=
  apply Rep_plug in H;
  cbn [rep rep_ctx frame_node f_side f_color f_ptr f_data f_sib ctx_parent
       root_ptr] in H;
  destruct_and!.

Ltac Rep_close H :=
  unfold Rep; split_and!;
  [ rep_finish
  | cbn [mem root count]; rewrite root_ptr_plug;
    cbn [root_ptr fill f_side f_color f_ptr f_data f_sib];
    rewrite ?ctx_top_cons in *; cbn [f_ptr] in *; done
  | nodup_solve H ].

Section fixup_sim.
Context {T : Type}.
Implicit Types (s : core T) (t : tree T) (k : ctx T) (f : frame T).

Lemma wp_fixup_loop k : ∀ fuel s t z,
  Rep s (plug t k) → root_ptr t = Some z → ctx_root_black k →
  (length k < fuel)%nat →
  wp (rb_tree.fixup_loop fuel (Some z)) s (λ _ s',
    Rep s' (fixup_z t k) ∧ count s' = count s
    ∧ mem_frame (ptrs (plug t k)) s s').
Proof.
  induction k as [|f|fp fg k2 IH] using ctx_ind2;
    intros fuel s t z HRep Hz Hrb Hfuel;
    (destruct fuel as [|fuel]; [simpl in *; lia|]).
  - eapply wp_mono; [by eapply wp_fixup_loop_exit|].
    intros _ s' ->. split_and!; [done..|apply mem_frame_refl].
  - eapply wp_mono; [by eapply wp_fixup_loop_exit|].
    intros _ s' ->. split_and!; [done..|apply mem_frame_refl].
  - destruct fp as [sz cp p dp sib], fg as [sp cg g dg uncle].
    destruct cp.
    { eapply wp_mono; [by eapply wp_fixup_loop_exit|].
      intros _ s' ->. split_and!; [done..|apply mem_frame_refl]. }
    destruct t as [|cz tl z' dz tr]; [done|]. injection Hz as ->.
    pose proof HRep as (_ & _ & Hnd0). pose proof HRep as HRep0.
    pose proof (Rep_root_ne _ _ _ z HRep eq_refl ltac:(done)) as Hrz.
    apply ctx_root_black_cons2 in Hrb.
    cbn [rb_tree.fixup_loop]. unfold rb_tree.fixup_cond, rb_tree.fixup_body.
    destruct sp, sz, uncle as [|[] ul y dy ur];
      cbn [fixup_z f_color f_side f_sib f_ptr f_data color_of blacken];
      Rep_open HRep; ptr_sat;
      try assert (root_ptr sib ≠ Some z) by (apply root_ptr_notin; ptr_solve).
    (* parent on the left, [z] on the left *)
    1,2: lazymatch type of HRep0 with
      | Rep _ (plug _ (_ :: mk_frame _ _ _ _ ?uncle :: _)) =>
      wp_steps;
      (eapply wp_mono;
         [ eapply (wp_rotate_right _ Red (Br cz tl z dz tr) g dg Black sib p dp uncle k2); Rep_close Hnd0 |]);
      intros _ s2 (HR & Hc & Hf); wp_steps;
      (destruct fuel as [|fuel]; [simpl in Hfuel; lia|]);
      (eapply wp_mono;
         [ eapply (wp_fixup_loop_exit fuel s2 (Br cz tl z dz tr)
                     (mk_frame L Black p dp (Br Red sib g dg uncle) :: k2) z);
           [exact HR|done..] |]);
      intros _ s' ->; (split_and!; [exact HR|by rewrite Hc|]);
      (eapply mem_frame_trans; [|exact Hf|incl_solve]); mem_frame_solve
      end.
    1: {
      wp_steps;
      (lazymatch goal with
       | |- wp _ ?s1 (λ _ s', Rep s' (fixup_z ?t' _) ∧ _) =>
           eapply wp_mono;
             [ eapply (IH fuel s1 t' g);
               [ Rep_close Hnd0 | reflexivity | done | simpl in Hfuel; lia ] |]
       end);
      intros _ s' (HR & Hc & Hf); (split_and!; [exact HR|by rewrite Hc|]);
      (eapply mem_frame_trans; [|exact Hf|incl_solve]); mem_frame_solve. }
    (* parent on the left, [z] on the right *)
    1,2: lazymatch type of HRep0 with
      | Rep _ (plug _ (_ :: mk_frame _ _ _ _ ?uncle :: _)) =>
      wp_steps;
      (eapply wp_mono;
         [ eapply (wp_rotate_left _ Red sib p dp cz tl z dz tr
                     (mk_frame L cg g dg uncle :: k2)); exact HRep0 |]);
      intros _ s1 (HR1 & Hc1 & Hf1); pose proof HR1 as HR1';
      Rep_open HR1'; wp_steps;
      (eapply wp_mono;
         [ eapply (wp_rotate_right _ Red (Br Red sib p dp tl) g dg Black tr z dz uncle k2); Rep_close Hnd0 |]);
      intros _ s2 (HR2 & Hc2 & Hf2); wp_steps;
      (destruct fuel as [|fuel]; [simpl in Hfuel; lia|]);
      (eapply wp_mono;
         [ eapply (wp_fixup_loop_exit fuel s2 (Br Red sib p dp tl)
                     (mk_frame L Black z dz (Br Red tr g dg uncle) :: k2) p);
           [exact HR2|done..] |]);
      intros _ s' ->; (split_and!; [exact HR2|by rewrite Hc2|]);
      (eapply mem_frame_trans; [exact Hf1| |done]);
      (eapply mem_frame_trans; [|exact Hf2|incl_solve]); mem_frame_solve
      end.
    1: {
      wp_steps;
      (lazymatch goal with
       | |- wp _ ?s1 (λ _ s', Rep s' (fixup_z ?t' _) ∧ _) =>
           eapply wp_mono;
             [ eapply (IH fuel s1 t' g);
               [ Rep_close Hnd0 | reflexivity | done | simpl in Hfuel; lia ] |]
       end);
      intros _ s' (HR & Hc & Hf); (split_and!; [exact HR|by rewrite Hc|]);
      (eapply mem_frame_trans; [|exact Hf|incl_solve]); mem_frame_solve. }
    (* parent on the right, [z] on the left *)
    1,2: lazymatch type of HRep0 with
      | Rep _ (plug _ (_ :: mk_frame _ _ _ _ ?uncle :: _)) =>
      wp_steps;
      (eapply wp_mono;
         [ eapply (wp_rotate_right _ Red tl p dp cz tr z dz sib
                     (mk_frame R cg g dg uncle :: k2)); exact HRep0 |]);
      intros _ s1 (HR1 & Hc1 & Hf1); pose proof HR1 as HR1';
      Rep_open HR1'; wp_steps;
      (eapply wp_mono;
         [ eapply (wp_rotate_left _ Red uncle g dg Black tl z dz (Br Red tr p dp sib) k2); Rep_close Hnd0 |]);
      intros _ s2 (HR2 & Hc2 & Hf2); wp_steps;
      (destruct fuel as [|fuel]; [simpl in Hfuel; lia|]);
      (eapply wp_mono;
         [ eapply (wp_fixup_loop_exit fuel s2 (Br Red tr p dp sib)
                     (mk_frame R Black z dz (Br Red uncle g dg tl) :: k2) p);
           [exact HR2|done..] |]);
      intros _ s' ->; (split_and!; [exact HR2|by rewrite Hc2|]);
      (eapply mem_frame_trans; [exact Hf1| |done]);
      (eapply mem_frame_trans; [|exact Hf2|incl_solve]); mem_frame_solve
      end.
    1: {
      wp_steps;
      (lazymatch goal with
       | |- wp _ ?s1 (λ _ s', Rep s' (fixup_z ?t' _) ∧ _) =>
           eapply wp_mono;
             [ eapply (IH fuel s1 t' g);
               [ Rep_close Hnd0 | reflexivity | done | simpl in Hfuel; lia ] |]
       end);
      intros _ s' (HR & Hc & Hf); (split_and!; [exact HR|by rewrite Hc|]);
      (eapply mem_frame_trans; [|exact Hf|incl_solve]); mem_frame_solve. }
    (* parent on the right, [z] on the right *)
    1,2: lazymatch type of HRep0 with
      | Rep _ (plug _ (_ :: mk_frame _ _ _ _ ?uncle :: _)) =>
      wp_steps;
      (eapply wp_mono;
         [ eapply (wp_rotate_left _ Red uncle g dg Black sib p dp (Br cz tl z dz tr) k2); Rep_close Hnd0 |]);
      intros _ s2 (HR & Hc & Hf); wp_steps;
      (destruct fuel as [|fuel]; [simpl in Hfuel; lia|]);
      (eapply wp_mono;
         [ eapply (wp_fixup_loop_exit fuel s2 (Br cz tl z dz tr)
                     (mk_frame R Black p dp (Br Red uncle g dg sib) :: k2) z);
           [exact HR|done..] |]);
      intros _ s' ->; (split_and!; [exact HR|by rewrite Hc|]);
      (eapply mem_frame_trans; [|exact Hf|incl_solve]); mem_frame_solve
      end.
    wp_steps;
      (lazymatch goal with
       | |- wp _ ?s1 (λ _ s', Rep s' (fixup_z ?t' _) ∧ _) =>
           eapply wp_mono;
             [ eapply (IH fuel s1 t' g);
               [ Rep_close Hnd0 | reflexivity | done | simpl in Hfuel; lia ] |]
       end);
      intros _ s' (HR & Hc & Hf); (split_and!; [exact HR|by rewrite Hc|]);
      (eapply mem_frame_trans; [|exact Hf|incl_solve]); mem_frame_solve.
Qed.
End fixup_sim.

Section fixup_props.
Context {T : Type}.
Implicit Types (s : core T) (t : tree T) (k : ctx T) (f : frame T).

Lemma elements_blacken t : elements (blacken t) = elements t.
Proof. by destruct t. Qed.

Lemma elements_fixup_z k : ∀ t, elements (fixup_z t k) = elements (plug t k).
Proof.
  induction k as [|f|fp fg k2 IH] using ctx_ind2; intros t; [done..|].
  destruct fp as [sz [] p dp sib], fg as [sp cg g dg uncle]; [done|].
  cbn [fixup_z f_color f_side f_sib f_ptr f_data].
  destruct (color_of uncle) eqn:Hu.
  - destruct sp, sz, t; try done; elements_solve.
  - rewrite IH. destruct uncle as [|[] ul y dy ur]; try done.
    destruct sp, sz; elements_solve.
Qed.

(** Colour invariants.  [bh n t]: every path from the root of [t] down
    to a sentinel goes through [n] black nodes. *)
Fixpoint bh (n : nat) t : Prop :=
  match t with
  | Leaf => n = O
  | Br Black l _ _ r =>
      match n with O => False | S n' => bh n' l ∧ bh n' r end
  | Br Red l _ _ r => bh n l ∧ bh n r
  end.

(** No red node has a red child. *)
Fixpoint no_red_red t : Prop :=
  match t with
  | Leaf => True
  | Br c l _ _ r =>
      (c = Red → color_of l = Black ∧ color_of r = Black)
      ∧ no_red_red l ∧ no_red_red r
  end.

(** The path [k] above a subtree of black height [n] is coloured
    correctly. *)
Fixpoint ctx_ok (n : nat) k : Prop :=
  match k with
  | [] => True
  | f :: k' =>
      bh n (f_sib f) ∧ no_red_red (f_sib f)
      ∧ (f_color f = Red → color_of (f_sib f) = Black ∧ ctx_color k' = Black)
      ∧ ctx_ok (match f_color f with Black => S n | Red => n end) k'
  end.

Lemma plug_ok k : ∀ n t,
  bh n t → no_red_red t → (ctx_color k = Red → color_of t = Black) →
  ctx_ok n k → ∃ m, bh m (plug t k) ∧ no_red_red (plug t k).
Proof.
  induction k as [|[sd c p d sib] k IH]; intros n t Hbh Hnrr Hc Hk; [by eauto|].
  simpl in *. destruct Hk as (Hbs & Hns & Hcs & Hk).
  eapply IH; [| | |exact Hk].
  - unfold fill. destruct sd, c; simpl; done.
  - unfold fill. destruct sd; simpl; intuition.
  - unfold fill. destruct sd, c; simpl; intuition congruence.
Qed.

Lemma bh_blacken n t : bh n t → ∃ m, bh m (blacken t).
Proof. destruct t as [|[] l p d r]; simpl; [eauto..|]. intros. by exists (S n). Qed.

Lemma no_red_red_blacken t : no_red_red t → no_red_red (blacken t).
Proof. destruct t; simpl; naive_solver. Qed.

Lemma color_of_blacken t : color_of (blacken t) = Black.
Proof. by destruct t. Qed.

Lemma bh_blacken_red n l p (d : T) r :
  bh n (Br Red l p d r) → bh (S n) (Br Black l p d r).
Proof. done. Qed.

(** The rebalancing loop restores the colour invariants, except that it
    may leave the root red. *)
Lemma fixup_z_ok k : ∀ n l z d r,
  bh n l → bh n r → no_red_red l → no_red_red r →
  color_of l = Black → color_of r = Black →
  ctx_ok n k → ctx_root_black k →
  ∃ m, bh m (fixup_z (Br Red l z d r) k)
       ∧ no_red_red (fixup_z (Br Red l z d r) k).
Proof.
  induction k as [|f|fp fg k2 IH] using ctx_ind2;
    intros n l z d r Hl Hr Hnl Hnr Hcl Hcr Hk Hrb.
  - exists n. simpl. naive_solver.
  - unfold ctx_root_black in Hrb. simpl in Hrb.
    eapply (plug_ok [f]); [..|exact Hk]; simpl; [done|naive_solver|].
    congruence.
  - destruct fp as [sz cp p dp sib], fg as [sp cg g dg uncle].
    apply ctx_root_black_cons2 in Hrb.
    cbn [fixup_z f_color f_side f_sib f_ptr f_data].
    destruct cp.
    { eapply plug_ok; [..|exact Hk]; simpl; [done|naive_solver|done]. }
    simpl in Hk.
    destruct Hk as (Hbs & Hns & Hcs & Hbu & Hnu & Hcu & Hk).
    destruct (Hcs eq_refl) as [Hsb Hcg]. subst cg. clear Hcs Hcu.
    destruct (color_of uncle) eqn:Hu.
    + destruct sp, sz; (eapply plug_ok; [..|exact Hk]); simpl;
        rewrite ?Hsb, ?Hu, ?Hcl, ?Hcr; naive_solver.
    + destruct uncle as [|[] ul y dy ur]; try done. simpl in *.
      destruct sp, sz; unfold fill; simpl;
        (eapply IH; [..|exact Hk|exact Hrb]); simpl;
        rewrite ?Hsb, ?Hcl, ?Hcr; naive_solver.
Qed.
End fixup_props.

(** ** Ordered payloads *)

(** An admissible comparator: the sign of [cmp a b] tells how [a] and
    [b] compare in a total preorder. *)
Class Comparator {T : Type} (cmp : T → T → Z) : Prop := {
  cmp_antisym : ∀ a b, cmp a b < 0 ↔ cmp b a > 0;
  cmp_trans : ∀ a b c, cmp a b ≤ 0 → cmp b c ≤ 0 → cmp a c ≤ 0
}.

Section order.
Context {T : Type} (cmp : T → T → Z) `{!Comparator cmp}.
Implicit Types (t : tree T) (k : ctx T) (f : frame T) (x d : T).

Lemma cmp_refl a : cmp a a = 0.
Proof.
  destruct (Z.lt_trichotomy (cmp a a) 0) as [H|[H|H]]; [|done|].
  - apply cmp_antisym in H as H'. lia.
  - apply Z.lt_gt, cmp_antisym in H as H'. lia.
Qed.

Lemma cmp_ge a b : 0 ≤ cmp a b ↔ cmp b a ≤ 0.
Proof.
  pose proof (cmp_antisym a b). pose proof (cmp_antisym b a). lia.
Qed.

Lemma cmp_zero_sym a b : cmp a b = 0 → cmp b a = 0.
Proof.
  pose proof (cmp_antisym a b). pose proof (cmp_antisym b a). lia.
Qed.

Lemma cmp_lt_le_trans a b c : cmp a b < 0 → cmp b c ≤ 0 → cmp a c < 0.
Proof.
  intros Hab Hbc. destruct (decide (cmp a c < 0)) as [|Hac]; [done|].
  assert (cmp c a ≤ 0) by (apply cmp_ge; lia).
  pose proof (cmp_trans b c a Hbc ltac:(done)).
  apply cmp_antisym in Hab. lia.
Qed.

Lemma cmp_le_lt_trans a b c : cmp a b ≤ 0 → cmp b c < 0 → cmp a c < 0.
Proof.
  intros Hab Hbc. destruct (decide (cmp a c < 0)) as [|Hac]; [done|].
  assert (cmp c a ≤ 0) by (apply cmp_ge; lia).
  pose proof (cmp_trans c a b ltac:(done) Hab).
  apply cmp_antisym in Hbc. lia.
Qed.

(** The payloads come in strictly increasing order. *)
Definition lt_elt (e1 e2 : nat * T) : Prop := cmp e1.2 e2.2 < 0.
Definition sorted t : Prop := StronglySorted lt_elt (elements t).

(** [agrees probe x]: the one-sided comparator [probe] (a key compared
    with a payload) orders payloads as the payload [x] does. *)
Definition agrees (probe : T → Z) x : Prop :=
  ∀ d, (probe d < 0 ↔ cmp x d < 0) ∧ (probe d > 0 ↔ cmp x d > 0).

Lemma agrees_zero probe x d : agrees probe x → (probe d = 0 ↔ cmp x d = 0).
Proof. intros H. destruct (H d). lia. Qed.

Lemma agrees_self x : agrees (cmp x) x.
Proof. done. Qed.

(** What lies before and after the hole, in traversal order. *)
Fixpoint ctx_before k : list (nat * T) :=
  match k with
  | [] => []
  | f :: k' =>
      ctx_before k' ++
      match f_side f with
      | L => []
      | R => elements (f_sib f) ++ [(f_ptr f, f_data f)]
      end
  end.

Fixpoint ctx_after k : list (nat * T) :=
  match k with
  | [] => []
  | f :: k' =>
      match f_side f with
      | L => (f_ptr f, f_data f) :: elements (f_sib f)
      | R => []
      end ++ ctx_after k'
  end.

Lemma elements_plug t k :
  elements (plug t k) = ctx_before k ++ elements t ++ ctx_after k.
Proof.
  revert t. induction k as [|[[] c p d sib] k IH]; intros t; simpl.
  - by rewrite app_nil_r.
  - rewrite IH. unfold fill. simpl. by rewrite app_nil_r, <-!app_assoc.
  - rewrite IH. unfold fill. simpl. by rewrite <-!app_assoc.
Qed.

(** The descent of [find] and [insert], read on the tree. *)
Fixpoint descend (probe : T → Z) t k : tree T * ctx T :=
  match t with
  | Leaf => (Leaf, k)
  | Br c l p d r =>
      if decide (probe d < 0) then descend probe l (mk_frame L c p d r :: k)
      else if decide (probe d > 0) then descend probe r (mk_frame R c p d l :: k)
      else (t, k)
  end.

Definition bounds k x : Prop :=
  Forall (λ e, cmp e.2 x < 0) (ctx_before k)
  ∧ Forall (λ e, cmp x e.2 < 0) (ctx_after k).

Lemma descend_plug probe t k :
  plug (descend probe t k).1 (descend probe t k).2 = plug t k.
Proof.
  revert k. induction t as [|c l IHl p d r IHr]; intros k; simpl; [done|].
  repeat case_decide; [by rewrite IHl|by rewrite IHr|done].
Qed.

Lemma descend_stop probe t k :
  match (descend probe t k).1 with
  | Leaf => True
  | Br _ _ _ d _ => probe d = 0
  end.
Proof.
  revert k. induction t as [|c l IHl p d r IHr]; intros k; simpl; [done|].
  repeat case_decide; [apply IHl|apply IHr|simpl; lia].
Qed.

Lemma descend_bounds probe x t k :
  agrees probe x → sorted (plug t k) → bounds k x →
  bounds (descend probe t k).2 x.
Proof.
  intros Hp. revert k.
  induction t as [|c l IHl p d r IHr]; intros k Hs [Hb Ha]; simpl; [done|].
  destruct (Hp d) as [Hlt Hgt].
  pose proof Hs as Hs'. unfold sorted in Hs'.
  rewrite elements_plug in Hs'. simpl in Hs'.
  apply StronglySorted_app in Hs' as (_ & _ & Hs').
  apply StronglySorted_app in Hs' as (_ & Hs' & _).
  apply StronglySorted_app in Hs' as (Hlr & _ & Hdr).
  apply StronglySorted_inv in Hdr as [_ Hdr].
  repeat case_decide.
  - apply IHl; [done|]. split; simpl; [by rewrite app_nil_r|].
    constructor; [simpl; lia|]. apply Forall_app. split; [|done].
    eapply Forall_impl; [exact Hdr|]. intros e He. unfold lt_elt in He.
    simpl in *. eapply cmp_lt_le_trans; [by apply Hlt|lia].
  - apply IHr; [done|]. split; simpl; [|done].
    apply Forall_app. split; [done|]. apply Forall_app. split.
    + apply Forall_forall. intros e He.
      assert (lt_elt e (p, d)) as Hed by (apply Hlr; set_solver).
      unfold lt_elt in Hed. simpl in *.
      eapply cmp_lt_le_trans; [exact Hed|]. apply cmp_ge. lia.
    + constructor; [|done]. simpl. apply cmp_antisym. lia.
  - done.
Qed.

Lemma descend_finds probe x t k p d :
  agrees probe x → sorted (plug t k) → bounds k x →
  (p, d) ∈ elements (plug t k) → cmp x d = 0 →
  root_ptr (descend probe t k).1 = Some p.
Proof.
  intros Hp Hs Hb Hin Hd.
  pose proof (descend_bounds probe x t k Hp Hs Hb) as [Hb1 Hb2].
  pose proof (descend_stop probe t k) as Hstop.
  rewrite <-(descend_plug probe) in Hin, Hs.
  destruct (descend probe t k) as [t' k']. simpl in *.
  unfold sorted in Hs. rewrite elements_plug in Hin, Hs.
  apply elem_of_app in Hin as [Hin|Hin].
  { rewrite Forall_forall in Hb1. apply Hb1 in Hin. simpl in Hin.
    apply cmp_antisym in Hin. lia. }
  apply elem_of_app in Hin as [Hin|Hin].
  2:{ rewrite Forall_forall in Hb2. apply Hb2 in Hin. simpl in Hin. lia. }
  destruct t' as [|c l p' d' r]; [by apply elem_of_nil in Hin|].
  apply StronglySorted_app in Hs as (_ & _ & Hs).
  apply StronglySorted_app in Hs as (_ & Hs & _).
  simpl in *. apply StronglySorted_app in Hs as (Hlr & _ & Hdr).
  apply StronglySorted_inv in Hdr as [_ Hdr].
  apply (agrees_zero _ _ _ Hp) in Hstop.
  apply elem_of_app in Hin as [Hin|Hin].
  - assert (lt_elt (p, d) (p', d')) as Hlt by (apply Hlr; set_solver).
    unfold lt_elt in Hlt. simpl in Hlt.
    assert (cmp x d' < 0); [|lia].
    eapply cmp_le_lt_trans; [|exact Hlt]. lia.
  - apply elem_of_cons in Hin as [[= -> ->]|Hin]; [done|].
    rewrite Forall_forall in Hdr. apply Hdr in Hin.
    unfold lt_elt in Hin. simpl in Hin.
    assert (cmp d' d ≤ 0) as Hle by lia.
    assert (cmp x d < 0); [|lia].
    eapply cmp_le_lt_trans; [|exact Hin]. lia.
Qed.

Lemma descend_absent probe t k :
  (∀ e, e ∈ elements (plug t k) → probe e.2 ≠ 0) →
  (descend probe t k).1 = Leaf.
Proof.
  intros Hno. pose proof (descend_stop probe t k) as Hstop.
  rewrite <-(descend_plug probe) in Hno.
  destruct (descend probe t k) as [[|c l p d r] k']; [done|]. simpl in *.
  destruct (Hno (p, d)); [|done]. rewrite elements_plug. set_solver.
Qed.

Lemma sorted_insert x c n k :
  sorted (plug Leaf k) → bounds k x → sorted (plug (Br c Leaf n x Leaf) k).
Proof.
  unfold sorted. rewrite !elements_plug. simpl. intros Hs [Hb Ha].
  apply StronglySorted_app in Hs as (Hba & Hsb & Hsa).
  apply StronglySorted_app. split_and!; [|done|].
  - intros e1 e2 H1 H2. apply elem_of_cons in H2 as [->|H2]; [|by apply Hba].
    rewrite Forall_forall in Hb. by apply Hb.
  - constructor; [done|]. eapply Forall_impl; [exact Ha|]. done.
Qed.

(** Red-black trees. *)
Definition is_red_black t : Prop :=
  color_of t = Black ∧ no_red_red t ∧ ∃ n, bh n t.

Lemma descend_ok probe : ∀ t k n,
  bh n t → no_red_red t → (ctx_color k = Red → color_of t = Black) →
  ctx_ok n k →
  ∃ n', bh n' (descend probe t k).1 ∧ no_red_red (descend probe t k).1
        ∧ (ctx_color (descend probe t k).2 = Red →
           color_of (descend probe t k).1 = Black)
        ∧ ctx_ok n' (descend probe t k).2.
Proof.
  induction t as [|c l IHl p d r IHr]; intros k n Hbh Hnrr Hc Hk; simpl.
  { exists n. done. }
  simpl in Hnrr. destruct Hnrr as (Hcc & Hnl & Hnr).
  repeat case_decide.
  - destruct c; simpl in Hbh.
    + destruct n as [|n]; [done|]. destruct Hbh as [Hl Hr].
      apply (IHl _ n); simpl; [done..|]. split_and!; done.
    + destruct Hbh as [Hl Hr]. destruct (Hcc eq_refl) as [Hcl Hcr].
      apply (IHl _ n); simpl; [done..|]. split_and!; [done..| |done].
      intros _. split; [done|]. destruct (ctx_color k); [done|].
      by specialize (Hc eq_refl).
  - destruct c; simpl in Hbh.
    + destruct n as [|n]; [done|]. destruct Hbh as [Hl Hr].
      apply (IHr _ n); simpl; [done..|]. split_and!; done.
    + destruct Hbh as [Hl Hr]. destruct (Hcc eq_refl) as [Hcl Hcr].
      apply (IHr _ n); simpl; [done..|]. split_and!; [done..| |done].
      intros _. split; [done|]. destruct (ctx_color k); [done|].
      by specialize (Hc eq_refl).
  - exists n. simpl. done.
Qed.

Lemma ctx_root_black_plug t k : color_of (plug t k) = Black → ctx_root_black k.
Proof.
  revert t. induction k as [|f k IH]; intros t Hc; [done|].
  simpl in Hc. destruct k as [|g k].
  - unfold ctx_root_black, fill in *. simpl in *. by destruct (f_side f).
  - apply IH in Hc. unfold ctx_root_black in *.
    by rewrite last_cons_cons.
Qed.

(** [insert], read on the tree: the cell [n] with payload [x] goes where
    the descent ends, unless the descent stops at a node. *)
Definition ins_tree (probe : T → Z) (n : nat) x t : tree T :=
  match t with
  | Leaf => Br Black Leaf n x Leaf
  | Br _ _ _ _ _ =>
      match descend probe t [] with
      | (Leaf, k) => blacken (fixup_z (Br Red Leaf n x Leaf) k)
      | (Br _ _ _ _ _, _) => t
      end
  end.

Lemma ins_tree_red_black probe n x t :
  is_red_black t → is_red_black (ins_tree probe n x t).
Proof.
  intros (Hc & Hnrr & m & Hbh). unfold ins_tree.
  destruct t as [|c l p d r]; [split_and!; [done..|by exists 1%nat]|].
  pose proof (descend_ok probe (Br c l p d r) [] m Hbh Hnrr) as Hok.
  pose proof (descend_plug probe (Br c l p d r) []) as Hplug.
  destruct (descend probe (Br c l p d r) []) as [[|c' l' p' d' r'] k];
    [|by split_and!; [..|exists m]].
  simpl in *. destruct Hok as (n' & -> & _ & _ & Hk); [done..|].
  destruct (fixup_z_ok k O Leaf n x Leaf) as (m' & Hbh' & Hnrr'); [done..| |].
  { apply (ctx_root_black_plug Leaf). by rewrite Hplug. }
  split_and!.
  - apply color_of_blacken.
  - by apply no_red_red_blacken.
  - by eapply bh_blacken.
Qed.

Lemma ins_tree_elements probe n x t :
  elements (ins_tree probe n x t) =
    match (descend probe t []).1 with
    | Leaf =>
        ctx_before (descend probe t []).2 ++ (n, x)
          :: ctx_after (descend probe t []).2
    | Br _ _ _ _ _ => elements t
    end.
Proof.
  unfold ins_tree. destruct t as [|c l p d r]; [done|].
  destruct (descend probe (Br c l p d r) []) as [[|c' l' p' d' r'] k]; [|done].
  simpl. by rewrite elements_blacken, elements_fixup_z, elements_plug.
Qed.

Lemma ins_tree_sorted probe n x t :
  agrees probe x → sorted t → sorted (ins_tree probe n x t).
Proof.
  intros Hp Hs. unfold sorted. rewrite ins_tree_elements.
  pose proof (descend_bounds probe x t [] Hp Hs) as Hb.
  pose proof (descend_plug probe t []) as Hplug.
  destruct (descend probe t []) as [[|c' l' p' d' r'] k]; [|done].
  simpl in *. rewrite <-Hplug in Hs.
  pose proof (sorted_insert x Red n k Hs) as Hs'.
  unfold sorted in Hs'. rewrite elements_plug in Hs'. apply Hs', Hb.
  split; constructor.
Qed.
End order.

Section walks.
Context {T : Type}.
Implicit Types (s : core T) (t : tree T) (k : ctx T) (f : frame T).

Lemma NoDup_bounded_length (l : list nat) (n : nat) :
  NoDup l → (∀ i, i ∈ l → (i < n)%nat) → (length l ≤ n)%nat.
Proof.
  intros Hnd Hb. trans (length (seq 0 n)); [|by rewrite length_seq].
  apply submseteq_length, NoDup_submseteq; [done|].
  intros i Hi. apply elem_of_seq. specialize (Hb i Hi). lia.
Qed.

Lemma Rep_valid s t i : Rep s t → i ∈ ptrs t → (i < length (mem s))%nat.
Proof. intros (Hrep & _ & _). by eapply rep_valid. Qed.

Lemma Rep_bound s t : Rep s t → (length (ptrs t) ≤ length (mem s))%nat.
Proof.
  intros HRep. apply NoDup_bounded_length; [apply HRep|].
  intros i. by eapply Rep_valid.
Qed.

Lemma length_ptrs_plug t k :
  (length (elements t) + length k ≤ length (ptrs (plug t k)))%nat.
Proof.
  rewrite ptrs_plug, length_app. unfold ptrs at 1. rewrite length_fmap.
  apply Nat.add_le_mono_l. induction k as [|f k IH]; simpl; [done|].
  rewrite length_app. lia.
Qed.

(** Reading the place that holds the hole. *)
Lemma wp_read_slot s t k (Q : ptr → core T → Prop) :
  Rep s (plug t k) → Q (root_ptr t) s → wp (read_slot (ctx_slot k)) s Q.
Proof.
  intros (Ht & Hk & Hroot & _)%Rep_plug HQ.
  destruct k as [|[[] c p d sib] k]; simpl in *.
  - apply wp_get_root. by rewrite Hroot.
  - destruct Hk as (Hp & _). by eapply wp_get_left.
  - destruct Hk as (Hp & _). by eapply wp_get_right.
Qed.


(** Forcing the root black. *)
Lemma wp_blacken_root s t :
  Rep s t → t ≠ Leaf →
  wp (get_root ≫= λ r, set_color r Black) s (λ _ s',
    Rep s' (blacken t) ∧ count s' = count s ∧ mem_frame (ptrs t) s s').
Proof.
  intros HRep Ht. destruct t as [|c l p d r]; [done|].
  change (Br c l p d r) with (plug (Br c l p d r) []) in HRep.
  pose proof HRep as (_ & _ & Hnd0).
  Rep_open HRep. ptr_sat. wp_steps.
  lazymatch goal with H : root s = _ |- _ => rewrite H end.
  change (ctx_top (Some p) []) with (Some p). wp_steps.
  split_and!; [|done|mem_frame_solve].
  change (blacken (Br c l p d r)) with (plug (Br Black l p d r) []).
  Rep_close Hnd0.
Qed.

(** [fixup_insert]: the loop, then the root forced black. *)
Lemma wp_fixup_insert s t k z :
  Rep s (plug t k) → root_ptr t = Some z → ctx_root_black k →
  wp (rb_tree.fixup_insert (Some z)) s (λ _ s',
    Rep s' (blacken (fixup_z t k)) ∧ count s' = count s
    ∧ mem_frame (ptrs (plug t k)) s s').
Proof.
  intros HRep Hz Hrb. unfold rb_tree.fixup_insert. wp_steps.
  eapply wp_mono.
  { eapply (wp_fixup_loop k _ s t z); [done..|].
    pose proof (Rep_bound _ _ HRep). pose proof (length_ptrs_plug t k).
    unfold fuel_of. lia. }
  intros _ s1 (HR1 & Hc1 & Hf1). cbv beta.
  eapply wp_mono.
  { apply (wp_blacken_root s1 (fixup_z t k)); [done|].
    intros Heq. pose proof (elements_fixup_z k t) as He.
    rewrite Heq, elements_plug in He. destruct t; [done|]. simpl in He.
    symmetry in He. apply app_eq_nil in He as [_ He].
    apply app_eq_nil in He as [He _]. by apply app_eq_nil in He as [_ He]. }
  intros _ s2 (HR2 & Hc2 & Hf2). split_and!; [done|congruence|].
  eapply mem_frame_trans; [exact Hf1|exact Hf2|].
  apply ptrs_elements_congr, elements_fixup_z.
Qed.
End walks.

Ltac wp_slot_steps :=
  repeat first
    [ wp_step
    | eapply wp_read_slot; [eassumption|]; cbv beta; cbn [root_ptr] ].

Section walks2.
Context {T : Type}.
Implicit Types (s : core T) (t : tree T) (k : ctx T) (f : frame T).

Lemma wp_container_insert_loop {Key} (key : Key) (comp : Key → T → Z) s :
  ∀ t k fuel,
  Rep s (plug t k) → (length (elements t) < fuel)%nat →
  wp (rb_tree.container_insert_loop fuel key comp (ctx_slot k) (ctx_parent k)
        (root_ptr t) false) s
     (λ r s', s' = s
        ∧ r = (ctx_slot (descend (comp key) t k).2,
               ctx_parent (descend (comp key) t k).2,
               root_ptr (descend (comp key) t k).1)).
Proof.
  induction t as [|c l IHl p d r IHr]; intros k fuel HRep Hfuel;
    (destruct fuel as [|fuel]; [simpl in Hfuel; lia|]);
    cbn [rb_tree.container_insert_loop descend root_ptr].
  { rewrite bool_decide_eq_false_2 by bd_solve. cbn [andb]. wp_steps. done. }
  pose proof HRep as HRep0. Rep_open HRep.
  rewrite bool_decide_eq_true_2 by done. cbn [andb negb].
  wp_steps. simpl in Hfuel. rewrite length_app in Hfuel. simpl in Hfuel.
  repeat case_decide.
  - wp_steps. apply (IHl (mk_frame L c p d r :: k)); [done|lia].
  - wp_steps. apply (IHr (mk_frame R c p d l :: k)); [done|lia].
  - apply wp_bind. eapply wp_read_slot; [exact HRep0|].
    destruct fuel as [|fuel]; [lia|].
    cbn [rb_tree.container_insert_loop root_ptr negb].
    rewrite andb_false_r. wp_steps. done.
Qed.

Lemma wp_container_find_loop {Key} (key : Key) (comp : Key → T → Z) s :
  ∀ t k fuel,
  Rep s (plug t k) → (length (elements t) < fuel)%nat →
  wp (rb_tree.container_find_loop fuel key comp (root_ptr t)) s
     (λ r s', s' = s ∧ r = root_ptr (descend (comp key) t k).1).
Proof.
  induction t as [|c l IHl p d r IHr]; intros k fuel HRep Hfuel;
    (destruct fuel as [|fuel]; [simpl in Hfuel; lia|]);
    cbn [rb_tree.container_find_loop descend root_ptr].
  { wp_steps. done. }
  pose proof HRep as HRep0. Rep_open HRep.
  wp_steps. simpl in Hfuel. rewrite length_app in Hfuel. simpl in Hfuel.
  repeat case_decide.
  - wp_steps. apply (IHl (mk_frame L c p d r :: k)); [done|lia].
  - wp_steps. apply (IHr (mk_frame R c p d l :: k)); [done|lia].
  - wp_steps. done.
Qed.

Lemma wp_chain_find_loop {Key} (key : Key) (comp : Key → T → Z) s :
  ∀ t k fuel,
  Rep s (plug t k) → (length (elements t) < fuel)%nat →
  wp (rb_tree.chain_find_loop fuel key comp (root_ptr t) false) s
     (λ r s', s' = s ∧ r = root_ptr (descend (comp key) t k).1).
Proof.
  induction t as [|c l IHl p d r IHr]; intros k fuel HRep Hfuel;
    (destruct fuel as [|fuel]; [simpl in Hfuel; lia|]);
    cbn [rb_tree.chain_find_loop descend root_ptr].
  { rewrite bool_decide_eq_false_2 by bd_solve. cbn [andb]. wp_steps. done. }
  pose proof HRep as HRep0. Rep_open HRep.
  rewrite bool_decide_eq_true_2 by done. cbn [andb negb].
  wp_steps. simpl in Hfuel. rewrite length_app in Hfuel. simpl in Hfuel.
  repeat case_decide.
  - wp_steps. apply (IHl (mk_frame L c p d r :: k)); [done|lia].
  - wp_steps. apply (IHr (mk_frame R c p d l :: k)); [done|lia].
  - destruct fuel as [|fuel]; [lia|].
    cbn [rb_tree.chain_find_loop negb]. rewrite andb_false_r. wp_steps. done.
Qed.

Lemma wp_chain_insert_loop (z : nat) (nz : node T) (comp : T → T → Z) s :
  mem s !! z = Some nz →
  ∀ t k fuel,
  Rep s (plug t k) → (length (elements t) < fuel)%nat →
  wp (rb_tree.chain_insert_loop fuel (Some z) comp (ctx_slot k) (ctx_parent k)
        false) s
     (λ r s', s' = s
        ∧ r = (ctx_slot (descend (comp (data nz)) t k).2,
               ctx_parent (descend (comp (data nz)) t k).2)).
Proof.
  intros Hz.
  induction t as [|c l IHl p d r IHr]; intros k fuel HRep Hfuel;
    (destruct fuel as [|fuel]; [simpl in Hfuel; lia|]);
    cbn [rb_tree.chain_insert_loop descend negb andb].
  { wp_slot_steps. done. }
  pose proof HRep as HRep0. Rep_open HRep.
  wp_slot_steps. simpl in Hfuel. rewrite length_app in Hfuel. simpl in Hfuel.
  repeat case_decide.
  - wp_slot_steps. apply (IHl (mk_frame L c p d r :: k)); [done|lia].
  - wp_slot_steps. apply (IHr (mk_frame R c p d l :: k)); [done|lia].
  - destruct fuel as [|fuel]; [lia|].
    cbn [rb_tree.chain_insert_loop negb andb]. wp_steps. done.
Qed.

End walks2.

Section linking.
Context {T : Type}.
Implicit Types (s : core T) (t : tree T) (k : ctx T) (f : frame T).

Lemma rep_app m m' up t : rep m up t → rep (m ++ m') up t.
Proof.
  revert up. induction t as [|c l IHl p d r IHr]; intros up; [done|].
  simpl. intros (Hp & Hl & Hr). split_and!; [|by apply IHl|by apply IHr].
  by apply lookup_app_l_Some.
Qed.

Lemma Rep_alloc s t c :
  Rep s t → Rep (mk_core (mem s ++ [c]) (root s) (count s)) t.
Proof. intros (Hrep & Hroot & Hnd). split_and!; [by apply rep_app|done..]. Qed.

Lemma Rep_fresh s t : Rep s t → length (mem s) ∉ ptrs t.
Proof. intros HRep Hin. apply (Rep_valid _ _ _ HRep) in Hin. lia. Qed.

Lemma lookup_snoc (m : list (node T)) c : (m ++ [c]) !! length m = Some c.
Proof. by rewrite list_lookup_middle. Qed.

Lemma insert_snoc (m : list (node T)) c c' :
  <[length m:=c']> (m ++ [c]) = m ++ [c'].
Proof. rewrite insert_app_r_alt by done. by rewrite Nat.sub_diag. Qed.

Lemma wp_make_node {U} (raw : node T) (ctor : U → T) (u : U) s :
  wp (rb_tree.make_node raw ctor u) s (λ r s',
    r = Some (length (mem s))
    ∧ s' = mk_core (mem s ++ [mk_node None None None (color raw) (ctor u)])
             (root s) (count s)).
Proof.
  eexists _, _. split; [|done].
  unfold rb_tree.make_node, rb_tree.allocate, rb_tree.operator_new,
    rb_tree.construct_data, set_left, set_right, set_parent, deref, store,
    mbind, M_bind, mret, M_ret.
  cbn [mem root count].
  repeat (rewrite ?lookup_snoc, ?insert_snoc;
          cbn [mem root count arm_left arm_right arm_parent color data]).
  done.
Qed.

(** Hanging a detached node where the descent ended. *)
Lemma wp_link {A} (rest : M T A) (Q : A → core T → Prop) s k n nn :
  Rep s (plug Leaf k) → mem s !! n = Some nn →
  arm_left nn = None → arm_right nn = None →
  (k = [] → arm_parent nn = None) →
  n ∉ ptrs (plug Leaf k) →
  (∀ s', Rep s' (plug (Br Red Leaf n (data nn) Leaf) k) → count s' = count s →
         mem_frame (n :: ptrs (plug Leaf k)) s s' → wp rest s' Q) →
  wp (write_slot (ctx_slot k) (Some n) ≫= λ _,
      set_parent (Some n) (ctx_parent k) ≫= λ _,
      set_color (Some n) Red ≫= λ _, rest) s Q.
Proof.
  intros HRep Hn Hl Hr Hp Hfresh Hrest.
  assert (NoDup (ptrs (plug (Br Red Leaf n (data nn) Leaf) k))) as Hnd0.
  { destruct HRep as (_ & _ & Hnd). revert Hnd Hfresh.
    rewrite !ptrs_plug, !ptrs_Br. unfold ptrs. simpl. intros.
    by apply NoDup_cons_2. }
  destruct nn as [nl nr np nc nd]. simpl in *. subst nl nr.
  set_unfold in Hfresh.
  destruct k as [|[sd c p dp sib] k']; Rep_open HRep; ptr_sat.
  - rewrite Hp in * by done. cbn [ctx_slot]. wp_steps.
    apply Hrest; [|done|mem_frame_solve].
    unfold Rep. split_and!; [rep_finish|done|done].
  - destruct sd; cbn [ctx_slot f_side f_ptr]; wp_steps;
      (apply Hrest; [|done|mem_frame_solve]);
      (unfold Rep; split_and!; [rep_finish| |done]);
      cbn [mem root count]; rewrite root_ptr_plug; cbn [root_ptr];
      rewrite ?ctx_top_cons in *; cbn [f_ptr] in *; done.
Qed.
End linking.

Section insert_spec.
Context {T : Type}.
Implicit Types (s : core T) (t : tree T) (k : ctx T) (f : frame T).

Lemma descend_nil_Leaf (probe : T → Z) t :
  t ≠ Leaf → (descend probe t []).1 = Leaf → (descend probe t []).2 ≠ [].
Proof.
  intros Ht Hd Hk. pose proof (descend_plug probe t []) as Hp.
  rewrite Hd, Hk in Hp. simpl in Hp. done.
Qed.

(** [container<T>::insert] on a well-formed tree. *)
Lemma wp_container_insert {Key} raw (ctor : Key → T) key comp s t :
  Rep s t → color_of t = Black →
  ((descend (comp key) t []).1 = Leaf → count s < INT_MAX) →
  wp (rb_tree.container_insert raw ctor key comp) s (λ r s',
    match (descend (comp key) t []).1 with
    | Leaf =>
        r = Some (length (mem s))
        ∧ Rep s' (ins_tree (comp key) (length (mem s)) (ctor key) t)
        ∧ count s' = count s + 1
        ∧ length (mem s') = S (length (mem s))
    | Br _ _ p _ _ => r = Some p ∧ s' = s
    end).
Proof.
  intros HRep Hblack Hbound. unfold rb_tree.container_insert.
  pose proof HRep as (Hrep & Hroot & Hnd).
  wp_steps. rewrite Hroot.
  set (n := length (mem s)).
  set (cell := mk_node None None None (color raw) (ctor key)).
  pose proof (lookup_snoc (mem s) cell) as Hcell. fold n in Hcell.
  destruct t as [|c l p d r]; cbn [root_ptr].
  - (* first insertion *)
    cbn [descend fst] in *. specialize (Hbound eq_refl). wp_steps. eapply wp_mono; [apply wp_make_node|].
    intros ? s1 [-> ->]. fold cell n. wp_steps.
    split_and!; [done| |done|].
    + unfold Rep, ins_tree. simpl. split_and!; [|done..|].
      * lookup.
      * unfold ptrs. simpl. apply NoDup_singleton.
    + simpl. rewrite length_insert, length_app. simpl. lia.
  - wp_steps. rewrite Hroot. cbn [root_ptr].
    eapply wp_mono.
    { apply (wp_container_insert_loop key comp s (Br c l p d r) []); [done|].
      pose proof (Rep_bound _ _ HRep) as Hb. unfold ptrs in Hb.
      rewrite length_fmap in Hb. unfold fuel_of. lia. }
    intros ? ? [-> ->]. cbv beta.
    pose proof (descend_plug (comp key) (Br c l p d r) []) as Hplug.
    pose proof (descend_nil_Leaf (comp key) (Br c l p d r)) as Hnil.
    unfold ins_tree.
    destruct (descend (comp key) (Br c l p d r) []) as [[|c' l' p' d' r'] k].
    2:{ cbn [fst snd root_ptr]. wp_steps. done. }
    cbn [fst snd root_ptr] in *. specialize (Hbound eq_refl). wp_steps.
    eapply wp_mono; [apply wp_make_node|].
    intros ? s1 [-> ->]. fold cell n. cbv beta.
    change (plug (Br c l p d r) []) with (Br c l p d r) in Hplug.
    rewrite <-Hplug in HRep.
    pose proof (Rep_fresh _ _ HRep) as Hfresh. fold n in Hfresh.
    eapply (wp_link _ _ _ k n cell); [by apply Rep_alloc|done..|].
    intros s2 HR2 Hc2 Hf2. wp_steps.
    eapply wp_mono.
    { eapply (wp_fixup_insert _ (Br Red Leaf n (ctor key) Leaf) k n);
        [exact HR2|done|].
      apply (ctx_root_black_plug Leaf). by rewrite Hplug. }
    intros _ s3 (HR3 & Hc3 & Hf3). wp_steps.
    split_and!; [done|done| |].
    + rewrite Hc3. simpl. rewrite Hc2. done.
    + destruct Hf3 as [-> _]. simpl. destruct Hf2 as [-> _]. simpl.
      rewrite length_app. simpl. lia.
Qed.

(** [container<T>::find] and [chain<Node>::find] on a well-formed tree. *)
Lemma wp_container_find {Key} (key : Key) comp s t :
  Rep s t →
  wp (rb_tree.container_find key comp) s (λ r s',
    s' = s ∧ r = root_ptr (descend (comp key) t []).1).
Proof.
  intros HRep. unfold rb_tree.container_find. wp_steps.
  destruct HRep as (Hrep & Hroot & Hnd). rewrite Hroot.
  apply (wp_container_find_loop key comp s t []); [done|].
  pose proof (Rep_bound s t ltac:(done)) as Hb. unfold ptrs in Hb.
  rewrite length_fmap in Hb. unfold fuel_of. lia.
Qed.

Lemma wp_chain_find {Key} (key : Key) comp s t :
  Rep s t →
  wp (rb_tree.chain_find key comp) s (λ r s',
    s' = s ∧ r = root_ptr (descend (comp key) t []).1).
Proof.
  intros HRep. unfold rb_tree.chain_find. wp_steps.
  destruct HRep as (Hrep & Hroot & Hnd). rewrite Hroot.
  apply (wp_chain_find_loop key comp s t []); [done|].
  pose proof (Rep_bound s t ltac:(done)) as Hb. unfold ptrs in Hb.
  rewrite length_fmap in Hb. unfold fuel_of. lia.
Qed.

(** [chain<Node>::insert] on a well-formed tree. *)
Lemma wp_chain_insert z nz comp s t :
  Rep s t → color_of t = Black → mem s !! z = Some nz →
  count s < INT_MAX →
  ((descend (comp (data nz)) t []).1 = Leaf →
   z ∉ ptrs t ∧ arm_left nz = None ∧ arm_right nz = None
   ∧ (t = Leaf → arm_parent nz = None)) →
  wp (rb_tree.chain_insert (Some z) comp) s (λ r s',
    r = Some z ∧ count s' = count s + 1
    ∧ match (descend (comp (data nz)) t []).1 with
      | Leaf =>
          Rep s' (ins_tree (comp (data nz)) z (data nz) t)
          ∧ mem_frame (z :: ptrs t) s s'
      | Br _ _ _ _ _ => mem s' = mem s ∧ root s' = root s
      end).
Proof.
  intros HRep Hblack Hz Hbound Hdet. unfold rb_tree.chain_insert.
  pose proof HRep as (Hrep & Hroot & Hnd).
  wp_steps.
  eapply wp_mono.
  { apply (wp_chain_insert_loop z nz comp s Hz t []); [done|].
    pose proof (Rep_bound _ _ HRep) as Hb. unfold ptrs in Hb.
    rewrite length_fmap in Hb. unfold fuel_of. lia. }
  intros ? ? [-> ->]. cbv beta. wp_steps. rewrite Hroot.
  destruct t as [|c l p d r]; cbn [root_ptr].
  - (* first insertion *)
    cbn [descend fst snd] in *.
    destruct Hdet as (_ & Hl & Hr & Hp); [done|]. specialize (Hp eq_refl).
    destruct nz as [nl nr np nc nd]. simpl in *. subst.
    wp_steps. split_and!; [done..| |mem_frame_solve].
    unfold Rep, ins_tree. simpl. split_and!; [lookup|done..|].
    unfold ptrs. simpl. apply NoDup_singleton.
  - pose proof (descend_plug (comp (data nz)) (Br c l p d r) []) as Hplug.
    change (plug (Br c l p d r) []) with (Br c l p d r) in Hplug.
    unfold ins_tree.
    destruct (descend (comp (data nz)) (Br c l p d r) [])
      as [[|c' l' p' d' r'] k]; cbn [fst snd] in *; rewrite <-Hplug in HRep.
    + destruct Hdet as (Hfresh & Hl & Hr & _); [done|].
      rewrite <-Hplug in Hfresh.
      wp_slot_steps.
      eapply (wp_link _ _ _ k z nz); [done..|by intros ->|done|].
      intros s2 HR2 Hc2 Hf2.
      eapply wp_mono.
      { eapply (wp_fixup_insert _ (Br Red Leaf z (data nz) Leaf) k z);
          [exact HR2|done|].
        apply (ctx_root_black_plug Leaf). by rewrite Hplug. }
      intros _ s3 (HR3 & Hc3 & Hf3). wp_steps.
      split_and!; [done| |done|].
      * rewrite Hc3, Hc2. done.
      * rewrite <-Hplug.
        eapply mem_frame_trans; [exact Hf2|exact Hf3|].
        intros i. rewrite !ptrs_plug, ptrs_Br. set_solver.
    + wp_slot_steps. done.
Qed.
End insert_spec.

Section container_theory.
Context {Key T : Type} (cmp : T → T → Z) `{!Comparator cmp}.
Context (ctor : Key → T) (comp : Key → T → Z).
Context (comp_ctor : ∀ key, agrees cmp (comp key) (ctor key)).
Context (raw : node T).
Implicit Types (s : core T) (t : tree T) (key : Key).

(** A well-formed container: its cells spell out a red-black search
    tree, and [count] is the number of nodes. *)
Definition container_wf s t : Prop :=
  Rep s t ∧ is_red_black t ∧ sorted cmp t
  ∧ count s = Z.of_nat (length (elements t)).

Lemma container_wf_init : container_wf (core_init []) Leaf.
Proof.
  split_and!; [split_and!; [done..|constructor]| |constructor|done].
  split_and!; [done..|by exists O].
Qed.

(** Whether a payload equal to [key] is stored. *)
Definition stored key t : Prop := ∃ e, e ∈ elements t ∧ comp key e.2 = 0.

Lemma descend_stored key t :
  sorted cmp t →
  match (descend (comp key) t []).1 with
  | Leaf => ¬ stored key t
  | Br _ _ p d _ => (p, d) ∈ elements t ∧ comp key d = 0
  end.
Proof.
  intros Hs.
  pose proof (descend_stop (comp key) t []) as Hstop.
  pose proof (descend_plug (comp key) t []) as Hplug.
  destruct (descend (comp key) t []) as [[|c l p d r] k] eqn:Hd; simpl in *.
  - intros ((p & d) & Hin & Hz).
    assert (root_ptr (descend (comp key) t []).1 = Some p) as Hf.
    { apply (descend_finds cmp (comp key) (ctor key) t [] p d);
        [done|done|split; constructor|done|].
      by apply (agrees_zero cmp _ _ _ (comp_ctor key)). }
    by rewrite Hd in Hf.
  - split; [|done]. rewrite <-Hplug, elements_plug. simpl. set_solver.
Qed.

Lemma ins_tree_length key n t :
  sorted cmp t → ¬ stored key t →
  elements (ins_tree (comp key) n (ctor key) t) ≡ₚ (n, ctor key) :: elements t.
Proof.
  intros Hs Hno. rewrite ins_tree_elements.
  pose proof (descend_stored key t Hs) as Hd.
  pose proof (descend_plug (comp key) t []) as Hplug.
  destruct (descend (comp key) t []) as [[|c l p d r] k]; simpl in *.
  - rewrite <-Hplug, elements_plug. simpl.
    by rewrite Permutation_middle.
  - destruct Hno. by exists (p, d).
Qed.

(** [insert] returns, keeps the container well formed, and says which
    node holds the payload. *)
Lemma container_insert_wf key s t :
  container_wf s t → (¬ stored key t → count s < INT_MAX) →
  ∃ p s' t',
    rb_tree.container_insert raw ctor key comp s = Some (Some p, s')
    ∧ container_wf s' t'
    ∧ (∃ d, (p, d) ∈ elements t' ∧ comp key d = 0)
    ∧ ((stored key t ∧ s' = s ∧ t' = t)
       ∨ (¬ stored key t ∧ p = length (mem s) ∧ count s' = count s + 1
          ∧ elements t' ≡ₚ (p, ctor key) :: elements t)).
Proof.
  intros (HRep & Hrb & Hs & Hc) Hbound.
  pose proof (descend_stored key t Hs) as Hd.
  destruct (wp_container_insert raw ctor key comp s t HRep (proj1 Hrb))
    as (res & s' & Hrun & Hpost).
  { intros HL. rewrite HL in Hd. by apply Hbound. }
  pose proof (ins_tree_length key (length (mem s)) t Hs) as Hlen.
  destruct ((descend (comp key) t []).1) as [|c l p d r].
  - destruct Hpost as (-> & HRep' & Hc' & Hl').
    specialize (Hlen Hd).
    exists (length (mem s)), s', (ins_tree (comp key) (length (mem s)) (ctor key) t).
    split_and!; [done| | |].
    + split_and!; [done|by apply ins_tree_red_black| |].
      * by apply ins_tree_sorted.
      * rewrite Hc', Hc, Hlen. simpl. lia.
    + exists (ctor key). split; [rewrite Hlen; set_solver|].
      apply (agrees_zero cmp _ _ _ (comp_ctor key)), cmp_refl. done.
    + by right.
  - destruct Hpost as [-> ->]. destruct Hd as [Hin Hz].
    exists p, s, t. split_and!; [done|by split_and!|by exists d|].
    left. split; [|done]. by exists (p, d).
Qed.

Lemma cmp_zero_trans a b c : cmp a b = 0 → cmp b c = 0 → cmp a c = 0.
Proof.
  intros Hab Hbc.
  pose proof (cmp_zero_sym cmp _ _ Hab). pose proof (cmp_zero_sym cmp _ _ Hbc).
  assert (cmp a c ≤ 0) by (apply (cmp_trans a b c); lia).
  assert (cmp c a ≤ 0) by (apply (cmp_trans c b a); lia).
  pose proof (cmp_ge cmp a c). lia.
Qed.

(** Keys that compare equal find the same stored payload. *)
Lemma stored_equiv k1 k2 d :
  comp k1 (ctor k2) = 0 → comp k1 d = 0 → comp k2 d = 0.
Proof.
  intros H12 H1.
  apply (agrees_zero cmp _ _ _ (comp_ctor k1)) in H12, H1.
  apply (agrees_zero cmp _ _ _ (comp_ctor k2)).
  eapply cmp_zero_trans; [|exact H1]. by apply cmp_zero_sym.
Qed.

Lemma stored_unique key t p d p' d' :
  sorted cmp t → (p, d) ∈ elements t → (p', d') ∈ elements t →
  comp key d = 0 → comp key d' = 0 → p = p'.
Proof.
  intros Hs Hin Hin' Hd Hd'.
  assert (∀ q dq, (q, dq) ∈ elements t → comp key dq = 0 →
            root_ptr (descend (comp key) t []).1 = Some q) as Hf.
  { intros q dq Hq Hz.
    apply (descend_finds cmp (comp key) (ctor key) t [] q dq);
      [done|done|split; constructor|done|].
    by apply (agrees_zero cmp _ _ _ (comp_ctor key)). }
  pose proof (Hf p d Hin Hd) as H1. pose proof (Hf p' d' Hin' Hd') as H2.
  congruence.
Qed.

(** A run of insertions. *)
Fixpoint container_inserts (keys : list Key) s : option (core T) :=
  match keys with
  | [] => Some s
  | key :: keys =>
      match rb_tree.container_insert raw ctor key comp s with
      | Some (_, s') => container_inserts keys s'
      | None => None
      end
  end.

Lemma container_inserts_wf keys : ∀ s t,
  container_wf s t → count s + Z.of_nat (length keys) ≤ INT_MAX →
  ∃ s' t', container_inserts keys s = Some s' ∧ container_wf s' t'
           ∧ count s' ≤ count s + Z.of_nat (length keys).
Proof.
  induction keys as [|key keys IH]; intros s t Hwf Hb.
  { exists s, t. simpl. split_and!; [done..|lia]. }
  cbn [length] in Hb.
  destruct (container_insert_wf key s t Hwf)
    as (p & s1 & t1 & Hrun & Hwf1 & _ & Hcase); [lia|].
  assert (count s1 ≤ count s + 1) as Hc1.
  { destruct Hcase as [(_ & -> & _)|(_ & _ & -> & _)]; lia. }
  destruct (IH s1 t1 Hwf1) as (s' & t' & Hruns & Hwf' & Hc'); [lia|].
  exists s', t'. simpl. rewrite Hrun. split_and!; [done..|]. cbn [length]. lia.
Qed.

Definition pairwise_distinct (keys : list Key) : Prop :=
  ∀ i j ki kj, keys !! i = Some ki → keys !! j = Some kj → i ≠ j →
               comp ki (ctor kj) ≠ 0.

Lemma container_inserts_distinct keys : ∀ s t,
  container_wf s t → count s + Z.of_nat (length keys) ≤ INT_MAX →
  pairwise_distinct keys →
  (∀ key, key ∈ keys → ¬ stored key t) →
  ∃ s' t', container_inserts keys s = Some s' ∧ container_wf s' t'
           ∧ count s' = count s + Z.of_nat (length keys).
Proof.
  induction keys as [|key keys IH]; intros s t Hwf Hb Hdist Hno.
  { exists s, t. simpl. split_and!; [done..|lia]. }
  cbn [length] in Hb.
  destruct (container_insert_wf key s t Hwf)
    as (p & s1 & t1 & Hrun & Hwf1 & _ & [[Hst _]|(_ & _ & Hc1 & Hel)]);
    [lia| |].
  { destruct (Hno key); [set_solver|done]. }
  destruct (IH s1 t1 Hwf1) as (s' & t' & Hruns & Hwf' & Hc'); [lia|..].
  - intros i j ki kj Hi Hj Hij. by apply (Hdist (S i) (S j)); [..|lia].
  - intros key' Hin ((q & d) & He & Hz). rewrite Hel in He.
    apply elem_of_cons in He as [[= -> ->]|He].
    + apply list_elem_of_lookup in Hin as [j Hj].
      by apply (Hdist (S j) O key' key).
    + apply (Hno key'); [set_solver|]. by exists (q, d).
  - exists s', t'. simpl. rewrite Hrun. split_and!; [done..|].
    rewrite Hc', Hc1. lia.
Qed.
End container_theory.

Section chain_theory.
Context {T : Type} (comp : T → T → Z) `{!Comparator comp}.
Implicit Types (s : core T) (t : tree T) (z : nat).

(** The links as [link()] leaves them: [arm()] zeroes the three arms. *)
Definition detached (n : node T) : Prop :=
  arm_left n = None ∧ arm_right n = None ∧ arm_parent n = None.

(** A well-formed chain: the linked nodes spell out a red-black search
    tree and every other node of the arena is still detached. *)
Definition chain_wf s t : Prop :=
  Rep s t ∧ is_red_black t ∧ sorted comp t
  ∧ ∀ i n, mem s !! i = Some n → i ∉ ptrs t → detached n.

Lemma chain_wf_init m : Forall detached m → chain_wf (core_init m) Leaf.
Proof.
  intros Hm. split_and!; [split_and!; [done..|constructor]| |constructor|].
  - split_and!; [done..|by exists O].
  - intros i n Hi _. rewrite Forall_forall in Hm. apply Hm.
    by eapply list_elem_of_lookup_2.
Qed.

Lemma rep_data m up t i d :
  rep m up t → (i, d) ∈ elements t → ∃ n, m !! i = Some n ∧ data n = d.
Proof.
  revert up. induction t as [|c l IHl p dp r IHr]; intros up; simpl.
  - intros _ Hin. by apply elem_of_nil in Hin.
  - intros (Hp & Hl & Hr) Hin.
    apply elem_of_app in Hin as [Hin|Hin]; [by eapply IHl|].
    apply elem_of_cons in Hin as [[= -> ->]|Hin]; [by eexists|by eapply IHr].
Qed.

Lemma elem_of_ptrs t i : i ∈ ptrs t ↔ ∃ d, (i, d) ∈ elements t.
Proof.
  unfold ptrs. rewrite list_elem_of_fmap. split.
  - intros ([j d] & -> & Hin). by exists d.
  - intros (d & Hin). by exists (i, d).
Qed.

(** Whether a node equal to the payload [x] is linked. *)
Definition linked (x : T) t : Prop := ∃ e, e ∈ elements t ∧ comp x e.2 = 0.

Lemma descend_linked x t :
  sorted comp t →
  match (descend (comp x) t []).1 with
  | Leaf => ¬ linked x t
  | Br _ _ p d _ => (p, d) ∈ elements t ∧ comp x d = 0
  end.
Proof.
  apply (descend_stored comp id comp (λ key, agrees_self comp key) x).
Qed.

(** [insert] returns its argument and keeps the chain well formed; the
    node is linked in unless an equal node already is. *)
Lemma chain_insert_wf z nz s t :
  chain_wf s t → mem s !! z = Some nz → count s < INT_MAX →
  ∃ s' t',
    rb_tree.chain_insert (Some z) comp s = Some (Some z, s')
    ∧ chain_wf s' t' ∧ count s' = count s + 1
    ∧ length (mem s') = length (mem s)
    ∧ ((linked (data nz) t ∧ mem s' = mem s ∧ root s' = root s ∧ t' = t)
       ∨ (¬ linked (data nz) t
          ∧ elements t' ≡ₚ (z, data nz) :: elements t
          ∧ ∀ i, i ≠ z → i ∉ ptrs t → mem s' !! i = mem s !! i)).
Proof.
  intros (HRep & Hrb & Hs & Hdet) Hz Hbound.
  pose proof (descend_linked (data nz) t Hs) as Hd.
  destruct (wp_chain_insert z nz comp s t HRep (proj1 Hrb) Hz Hbound)
    as (res & s' & Hrun & -> & Hc & Hpost).
  { intros HL. rewrite HL in Hd.
    assert (z ∉ ptrs t) as Hfresh.
    { intros (d & Hin)%elem_of_ptrs. apply Hd. exists (z, d). split; [done|].
      destruct (rep_data _ _ _ _ _ (proj1 HRep) Hin) as (n & Hn & <-).
      simpl. rewrite Hz in Hn. injection Hn as <-. apply cmp_refl. done. }
    destruct (Hdet z nz Hz Hfresh) as (? & ? & ?). done. }
  pose proof (ins_tree_length comp id comp (λ key, agrees_self comp key)
                (data nz) z t Hs) as Hlen.
  destruct ((descend (comp (data nz)) t []).1) as [|c l p d r].
  - destruct Hpost as [HRep' [Hlen' Hframe]]. specialize (Hlen Hd).
    exists s', (ins_tree (comp (data nz)) z (data nz) t).
    split_and!; [done| |done|done|].
    + split_and!; [done|by apply ins_tree_red_black| |].
      * apply (ins_tree_sorted comp); [apply agrees_self|done].
      * intros i n Hi Hni. apply (Hdet i).
        -- rewrite <-Hframe; [done|].
           intros [->|Hin]%elem_of_cons; apply Hni, elem_of_ptrs.
           ++ exists (data nz). rewrite Hlen. set_solver.
           ++ apply elem_of_ptrs in Hin as [d Hin].
              exists d. rewrite Hlen. set_solver.
        -- intros [d Hin]%elem_of_ptrs. apply Hni, elem_of_ptrs.
           exists d. rewrite Hlen. set_solver.
    + right. split_and!; [done..|]. intros i Hiz Hin. apply Hframe.
      set_solver.
  - destruct Hpost as [Hm Hr]. exists s', t.
    assert (Rep s' t) as HRep'.
    { destruct HRep as (? & ? & ?). split_and!; [by rewrite Hm|congruence|done]. }
    split_and!; [done| |done|by rewrite Hm|].
    + split_and!; [done..|]. intros i n. rewrite Hm. apply Hdet.
    + left. split_and!; [|done..]. destruct Hd. by exists (p, d).
Qed.

(** A run of insertions of nodes of the arena. *)
Fixpoint chain_inserts (zs : list nat) s : option (core T) :=
  match zs with
  | [] => Some s
  | z :: zs =>
      match rb_tree.chain_insert (Some z) comp s with
      | Some (_, s') => chain_inserts zs s'
      | None => None
      end
  end.

Lemma chain_inserts_wf zs : ∀ s t,
  chain_wf s t → Forall (λ z, (z < length (mem s))%nat) zs →
  count s + Z.of_nat (length zs) ≤ INT_MAX →
  ∃ s' t', chain_inserts zs s = Some s' ∧ chain_wf s' t'
           ∧ count s' = count s + Z.of_nat (length zs)
           ∧ length (mem s') = length (mem s).
Proof.
  induction zs as [|z zs IH]; intros s t Hwf Hzs Hb.
  { exists s, t. simpl. split_and!; [done..|lia|done]. }
  apply Forall_cons in Hzs as [Hz Hzs]. cbn [length] in Hb.
  apply lookup_lt_is_Some in Hz as [nz Hz].
  destruct (chain_insert_wf z nz s t Hwf Hz)
    as (s1 & t1 & Hrun & Hwf1 & Hc1 & Hl1 & _); [lia|].
  destruct (IH s1 t1 Hwf1) as (s' & t' & Hruns & Hwf' & Hc' & Hl').
  { by rewrite Hl1. }
  { lia. }
  exists s', t'. simpl. rewrite Hrun.
  split_and!; [done..| |congruence]. rewrite Hc', Hc1. lia.
Qed.
End chain_theory.

Section chain_runs.
Context {T : Type} (comp : T → T → Z) `{!Comparator comp}.
Implicit Types (s : core T) (t : tree T) (z : nat).

(** The payload that the arena holds at a cell. *)
Definition data_at s z : option T := data <$> mem s !! z.

(** [insert] never writes a payload. *)
Lemma chain_insert_data z nz s t s' t' :
  chain_wf comp s t → mem s !! z = Some nz →
  rb_tree.chain_insert (Some z) comp s = Some (Some z, s') →
  chain_wf comp s' t' →
  (mem s' = mem s ∧ t' = t
   ∨ elements t' ≡ₚ (z, data nz) :: elements t
     ∧ ∀ i, i ≠ z → i ∉ ptrs t → mem s' !! i = mem s !! i) →
  length (mem s') = length (mem s) →
  ∀ i, data_at s' i = data_at s i.
Proof.
  intros Hwf Hz Hrun Hwf' Hcase Hlen i. unfold data_at.
  destruct Hcase as [[-> _]|[Hel Hframe]]; [done|].
  destruct Hwf as ((Hrep & _) & _), Hwf' as ((Hrep' & _) & _).
  destruct (decide (i = z)) as [->|Hiz].
  - destruct (rep_data _ _ _ z (data nz) Hrep') as (n' & -> & Hd).
    { rewrite Hel. set_solver. }
    rewrite Hz. simpl. congruence.
  - destruct (decide (i ∈ ptrs t)) as [Hin|Hin]; [|by rewrite Hframe].
    apply elem_of_ptrs in Hin as [d Hin].
    destruct (rep_data _ _ _ i d Hrep Hin) as (n & -> & Hd).
    destruct (rep_data _ _ _ i d Hrep') as (n' & -> & Hd').
    { rewrite Hel. set_solver. }
    simpl. congruence.
Qed.

(** What a run of insertions leaves behind: the payloads are untouched,
    only inserted nodes get linked, and an equal of each inserted node is
    linked. *)
Lemma chain_inserts_spec zs : ∀ s t,
  chain_wf comp s t → Forall (λ z, (z < length (mem s))%nat) zs →
  count s + Z.of_nat (length zs) ≤ INT_MAX →
  ∃ s' t', chain_inserts comp zs s = Some s' ∧ chain_wf comp s' t'
           ∧ count s' = count s + Z.of_nat (length zs)
           ∧ length (mem s') = length (mem s)
           ∧ (∀ i, data_at s' i = data_at s i)
           ∧ (∀ i, i ∈ ptrs t' → i ∈ ptrs t ∨ i ∈ zs)
           ∧ (∀ x, linked comp x t → linked comp x t')
           ∧ (∀ y d, y ∈ zs → data_at s y = Some d → linked comp d t').
Proof.
  induction zs as [|z zs IH]; intros s t Hwf Hzs Hb.
  { exists s, t. simpl. split_and!; [done..|lia|done|done|by left|done|].
    intros y d Hy. by apply elem_of_nil in Hy. }
  apply Forall_cons in Hzs as [Hz Hzs]. cbn [length] in Hb.
  apply lookup_lt_is_Some in Hz as [nz Hz].
  destruct (chain_insert_wf comp z nz s t Hwf Hz)
    as (s1 & t1 & Hrun & Hwf1 & Hc1 & Hl1 & Hcase); [lia|].
  assert (∀ i, data_at s1 i = data_at s i) as Hdata1.
  { apply (chain_insert_data z nz s t s1 t1); [done..| |done].
    destruct Hcase as [(_ & ? & _ & ?)|(_ & ? & ?)]; [by left|by right]. }
  assert (∀ i, i ∈ ptrs t1 → i ∈ ptrs t ∨ i = z) as Hsub1.
  { intros i. destruct Hcase as [(_ & _ & _ & ->)|(_ & Hel & _)]; [by left|].
    rewrite !elem_of_ptrs. intros [d Hin]. rewrite Hel in Hin.
    apply elem_of_cons in Hin as [[= -> _]|Hin]; [by right|left; by exists d]. }
  assert (∀ x, linked comp x t → linked comp x t1) as Hlink1.
  { intros x. destruct Hcase as [(_ & _ & _ & ->)|(_ & Hel & _)]; [done|].
    intros (e & He & Hx). exists e. split; [|done]. rewrite Hel. set_solver. }
  assert (linked comp (data nz) t1) as Hz1.
  { destruct Hcase as [(? & _ & _ & ->)|(_ & Hel & _)]; [done|].
    exists (z, data nz). split; [rewrite Hel; set_solver|]. simpl.
    by apply cmp_refl. }
  destruct (IH s1 t1 Hwf1)
    as (s' & t' & Hruns & Hwf' & Hc' & Hl' & Hdata' & Hsub' & Hlink' & Hnew').
  { by rewrite Hl1. }
  { lia. }
  exists s', t'. simpl. rewrite Hrun.
  split_and!; [done|done| |congruence| | | |].
  - rewrite Hc', Hc1. lia.
  - intros i. by rewrite Hdata', Hdata1.
  - intros i [Hi|Hi]%Hsub'; [|set_solver].
    apply Hsub1 in Hi as [Hi| ->]; set_solver.
  - intros x Hx. by apply Hlink', Hlink1.
  - intros y d [->|Hy]%elem_of_cons Hd.
    + apply Hlink'. unfold data_at in Hd. rewrite Hz in Hd.
      by injection Hd as <-.
    + apply (Hnew' y d Hy). by rewrite Hdata1.
Qed.

(** Nodes with pairwise different payloads all get linked. *)
Definition distinct_payloads s (zs : list nat) : Prop :=
  ∀ i j zi zj di dj, zs !! i = Some zi → zs !! j = Some zj → i ≠ j →
    data_at s zi = Some di → data_at s zj = Some dj → comp di dj ≠ 0.

Lemma chain_inserts_distinct zs : ∀ s t,
  chain_wf comp s t → Forall (λ z, (z < length (mem s))%nat) zs →
  count s + Z.of_nat (length zs) ≤ INT_MAX →
  distinct_payloads s zs →
  (∀ z d, z ∈ zs → data_at s z = Some d → ¬ linked comp d t) →
  ∃ s' t', chain_inserts comp zs s = Some s' ∧ chain_wf comp s' t'
           ∧ count s' = count s + Z.of_nat (length zs)
           ∧ length (mem s') = length (mem s)
           ∧ (∀ i, data_at s' i = data_at s i)
           ∧ ptrs t' ≡ₚ zs ++ ptrs t.
Proof.
  induction zs as [|z zs IH]; intros s t Hwf Hzs Hb Hdist Hno.
  { exists s, t. simpl. split_and!; [done..|lia|done|done|done]. }
  apply Forall_cons in Hzs as [Hz Hzs]. cbn [length] in Hb.
  apply lookup_lt_is_Some in Hz as [nz Hz].
  destruct (chain_insert_wf comp z nz s t Hwf Hz)
    as (s1 & t1 & Hrun & Hwf1 & Hc1 & Hl1 & Hcase); [lia|].
  assert (∀ i, data_at s1 i = data_at s i) as Hdata1.
  { apply (chain_insert_data z nz s t s1 t1); [done..| |done].
    destruct Hcase as [(_ & ? & _ & ?)|(_ & ? & ?)]; [by left|by right]. }
  destruct Hcase as [(Hl & _)|(_ & Hel & _)].
  { destruct (Hno z (data nz)); [set_solver|by unfold data_at; rewrite Hz|done]. }
  destruct (IH s1 t1 Hwf1)
    as (s' & t' & Hruns & Hwf' & Hc' & Hl' & Hdata' & Hperm).
  - by rewrite Hl1.
  - lia.
  - intros i j zi zj di dj Hi Hj Hij. rewrite !Hdata1.
    by apply (Hdist (S i) (S j)); [..|lia].
  - intros y d Hy Hd ((q & dq) & He & Hq). rewrite Hdata1 in Hd.
    rewrite Hel in He. apply elem_of_cons in He as [[= -> ->]|He].
    + apply list_elem_of_lookup in Hy as [j Hj].
      apply (Hdist (S j) O y z d (data nz)); [done|done|lia|done| |done].
      unfold data_at. by rewrite Hz.
    + apply (Hno y d); [set_solver|done|]. by exists (q, dq).
  - exists s', t'. simpl. rewrite Hrun.
    split_and!; [done|done| |congruence| |].
    + rewrite Hc', Hc1. lia.
    + intros i. by rewrite Hdata', Hdata1.
    + rewrite Hperm.
      assert (ptrs t1 ≡ₚ z :: ptrs t) as -> by (unfold ptrs; by rewrite Hel).
      simpl. by rewrite <-Permutation_middle.
Qed.
End chain_runs.

Section walk.
Context {T : Type}.
Implicit Types (s : core T) (t : tree T).

Fixpoint height t : nat :=
  match t with
  | Leaf => O
  | Br _ l _ _ r => S (height l `max` height r)
  end.

Lemma height_le t : (height t ≤ length (ptrs t))%nat.
Proof.
  unfold ptrs. induction t as [|c l IHl p d r IHr]; [simpl; lia|].
  cbn [height elements]. rewrite fmap_app, fmap_cons, length_app, length_cons.
  lia.
Qed.

(** The in-order walk visits the cells of the tree from left to right. *)
Lemma wp_inorder s : ∀ fuel t up,
  rep (mem s) up t → (height t < fuel)%nat →
  wp (impl.inorder fuel (root_ptr t)) s (λ r s', s' = s ∧ r = ptrs t).
Proof.
  induction fuel as [|fuel IH]; intros t up Hrep Hh; [lia|].
  destruct t as [|c l p d r]; simpl in Hrep |- *.
  { by eexists _, _. }
  destruct Hrep as (Hn & Hrl & Hrr).
  simpl in Hh.
  destruct (IH l (Some p) Hrl ltac:(lia)) as (? & ? & Hrunl & -> & ->).
  destruct (IH r (Some p) Hrr ltac:(lia)) as (? & ? & Hrunr & -> & ->).
  eexists _, _. split; [|split; [done|]].
  - unfold get_left, get_right, deref, mbind, M_bind, mret, M_ret.
    repeat (rewrite ?Hn, ?Hrunl, ?Hrunr; cbn [arm_left arm_right]). done.
  - by rewrite ptrs_Br.
Qed.
End walk.

(** * The two copies of [rb_tree] agree *)

(** A call on a container or on a chain, and what the caller sees of it:
    the node returned (null when nothing is found), the payload it holds,
    and [size()] afterwards. *)
Inductive container_op (Key : Type) :=
  | op_container_find (key : Key)
  | op_container_insert (key : Key).
Arguments op_container_find {Key} _.
Arguments op_container_insert {Key} _.

Inductive chain_op (Key : Type) :=
  | op_chain_find (key : Key)
  | op_chain_insert (z : ptr).
Arguments op_chain_find {Key} _.
Arguments op_chain_insert {Key} _.

Record observation (T : Type) := mk_observation {
  obs_node : ptr;
  obs_payload : option T;
  obs_size : Z
}.
Arguments mk_observation {T} _ _ _.

Section runs.
Context {Key T : Type}.

Definition observe (r : ptr) (s : core T) : observation T :=
  mk_observation r (p ← r; n ← mem s !! p; Some (data n)) (size s).

(** Running a list of calls, given the member functions to call. *)
Fixpoint run_ops {Op} (call : Op → M T ptr) (ops : list Op)
    : M T (list (observation T)) :=
  match ops with
  | [] => mret []
  | op :: ops =>
      r ← call op;
      s ← (λ s, Some (s, s));
      os ← run_ops call ops;
      mret (observe r s :: os)
  end.

Definition container_call (raw : node T) (ctor : Key → T) (comp : Key → T → Z)
    (op : container_op Key) : M T ptr :=
  match op with
  | op_container_find key => rb_tree.container_find key comp
  | op_container_insert key => rb_tree.container_insert raw ctor key comp
  end.

Definition container_call2 (raw : node T) (ctor : Key → T) (comp : Key → T → Z)
    (op : container_op Key) : M T ptr :=
  match op with
  | op_container_find key => rb_tree2.container_find key comp
  | op_container_insert key => rb_tree2.container_insert raw ctor key comp
  end.

Definition chain_call (find_comp : Key → T → Z) (comp : T → T → Z)
    (op : chain_op Key) : M T ptr :=
  match op with
  | op_chain_find key => rb_tree.chain_find key find_comp
  | op_chain_insert z => rb_tree.chain_insert z comp
  end.

Definition chain_call2 (find_comp : Key → T → Z) (comp : T → T → Z)
    (op : chain_op Key) : M T ptr :=
  match op with
  | op_chain_find key => rb_tree2.chain_find key find_comp
  | op_chain_insert z => rb_tree2.chain_insert z comp
  end.

Lemma bind_ext {A B} (m : M T A) (f g : A → M T B) s :
  (∀ a s', f a s' = g a s') → (m ≫= f) s = (m ≫= g) s.
Proof.
  intros Hfg. unfold mbind, M_bind. destruct (m s) as [[a s']|]; [apply Hfg|done].
Qed.

(** The two [make_node] set the arms and construct the payload in
    different orders; the node they return is the same. *)
Lemma make_node_eq {U} (raw : node T) (ctor : U → T) u s :
  rb_tree2.make_node raw ctor u s = rb_tree.make_node raw ctor u s.
Proof.
  unfold rb_tree2.make_node, rb_tree2.allocate, rb_tree2.operator_new,
    rb_tree2.construct_data,
    rb_tree.make_node, rb_tree.allocate, rb_tree.operator_new,
    rb_tree.construct_data, set_left, set_right, set_parent, deref, store,
    mbind, M_bind, mret, M_ret.
  cbn [mem root count].
  repeat (rewrite ?lookup_snoc, ?insert_snoc;
          cbn [mem root count arm_left arm_right arm_parent color data]).
  done.
Qed.

Lemma container_insert_eq raw (ctor : Key → T) key comp s :
  rb_tree2.container_insert raw ctor key comp s
  = rb_tree.container_insert raw ctor key comp s.
Proof.
  unfold rb_tree2.container_insert, rb_tree.container_insert.
  apply bind_ext. intros r s1. destruct (bool_decide (r = None)).
  - unfold mbind at 1 5, M_bind at 1 5. by rewrite make_node_eq.
  - apply bind_ext. intros fuel s2. apply bind_ext. intros r' s3.
    apply bind_ext. intros [[sl parent] where_] s4.
    destruct (bool_decide (where_ = None)); [|done].
    unfold mbind at 1 7, M_bind at 1 7. by rewrite make_node_eq.
Qed.

Lemma container_call_eq raw ctor comp op s :
  container_call2 raw ctor comp op s = container_call raw ctor comp op s.
Proof. destruct op; [done|apply container_insert_eq]. Qed.

Lemma chain_call_eq find_comp comp op s :
  chain_call2 find_comp comp op s = chain_call find_comp comp op s.
Proof. by destruct op. Qed.

Lemma run_ops_ext {Op} (call1 call2 : Op → M T ptr) ops :
  (∀ op s, call1 op s = call2 op s) →
  ∀ s, run_ops call1 ops s = run_ops call2 ops s.
Proof.
  intros Hcall. induction ops as [|op ops IH]; intros s; [done|].
  cbn [run_ops]. unfold mbind at 1 4, M_bind at 1 4. rewrite Hcall.
  destruct (call2 op s) as [[r s1]|]; [|done].
  apply bind_ext. intros s2 s3. unfold mbind at 1 2, M_bind at 1 2.
  by rewrite IH.
Qed.
End runs.

(** * The properties of the trees *)

(** [compare] on [node_id]s is a total order. *)
#[global] Instance compare_Comparator : Comparator impl.compare.
Proof.
  split; unfold impl.compare; intros; repeat case_decide; lia.
Qed.


Lemma compare_lt x y : x < y → impl.compare x y = -1.
Proof. unfold impl.compare. intros. repeat case_decide; lia. Qed.

Lemma compare_gt x y : y < x → impl.compare x y = 1.
Proof. unfold impl.compare. intros. repeat case_decide; lia. Qed.

Lemma compare_zero x y : impl.compare x y = 0 ↔ x = y.
Proof. unfold impl.compare. repeat case_decide; lia. Qed.

(** The number of black nodes on each path from the root down to a
    sentinel, the paths taken from left to right. *)
Fixpoint black_counts {T} (t : tree T) : list nat :=
  match t with
  | Leaf => [O]
  | Br c l _ _ r =>
      (λ n, match c with Black => S n | Red => n end)
        <$> (black_counts l ++ black_counts r)
  end.

Lemma bh_black_counts {T} (t : tree T) : ∀ n,
  bh n t → Forall (eq n) (black_counts t).
Proof.
  induction t as [|c l IHl p d r IHr]; intros n Hbh; simpl in *.
  { by repeat constructor. }
  destruct c.
  - destruct n as [|n]; [done|]. destruct Hbh as [Hl Hr].
    apply Forall_fmap, Forall_app. split.
    + eapply Forall_impl; [by apply IHl|]. by intros ? <-.
    + eapply Forall_impl; [by apply IHr|]. by intros ? <-.
  - destruct Hbh as [Hl Hr]. apply Forall_fmap, Forall_app. split.
    + eapply Forall_impl; [by apply IHl|]. by intros ? <-.
    + eapply Forall_impl; [by apply IHr|]. by intros ? <-.
Qed.

(** The red-black invariant of the spec, with the ordering of the
    payloads: the root is black, no red node has a red child, all paths
    count the same number of black nodes, and the payloads come in
    increasing order from left to right. *)
Definition balanced {T} (cmp : T → T → Z) (t : tree T) : Prop :=
  color_of t = Black
  ∧ no_red_red t
  ∧ (∃ n, Forall (eq n) (black_counts t))
  ∧ StronglySorted (λ a b, cmp a b < 0) (keys t).

Lemma is_red_black_balanced {T} (cmp : T → T → Z) (t : tree T) :
  is_red_black t → sorted cmp t → balanced cmp t.
Proof.
  intros (Hc & Hnrr & n & Hbh) Hs. split_and!; [done..| |].
  - exists n. by apply bh_black_counts.
  - unfold keys. unfold sorted in Hs.
    induction Hs as [|e es Hs IH Hall]; simpl; constructor; [done|].
    apply Forall_fmap. by eapply Forall_impl.
Qed.

Section tree_properties.
Context {Key T : Type} (cmp : T → T → Z) `{!Comparator cmp}.
Context (ctor : Key → T) (comp : Key → T → Z).
Context (comp_ctor : ∀ key, agrees cmp (comp key) (ctor key)).
Context (raw : node T).

(** C1.  Unification idempotence of the owning tree.  In the container
    reached from the empty one by any run of insertions, [insert(k1)]
    returns a node [p]; calling it again returns the same [p] and leaves
    the container as it is, and so does [insert(k2)] for every [k2] that
    compares equal to [k1]; [find(k1)] answers [p] too.  And when
    [find(k1)] already answered a node [q] beforehand, the first
    [insert(k1)] returned that [q] and changed nothing: no node was
    allocated and no payload touched. *)
Theorem container_insert_idempotent (keys : list Key) (k1 : Key) :
  Z.of_nat (length keys) < INT_MAX →
  ∃ s0 p s1,
    container_inserts ctor comp raw keys (core_init []) = Some s0
    ∧ rb_tree.container_insert raw ctor k1 comp s0 = Some (Some p, s1)
    ∧ rb_tree.container_insert raw ctor k1 comp s1 = Some (Some p, s1)
    ∧ (∀ k2, comp k1 (ctor k2) = 0 →
             rb_tree.container_insert raw ctor k2 comp s1 = Some (Some p, s1))
    ∧ rb_tree.container_find k1 comp s1 = Some (Some p, s1)
    ∧ (∀ q, rb_tree.container_find k1 comp s0 = Some (Some q, s0) →
            p = q ∧ s1 = s0).
Proof.
  intros Hlen.
  destruct (container_inserts_wf cmp ctor comp comp_ctor raw keys
              (core_init []) Leaf (container_wf_init cmp))
    as (s0 & t0 & Hrun0 & Hwf0 & Hc0); [simpl; lia|]. simpl in Hc0.
  destruct (container_insert_wf cmp ctor comp comp_ctor raw k1 s0 t0 Hwf0)
    as (p & s1 & t1 & Hrun1 & Hwf1 & (d & Hin & Hd) & Hcase); [lia|].
  assert (stored comp k1 t1) as Hst1 by (by exists (p, d)).
  pose proof Hwf1 as (HRep1 & _ & Hs1 & _).
  assert (∀ k2, comp k2 d = 0 →
            rb_tree.container_insert raw ctor k2 comp s1 = Some (Some p, s1))
    as Hagain.
  { intros k2 Hd2.
    assert (stored comp k2 t1) as Hst2 by (by exists (p, d)).
    destruct (container_insert_wf cmp ctor comp comp_ctor raw k2 s1 t1 Hwf1)
      as (p' & s2 & t2 & Hrun2 & _ & (d' & Hin' & Hd') & [(_ & -> & ->)|[? _]]);
      [done| |done].
    by rewrite Hrun2,
      (stored_unique cmp ctor comp comp_ctor k2 t1 p' d' p d). }
  exists s0, p, s1. split_and!; [done|done| | | |].
  - by apply Hagain.
  - intros k2 H12. apply Hagain. by eapply stored_equiv.
  - destruct (wp_container_find k1 comp s1 t1 HRep1) as (r & s' & -> & -> & ->).
    pose proof (descend_stored cmp ctor comp comp_ctor k1 t1 Hs1) as Hdesc.
    destruct ((descend (comp k1) t1 []).1) as [|c l p' d' r]; [done|].
    destruct Hdesc as [Hin' Hd']. simpl.
    by rewrite (stored_unique cmp ctor comp comp_ctor k1 t1 p' d' p d).
  - intros q Hfind. pose proof Hwf0 as (HRep0 & Hrb0 & _).
    destruct (wp_container_find k1 comp s0 t0 HRep0) as (r & ? & Hf & -> & ->).
    rewrite Hf in Hfind. injection Hfind as Hq.
    destruct (wp_container_insert raw ctor k1 comp s0 t0 HRep0 (proj1 Hrb0))
      as (r & s' & Hins & Hpost); [lia|].
    rewrite Hins in Hrun1. injection Hrun1 as -> ->.
    destruct ((descend (comp k1) t0 []).1) as [|c l p' d' r]; [done|].
    simpl in Hq. destruct Hpost as [[= ->] ->]. by injection Hq as ->.
Qed.

(** C5, as the code has it.  A call of [insert] on the owning tree adds
    one to [size()] exactly when no equal key was stored, in which case
    one node is allocated; when [find] reports an equal key, [insert]
    returns that node and leaves the container, [size()] included, as it
    was. *)
Theorem container_insert_size (keys : list Key) (key : Key) :
  Z.of_nat (length keys) < INT_MAX →
  ∃ s found p s',
    container_inserts ctor comp raw keys (core_init []) = Some s
    ∧ rb_tree.container_find key comp s = Some (found, s)
    ∧ rb_tree.container_insert raw ctor key comp s = Some (Some p, s')
    ∧ match found with
      | None =>
          size s' = size s + 1
          ∧ length (mem s') = S (length (mem s))
      | Some q => p = q ∧ s' = s
      end.
Proof.
  intros Hlen.
  destruct (container_inserts_wf cmp ctor comp comp_ctor raw keys
              (core_init []) Leaf (container_wf_init cmp))
    as (s & t & Hrun & (HRep & Hrb & _) & Hc0); [simpl; lia|]. simpl in Hc0.
  destruct (wp_container_find key comp s t HRep) as (found & ? & Hf & -> & ->).
  destruct (wp_container_insert raw ctor key comp s t HRep (proj1 Hrb))
    as (r & s' & Hins & Hpost); [lia|].
  destruct ((descend (comp key) t []).1) as [|c l q d r'].
  - destruct Hpost as (-> & _ & Hc & Hmem).
    by exists s, None, (length (mem s)), s'.
  - destruct Hpost as [-> ->]. by exists s, (Some q), q, s.
Qed.

(** C6.  Count semantics: after inserting pairwise different keys into
    the empty container, [size()] is the number of keys. *)
Theorem container_size_distinct (keys : list Key) :
  Z.of_nat (length keys) ≤ INT_MAX →
  pairwise_distinct ctor comp keys →
  ∃ s, container_inserts ctor comp raw keys (core_init []) = Some s
       ∧ size s = Z.of_nat (length keys).
Proof.
  intros Hlen Hd.
  destruct (container_inserts_distinct cmp ctor comp comp_ctor raw keys
              (core_init []) Leaf (container_wf_init cmp))
    as (s & t & Hrun & _ & Hc); [simpl; lia|done| |].
  { intros key _ (e & He & _). by apply elem_of_nil in He. }
  exists s. split; [done|]. unfold size. rewrite Hc. simpl. lia.
Qed.

(** C2.  The balance invariant.  Any run of insertions into the empty
    container, and any run of insertions of nodes of an arena of fresh
    nodes into the empty chain, ends, and ends in a state whose links and
    colours spell out a tree [t] with a black root, no red node under a
    red node, the same number of black nodes on every path down to a
    sentinel, and the payloads in increasing order from left to
    right. *)
Theorem balance_invariant (keys : list Key) (arena : list (node T))
    (zs : list nat) :
  Z.of_nat (length keys) ≤ INT_MAX → Z.of_nat (length zs) ≤ INT_MAX →
  Forall detached arena → Forall (λ z, (z < length arena)%nat) zs →
  (∃ s t, container_inserts ctor comp raw keys (core_init []) = Some s
          ∧ Rep s t ∧ balanced cmp t)
  ∧ (∃ s t, chain_inserts cmp zs (core_init arena) = Some s
            ∧ Rep s t ∧ balanced cmp t).
Proof.
  intros Hkeys Hlen Harena Hzs. split.
  - destruct (container_inserts_wf cmp ctor comp comp_ctor raw keys
                (core_init []) Leaf (container_wf_init cmp))
      as (s & t & Hrun & (HRep & Hrb & Hs & _) & _); [simpl; lia|].
    exists s, t. split_and!; [done..|]. by apply is_red_black_balanced.
  - destruct (chain_inserts_wf cmp zs (core_init arena) Leaf
                (chain_wf_init cmp arena Harena) Hzs)
      as (s & t & Hrun & (HRep & Hrb & Hs & _) & _); [simpl; lia|].
    exists s, t. split_and!; [done..|]. by apply is_red_black_balanced.
Qed.
End tree_properties.


(** ** The trees at work on integers *)

(** Storage as [operator new] may hand it out. *)
Definition raw_7 : node Z := mk_node (Some 7%nat) None (Some 3%nat) Red 0.

Lemma compare_agrees (key : Z) : agrees impl.compare (impl.compare key) (id key).
Proof. apply agrees_self. Qed.

Lemma container_insert_idempotent_witness :
  ∃ s0 p s1,
    container_inserts id impl.compare raw_7 [3; 1; 2] (core_init []) = Some s0
    ∧ rb_tree.container_insert raw_7 id 2 impl.compare s0 = Some (Some p, s1)
    ∧ rb_tree.container_insert raw_7 id 2 impl.compare s1 = Some (Some p, s1)
    ∧ (∀ k2, impl.compare 2 (id k2) = 0 →
             rb_tree.container_insert raw_7 id k2 impl.compare s1
             = Some (Some p, s1))
    ∧ rb_tree.container_find 2 impl.compare s1 = Some (Some p, s1)
    ∧ (∀ q, rb_tree.container_find 2 impl.compare s0 = Some (Some q, s0) →
            p = q ∧ s1 = s0).
Proof.
  apply (container_insert_idempotent impl.compare id impl.compare
           compare_agrees raw_7 [3; 1; 2] 2).
  reflexivity.
Defined.

Lemma container_insert_size_witness :
  ∃ s found p s',
    container_inserts id impl.compare raw_7 [3; 1; 2] (core_init []) = Some s
    ∧ rb_tree.container_find 1 impl.compare s = Some (found, s)
    ∧ rb_tree.container_insert raw_7 id 1 impl.compare s = Some (Some p, s')
    ∧ match found with
      | None =>
          size s' = size s + 1
          ∧ length (mem s') = S (length (mem s))
      | Some q => p = q ∧ s' = s
      end.
Proof.
  apply (container_insert_size impl.compare id impl.compare compare_agrees
           raw_7 [3; 1; 2] 1).
  reflexivity.
Defined.

(** Inserting 7 twice into the empty container: the second call returns
    the node of the first and [size()] stays 1. *)
Lemma container_insert_twice :
  ∃ s p s',
    rb_tree.container_insert raw_7 id 7 impl.compare (core_init [])
    = Some (p, s)
    ∧ rb_tree.container_insert raw_7 id 7 impl.compare s = Some (p, s')
    ∧ size s = 1
    ∧ size s' ≠ size s + 1.
Proof.
  eexists _, _, _. split; [vm_compute; reflexivity|].
  split; [vm_compute; reflexivity|]. split; [reflexivity|]. vm_compute. done.
Qed.

Lemma container_size_distinct_witness :
  pairwise_distinct id impl.compare [3; 1; 2]
  ∧ ∃ s, container_inserts id impl.compare raw_7 [3; 1; 2] (core_init [])
         = Some s
         ∧ size s = Z.of_nat (length [3; 1; 2]).
Proof.
  assert (pairwise_distinct id impl.compare [3; 1; 2]) as Hd.
  { intros [|[|[|i]]] [|[|[|j]]] ki kj; simpl; try done;
      intros [= <-] [= <-] _; done. }
  split; [exact Hd|].
  apply (container_size_distinct impl.compare id impl.compare compare_agrees
           raw_7 [3; 1; 2]); [by vm_compute|exact Hd].
Defined.

Lemma balance_invariant_witness :
  let arena := [mk_node None None None Red 5; mk_node None None None Red 2;
                mk_node None None None Red 8] in
  (∃ s t, container_inserts id impl.compare raw_7 [3; 1; 2] (core_init [])
          = Some s
          ∧ Rep s t ∧ balanced impl.compare t)
  ∧ (∃ s t, chain_inserts impl.compare [0; 1; 2]%nat (core_init arena) = Some s
            ∧ Rep s t ∧ balanced impl.compare t).
Proof.
  apply (balance_invariant impl.compare id impl.compare compare_agrees raw_7
           [3; 1; 2]
           [mk_node None None None Red 5; mk_node None None None Red 2;
            mk_node None None None Red 8] [0; 1; 2]%nat).
  - by vm_compute.
  - by vm_compute.
  - repeat constructor.
  - repeat constructor.
Defined.

Section chain_properties.
Context {T : Type} (comp : T → T → Z) `{!Comparator comp}.

(** C3, as the code has it.  Take the chain reached by inserting the
    nodes [zs] of an arena of fresh nodes, and a node [z] that was not
    inserted but is equal to one that was.  [find] answers a linked node
    [p], which is not [z].  [insert(z, comp)] leaves every link and
    colour as it was and does not link [z] in; but it returns [z], not
    the node [p] already there, and it adds one to [size()]. *)
Theorem chain_insert_duplicate (arena : list (node T)) (zs : list nat)
    (z : nat) (nz : node T) :
  Z.of_nat (length zs) < INT_MAX →
  Forall detached arena → Forall (λ z, (z < length arena)%nat) zs →
  arena !! z = Some nz → z ∉ zs →
  (∃ y ny, y ∈ zs ∧ arena !! y = Some ny ∧ comp (data nz) (data ny) = 0) →
  ∃ s p s',
    chain_inserts comp zs (core_init arena) = Some s
    ∧ rb_tree.chain_find (data nz) comp s = Some (Some p, s)
    ∧ p ≠ z
    ∧ rb_tree.chain_insert (Some z) comp s = Some (Some z, s')
    ∧ mem s' = mem s ∧ root s' = root s
    ∧ size s' = size s + 1.
Proof.
  intros Hlen Harena Hzs Hz Hfresh (y & ny & Hy & Hny & Heq).
  destruct (chain_inserts_spec comp zs (core_init arena) Leaf
              (chain_wf_init comp arena Harena) Hzs)
    as (s & t & Hrun & Hwf & Hcs & _ & Hdata & Hsub & _ & Hnew);
    [simpl; lia|]. simpl in Hcs.
  assert (linked comp (data nz) t) as Hl.
  { destruct (Hnew y (data ny) Hy) as (e & He & Hye).
    { unfold data_at. simpl. by rewrite Hny. }
    exists e. split; [done|]. by eapply cmp_zero_trans. }
  assert (z ∉ ptrs t) as Hzt.
  { intros [Hin|Hin]%Hsub; [|done]. by apply elem_of_nil in Hin. }
  pose proof (Hdata z) as Hdz. unfold data_at in Hdz. simpl in Hdz.
  rewrite Hz in Hdz.
  destruct (mem s !! z) as [nz'|] eqn:Hz'; [|done]. injection Hdz as Hdz.
  pose proof Hwf as (HRep & _ & Hs & _).
  destruct (wp_chain_find (data nz) comp s t HRep) as (r & ? & Hf & -> & ->).
  pose proof (descend_linked comp (data nz) t Hs) as Hdesc.
  destruct (chain_insert_wf comp z nz' s t Hwf Hz')
    as (s' & t' & Hins & _ & Hc & _ & [(_ & Hm & Hr & _)|[Hno _]]);
    [lia| |by rewrite Hdz in Hno].
  destruct ((descend (comp (data nz)) t []).1) as [|c l p d r]; [done|].
  destruct Hdesc as [Hin _]. exists s, p, s'.
  split_and!; [done..| |done|done|done|done].
  intros ->. apply Hzt, elem_of_ptrs. by exists d.
Qed.
End chain_properties.

(** Two fresh nodes, both with payload 7. *)
Definition arena_7_7 : list (node Z) :=
  [mk_node None None None Red 7; mk_node None None None Red 7].

Lemma chain_insert_duplicate_witness :
  ∃ s p s',
    chain_inserts impl.compare [0%nat] (core_init arena_7_7) = Some s
    ∧ rb_tree.chain_find 7 impl.compare s = Some (Some p, s)
    ∧ p ≠ 1%nat
    ∧ rb_tree.chain_insert (Some 1%nat) impl.compare s = Some (Some 1%nat, s')
    ∧ mem s' = mem s ∧ root s' = root s
    ∧ size s' = size s + 1.
Proof.
  apply (chain_insert_duplicate impl.compare arena_7_7 [0%nat] 1
           (mk_node None None None Red 7)).
  - reflexivity.
  - repeat constructor.
  - repeat constructor.
  - reflexivity.
  - intros [=]%list_elem_of_singleton.
  - exists 0%nat, (mk_node None None None Red 7).
    split; [apply list_elem_of_here|]. split; reflexivity.
Defined.

(** The run behind the witness: the second insertion returns node 1
    while node 0 stays the only linked node, and [size()] becomes 2. *)
Definition chain_7 : core Z :=
  mk_core [mk_node None None None Black 7; mk_node None None None Red 7]
    (Some 0%nat) 1.

Lemma chain_insert_duplicate_run :
  rb_tree.chain_insert (Some 0%nat) impl.compare (core_init arena_7_7)
  = Some (Some 0%nat, chain_7)
  ∧ rb_tree.chain_find 7 impl.compare chain_7 = Some (Some 0%nat, chain_7)
  ∧ rb_tree.chain_insert (Some 1%nat) impl.compare chain_7
    = Some (Some 1%nat, mk_core (mem chain_7) (root chain_7) 2).
Proof. split_and!; reflexivity. Qed.

(** * Sequences *)

(** The contract of [Sequence]: inside [0, size()) [get] returns, outside
    it throws. *)
Definition bounds_contract {Seq T} `{!impl.Sequence Seq T} (v : Seq) : Prop :=
  ∀ i, (0 ≤ i < impl.Sequence_size v → ∃ x, impl.Sequence_get v i = impl.returns x)
     ∧ (¬ (0 ≤ i < impl.Sequence_size v) → ∃ e, impl.Sequence_get v i = impl.throws e).

Lemma to_int_small z : - 2 ^ 31 ≤ z ≤ INT_MAX → impl.to_int z = z.
Proof.
  unfold impl.to_int, INT_MAX. intros Hz. rewrite Z.mod_small; lia.
Qed.

Lemma to_int_le z : 0 ≤ z → impl.to_int z ≤ z.
Proof.
  unfold impl.to_int. intros Hz.
  pose proof (Z.mod_le (z + 2 ^ 31) (2 ^ 32)). lia.
Qed.

Lemma val_sequence_get_spec {T} (v : impl.val_sequence T) i :
  (0 ≤ i < impl.val_sequence_size v →
   ∃ x, impl.val_elems v !! Z.to_nat i = Some x
        ∧ impl.val_sequence_get v i = impl.returns x)
  ∧ (¬ (0 ≤ i < impl.val_sequence_size v) →
     impl.val_sequence_get v i
     = impl.throws (impl.domain_error "val_sequence::get")).
Proof.
  unfold impl.val_sequence_get, impl.val_sequence_size. split; intros Hi.
  - rewrite decide_False by lia.
    pose proof (to_int_le (Z.of_nat (length (impl.val_elems v)))).
    destruct (lookup_lt_is_Some_2 (impl.val_elems v) (Z.to_nat i)) as [x Hx];
      [lia|].
    exists x. split; [done|]. by rewrite Hx.
  - rewrite decide_True by lia. done.
Qed.

(** X1.  [val_sequence<T>::get] keeps the contract of [Sequence] to the
    letter: for an index in [0, size()) it returns the element that
    stands at that place, and for any other index it throws
    [std::domain_error]; it never runs off the list, whatever the length
    of the sequence, also one that fits no [int]. *)
Theorem val_sequence_bounds {T} (v : impl.val_sequence T) (i : Z) :
  (0 ≤ i < impl.Sequence_size v →
   ∃ x, impl.val_elems v !! Z.to_nat i = Some x
        ∧ impl.Sequence_get v i = impl.returns x)
  ∧ (¬ (0 ≤ i < impl.Sequence_size v) →
     impl.Sequence_get v i
     = impl.throws (impl.domain_error "val_sequence::get"))
  ∧ impl.Sequence_get v i ≠ impl.undefined.
Proof.
  destruct (val_sequence_get_spec v i) as [Hin Hout]. simpl.
  split; [exact Hin|]. split; [exact Hout|].
  destruct (decide (0 ≤ i < impl.val_sequence_size v)) as [Hi|Hi].
  - destruct (Hin Hi) as (x & _ & ->). done.
  - by rewrite (Hout Hi).
Qed.

Lemma ref_sequence_bounds {T} (v : impl.ref_sequence T) :
  Z.of_nat (length (impl.ref_elems v)) ≤ INT_MAX → bounds_contract v.
Proof.
  intros Hlen i. simpl. unfold impl.ref_sequence_get, impl.ref_sequence_size.
  rewrite to_int_small by lia. split.
  - intros Hi. rewrite decide_True by lia.
    destruct (lookup_lt_is_Some_2 (impl.ref_elems v) (Z.to_nat i)) as [x Hx];
      [lia|].
    exists x. by rewrite Hx.
  - intros Hi. case_decide; [|by eexists].
    rewrite lookup_ge_None_2 by lia. by eexists.
Qed.

(** C4, as the code has it.  The decl-set with one element reports
    [size() == 1], yet [get(0)] throws [std::domain_error] and it is
    [get(1)], outside [0, size()), that returns the element: the test in
    [singleton_declset::get] is [i == 1]. *)
Theorem singleton_declset_get_off_by_one {T} (d : T) :
  impl.Sequence_size (impl.mk_singleton_declset d) = 1
  ∧ impl.Sequence_get (impl.mk_singleton_declset d) 0
    = impl.throws (impl.domain_error "singleton_declset::get")
  ∧ impl.Sequence_get (impl.mk_singleton_declset d) 1 = impl.returns d
  ∧ ¬ bounds_contract (impl.mk_singleton_declset d).
Proof.
  split_and!; [done..|]. intros Hc. destruct (Hc 0) as [Hin _].
  destruct Hin as [x Hx]; [simpl; unfold impl.singleton_declset_size; lia|].
  discriminate Hx.
Qed.

(** * The two copies of [rb_tree] *)

(** C10.  Whatever the calls of [find] and [insert] and whatever the
    state they start from, the container and the chain of the second
    copy answer exactly as those of the first: the same node or null,
    the same payload, the same [size()] after each call, and the same
    final state (or both runs have no defined behaviour). *)
Theorem rb_tree_copies_agree {Key T} (raw : node T) (ctor : Key → T)
    (comp : Key → T → Z) (chain_comp : T → T → Z)
    (container_ops : list (container_op Key))
    (chain_ops : list (chain_op Key)) (s : core T) :
  run_ops (container_call2 raw ctor comp) container_ops s
  = run_ops (container_call raw ctor comp) container_ops s
  ∧ run_ops (chain_call2 comp chain_comp) chain_ops s
    = run_ops (chain_call comp chain_comp) chain_ops s.
Proof.
  split; apply run_ops_ext; intros op s'.
  - apply container_call_eq.
  - apply chain_call_eq.
Qed.

(** * Scopes *)

(** Overload sets are ordered by their names. *)
Definition overload_order (a b : impl.Overload) : Z :=
  impl.compare (impl.name a) (impl.name b).

#[global] Instance overload_order_Comparator : Comparator overload_order.
Proof.
  split; unfold overload_order.
  - intros a b. apply (cmp_antisym (cmp:=impl.compare)).
  - intros a b c. apply (cmp_trans (cmp:=impl.compare)).
Qed.

Lemma name_compare_ctor key :
  agrees overload_order (impl.name_compare key) (impl.Overload_ctor key).
Proof. done. Qed.

(** The search of a homogeneous scope runs to the end when no member
    bears the name. *)
Lemma homogeneous_scope_search_absent (decls : impl.val_sequence impl.member_rep)
    (n : Z) : ∀ fuel i,
  0 ≤ i → i + Z.of_nat fuel ≤ impl.val_sequence_size decls →
  (∀ m, m ∈ impl.val_elems decls → impl.member_name m ≠ n) →
  impl.homogeneous_scope_search decls n fuel i = impl.returns impl.ref_missing.
Proof.
  induction fuel as [|fuel IH]; intros i Hi Hsz Hno; [done|].
  cbn [impl.homogeneous_scope_search].
  destruct (val_sequence_get_spec decls i) as [Hin _].
  destruct Hin as (m & Hm & ->); [lia|].
  rewrite decide_False; [apply IH; [lia|lia|done]|].
  apply Hno. by eapply list_elem_of_lookup_2.
Qed.

(** A scope whose container of overload sets is well formed. *)
Definition Scope_wf (sc : impl.Scope) : Prop :=
  ∃ t, container_wf overload_order (impl.overloads sc) t.

(** C7.  Absence is total.  In a scope whose overload sets form a
    well-formed container and none of which bears the name [n], the
    lookup of [n] returns, without touching the scope, a reference to
    the scope's [missing]; so does the lookup in a homogeneous scope
    none of whose members bears the name.  What the reference designates
    is an [empty_overload]: its size is zero, and indexing it, at
    position 0 or anywhere else, throws. *)
Theorem lookup_absent_total (sc : impl.Scope)
    (members : impl.val_sequence impl.member_rep) (n : Z) :
  Scope_wf sc →
  (∀ i nd, mem (impl.overloads sc) !! i = Some nd → impl.name (data nd) ≠ n) →
  (∀ m, m ∈ impl.val_elems members → impl.member_name m ≠ n) →
  ∃ r missing,
    impl.Scope_subscript n sc = Some (r, sc)
    ∧ impl.homogeneous_scope_subscript members n = impl.returns r
    ∧ impl.as_empty_overload r = Some missing
    ∧ impl.Sequence_size missing = 0
    ∧ ∀ i, impl.Sequence_get missing i
           = impl.throws (impl.domain_error "empty_overload::get").
Proof.
  intros (t & HRep & _ & Hs & _) Hno Hmem.
  exists impl.ref_missing, impl.mk_empty_overload.
  split_and!; [| |done..].
  - destruct (wp_container_find n impl.name_compare _ t HRep)
      as (r & ? & Hf & -> & ->).
    pose proof (descend_stored overload_order impl.Overload_ctor
                  impl.name_compare name_compare_ctor n t Hs) as Hd.
    unfold impl.Scope_subscript, impl.with_overloads, mbind, impl.SM_bind.
    rewrite Hf.
    destruct ((descend (impl.name_compare n) t []).1) as [|c l p d r].
    + by destruct sc.
    + destruct Hd as [Hin Hz].
      destruct (rep_data _ _ _ p d (proj1 HRep) Hin) as (nd & Hnd & <-).
      destruct (Hno p nd Hnd). symmetry. by apply compare_zero.
  - unfold impl.homogeneous_scope_subscript.
    destruct (decide (impl.val_sequence_size members < 0)) as [Hneg|Hpos].
    + by assert (Z.to_nat (impl.val_sequence_size members) = O) as -> by lia.
    + apply homogeneous_scope_search_absent; [lia|lia|done].
Qed.

(** A scope with one declaration, of name 10 and type 20, whose entry
    knows it as the master declaration. *)
Definition scope_10 : impl.Scope :=
  impl.mk_Scope
    (mk_core [mk_node None None None Black
                (impl.mk_Overload 10 (Some 0%nat) 1 [Some 0%nat])]
       (Some 0%nat) 1)
    (Some 0%nat) 1
    [mk_node None None None Black
       (impl.mk_decl_data 0 (Some 0%nat) (Some 0%nat))]
    [mk_node None None None Black
       (impl.mk_master_decl_data 20 (impl.mk_ref_sequence [0%nat])
          (Some 0%nat) (Some 0%nat))].

Lemma scope_10_wf : Scope_wf scope_10.
Proof.
  exists (Br Black Leaf 0%nat
            (impl.mk_Overload 10 (Some 0%nat) 1 [Some 0%nat]) Leaf).
  split_and!; [split_and!; [done|done|]| | |done].
  - repeat constructor. set_solver.
  - split_and!; [done|done|]. by exists 1%nat.
  - repeat constructor.
Qed.

Lemma lookup_absent_total_witness :
  ∃ r missing,
    impl.Scope_subscript 11 scope_10 = Some (r, scope_10)
    ∧ impl.homogeneous_scope_subscript
        (impl.mk_val_sequence [impl.mk_member_rep 5; impl.mk_member_rep 7]) 11
      = impl.returns r
    ∧ impl.as_empty_overload r = Some missing
    ∧ impl.Sequence_size missing = 0
    ∧ ∀ i, impl.Sequence_get missing i
           = impl.throws (impl.domain_error "empty_overload::get").
Proof.
  apply (lookup_absent_total scope_10
           (impl.mk_val_sequence [impl.mk_member_rep 5; impl.mk_member_rep 7])
           11).
  - exact scope_10_wf.
  - intros [|i] nd; simpl; [|by destruct i]. by intros [= <-].
  - intros m. simpl. rewrite !elem_of_cons, elem_of_nil.
    by intros [->|[->|[]]].
Defined.

(** ** The decl-sequence *)

#[global] Instance scope_datum_comp_Comparator : Comparator impl.scope_datum_comp.
Proof.
  split; unfold impl.scope_datum_comp.
  - intros a b. apply (cmp_antisym (cmp:=impl.compare)).
  - intros a b c. apply (cmp_trans (cmp:=impl.compare)).
Qed.

(** Registering declarations, in the order given. *)
Fixpoint decl_sequence_inserts (ds : list nat) (s : core impl.decl_data)
    : option (core impl.decl_data) :=
  match ds with
  | [] => Some s
  | d :: ds =>
      match impl.decl_sequence_insert (Some d) s with
      | Some (_, s') => decl_sequence_inserts ds s'
      | None => None
      end
  end.

Lemma decl_sequence_inserts_chain ds : ∀ s,
  decl_sequence_inserts ds s = chain_inserts impl.scope_datum_comp ds s.
Proof.
  induction ds as [|d ds IH]; intros s; [done|]. simpl.
  unfold impl.decl_sequence_insert.
  destruct (rb_tree.chain_insert _ _ s) as [[? s']|]; [apply IH|done].
Qed.

(** The position and the declaration that the arena records for a
    [scope_datum]. *)
Definition position_of (arena : list (node impl.decl_data)) (d : nat)
    : option Z :=
  n ← arena !! d; Some (impl.scope_pos (data n)).

Definition decl_of (arena : list (node impl.decl_data)) (d : nat) : ptr :=
  n ← arena !! d; impl.decl (data n).

Definition position_lt (arena : list (node impl.decl_data)) (a b : nat)
    : Prop :=
  ∃ pa pb, position_of arena a = Some pa ∧ position_of arena b = Some pb
           ∧ pa < pb.

Lemma sorted_positions (arena : list (node impl.decl_data))
    (es : list (nat * impl.decl_data)) :
  (∀ p d, (p, d) ∈ es → ∃ n, arena !! p = Some n ∧ data n = d) →
  StronglySorted (lt_elt impl.scope_datum_comp) es →
  StronglySorted (position_lt arena) es.*1.
Proof.
  intros Hes Hs. induction Hs as [|[p d] es Hs IH Hall]; simpl; constructor.
  - apply IH. intros q dq Hq. apply Hes. set_solver.
  - apply Forall_fmap, Forall_forall. intros [q dq] Hq.
    rewrite Forall_forall in Hall. specialize (Hall _ Hq).
    unfold lt_elt, impl.scope_datum_comp in Hall. simpl in Hall |- *.
    destruct (Hes p d) as (n & Hn & <-); [set_solver|].
    destruct (Hes q dq) as (nq & Hnq & <-); [set_solver|].
    exists (impl.scope_pos (data n)), (impl.scope_pos (data nq)).
    unfold position_of. rewrite Hn, Hnq. split_and!; [done..|].
    unfold impl.compare in Hall. repeat case_decide; lia.
Qed.

(** C9.  Position ordering of the decl-sequence.  Register, in any
    order, declarations of an arena whose scope positions differ.  The
    registrations succeed, [size()] is their number, and there is an
    arrangement [order] of the registered declarations by increasing
    scope position such that [get(i)] is the declaration of the i-th of
    them. *)
Theorem decl_sequence_position_order (arena : list (node impl.decl_data))
    (ds : list nat) :
  Z.of_nat (length ds) ≤ INT_MAX →
  Forall detached arena →
  Forall (λ d, (d < length arena)%nat) ds →
  (∀ i j di dj, ds !! i = Some di → ds !! j = Some dj → i ≠ j →
     position_of arena di ≠ position_of arena dj) →
  ∃ s order,
    decl_sequence_inserts ds (core_init arena) = Some s
    ∧ impl.decl_sequence_size s = Z.of_nat (length ds)
    ∧ order ≡ₚ ds
    ∧ StronglySorted (position_lt arena) order
    ∧ ∀ i d, order !! i = Some d →
        impl.decl_sequence_get (Z.of_nat i) s = impl.check (decl_of arena d).
Proof.
  intros Hmax Harena Hds Hdist.
  destruct (chain_inserts_distinct impl.scope_datum_comp ds (core_init arena)
              Leaf (chain_wf_init _ arena Harena) Hds)
    as (s & t & Hrun & (HRep & _ & Hs & _) & Hc & Hlen & Hdata & Hperm).
  { simpl. lia. }
  { intros i j di dj ni nj Hi Hj Hij Hni Hnj Hz.
    apply (Hdist i j di dj Hi Hj Hij).
    unfold data_at in Hni, Hnj. simpl in Hni, Hnj. unfold position_of.
    destruct (arena !! di) as [a|]; [|done].
    destruct (arena !! dj) as [b|]; [|done].
    simpl in *. injection Hni as <-. injection Hnj as <-.
    unfold impl.scope_datum_comp in Hz.
    apply (proj1 (compare_zero _ _)) in Hz. by rewrite Hz. }
  { intros z d _ _ (e & He & _). by apply elem_of_nil in He. }
  rewrite app_nil_r in Hperm.
  assert (∀ p d, (p, d) ∈ elements t →
            ∃ n n', mem s !! p = Some n' ∧ arena !! p = Some n
                    ∧ data n' = d ∧ data n = d) as Hcells.
  { intros p d Hin.
    destruct (rep_data _ _ _ p d (proj1 HRep) Hin) as (n' & Hn' & Hd').
    pose proof (Hdata p) as Hp. unfold data_at in Hp. simpl in Hp.
    rewrite Hn' in Hp. destruct (arena !! p) as [n|]; [|done].
    injection Hp as Hp. exists n, n'. split_and!; congruence. }
  exists s, (ptrs t). split_and!.
  - by rewrite decl_sequence_inserts_chain.
  - unfold impl.decl_sequence_size, size. rewrite Hc. simpl. lia.
  - done.
  - apply sorted_positions; [|done]. intros p d Hin.
    destruct (Hcells p d Hin) as (n & _ & _ & ? & _ & ?). by exists n.
  - intros i d Hi. unfold impl.decl_sequence_get, impl.decl_sequence_size, size.
    pose proof (lookup_lt_Some _ _ _ Hi) as Hlt.
    rewrite Hperm in Hlt. rewrite decide_False by (rewrite Hc; simpl; lia).
    destruct (wp_inorder s (fuel_of s) t None (proj1 HRep))
      as (r & ? & Hwalk & -> & ->).
    { pose proof (height_le t). pose proof (Rep_bound s t HRep).
      unfold fuel_of. lia. }
    destruct HRep as (_ & -> & _). rewrite Hwalk, Nat2Z.id, Hi.
    apply list_elem_of_lookup_2, elem_of_ptrs in Hi as [dd Hin].
    destruct (Hcells d dd Hin) as (n & n' & -> & Hn & <- & Hd).
    unfold decl_of. rewrite Hn. simpl. by rewrite Hd.
Qed.

(** Three declarations, at positions 5, 2 and 8. *)
Definition arena_5_2_8 : list (node impl.decl_data) :=
  [mk_node None None None Red (impl.mk_decl_data 5 (Some 0%nat) None);
   mk_node None None None Red (impl.mk_decl_data 2 (Some 1%nat) None);
   mk_node None None None Red (impl.mk_decl_data 8 (Some 2%nat) None)].

Lemma decl_sequence_position_order_witness :
  ∃ s order,
    decl_sequence_inserts [0; 1; 2]%nat (core_init arena_5_2_8) = Some s
    ∧ impl.decl_sequence_size s = Z.of_nat (length [0; 1; 2]%nat)
    ∧ order ≡ₚ [0; 1; 2]%nat
    ∧ StronglySorted (position_lt arena_5_2_8) order
    ∧ ∀ i d, order !! i = Some d →
        impl.decl_sequence_get (Z.of_nat i) s
        = impl.check (decl_of arena_5_2_8 d).
Proof.
  apply (decl_sequence_position_order arena_5_2_8 [0; 1; 2]%nat).
  - by vm_compute.
  - repeat constructor.
  - repeat constructor.
  - intros [|[|[|i]]] [|[|[|j]]] di dj; simpl; try done;
      intros [= <-] [= <-] _; done.
Defined.

(** Registered in the order 5, 2, 8, the declarations come back in the
    order 2, 5, 8. *)
Lemma decl_sequence_5_2_8 :
  ∃ s, decl_sequence_inserts [0; 1; 2]%nat (core_init arena_5_2_8) = Some s
       ∧ impl.decl_sequence_size s = 3
       ∧ impl.decl_sequence_get 0 s = impl.returns 1%nat
       ∧ impl.decl_sequence_get 1 s = impl.returns 0%nat
       ∧ impl.decl_sequence_get 2 s = impl.returns 2%nat
       ∧ impl.decl_sequence_get 3 s
         = impl.throws (impl.domain_error "decl_sequence::get").
Proof.
  eexists. split; [vm_compute; reflexivity|]. split_and!; vm_compute; reflexivity.
Qed.

(** * Declarations in a scope *)

(** ** A payload written in place *)

(** The cell [n] with the payload [x]: what [p->data = x] leaves. *)
Definition set_payload {T} (n : node T) (x : T) : node T :=
  mk_node (arm_left n) (arm_right n) (arm_parent n) (color n) x.

Section tree_set.
Context {T : Type}.
Implicit Types (t : tree T) (x d : T).













End tree_set.

(** ** The parts of a scope *)

(** Entries are ordered by their types. *)
#[global] Instance node_compare_entry_Comparator :
  Comparator impl.node_compare_entry.
Proof.
  split; unfold impl.node_compare_entry.
  - intros a b. apply (cmp_antisym (cmp:=impl.compare)).
  - intros a b c. apply (cmp_trans (cmp:=impl.compare)).
Qed.

(** An entry of the type [t], nothing else known of it. *)
Definition entry_of_type (t : Z) : impl.master_decl_data :=
  impl.mk_master_decl_data t (impl.mk_ref_sequence []) None None.

Lemma node_compare_type_agrees t :
  agrees impl.node_compare_entry (impl.node_compare_type t) (entry_of_type t).
Proof. done. Qed.

(** The chain [entries] of the overload set [o]: its header is in [o],
    its nodes are in the farm of the scope. *)
Definition entries_core (sc : impl.Scope) (o : impl.Overload)
    : core impl.master_decl_data :=
  mk_core (impl.farm_master_info sc) (impl.entries_root o)
    (impl.entries_count o).

Definition entries_wf (sc : impl.Scope) (o : impl.Overload)
    (te : tree impl.master_decl_data) : Prop :=
  Rep (entries_core sc o) te ∧ is_red_black te
  ∧ sorted impl.node_compare_entry te.




(** The container of overload sets, the overload set [ovl] now being
    [o]. *)
Definition set_overload_at (O : core impl.Overload) (ovl : nat)
    (nO : node impl.Overload) (o : impl.Overload) : core impl.Overload :=
  mk_core (<[ovl:=set_payload nO o]> (mem O)) (root O) (count O).

Lemma with_entries_run {A} (m : M impl.master_decl_data A) sc ovl nO a c' :
  mem (impl.overloads sc) !! ovl = Some nO →
  m (entries_core sc (data nO)) = Some (a, c') →
  impl.with_entries (Some ovl) m sc
  = Some (a, impl.mk_Scope
               (set_overload_at (impl.overloads sc) ovl nO
                  (impl.mk_Overload (impl.name (data nO)) (root c') (count c')
                     (impl.masters (data nO))))
               (impl.decls_root sc) (impl.decls_count sc) (impl.farm_decls sc)
               (mem c')).
Proof.
  intros HnO Hm.
  unfold impl.with_entries, impl.get_overload, impl.set_overload,
    impl.with_overloads, impl.on_master_info, get_data, deref, store,
    mbind, mret, impl.SM_bind, impl.SM_ret, M_bind, M_ret.
  destruct sc as [O dr dc FD FM]. unfold entries_core in Hm.
  cbn [impl.overloads impl.farm_master_info impl.decls_root impl.decls_count
       impl.farm_decls] in *.
  rewrite HnO. cbn [impl.overloads impl.farm_master_info impl.decls_root
                    impl.decls_count impl.farm_decls].
  rewrite Hm.
  cbn [impl.overloads impl.farm_master_info impl.decls_root impl.decls_count
       impl.farm_decls mem].
  rewrite HnO. reflexivity.
Qed.

Lemma Scope_eta (sc : impl.Scope) :
  impl.mk_Scope (impl.overloads sc) (impl.decls_root sc) (impl.decls_count sc)
    (impl.farm_decls sc) (impl.farm_master_info sc) = sc.
Proof. by destruct sc. Qed.

Lemma set_overload_at_id (O : core impl.Overload) ovl nO :
  mem O !! ovl = Some nO →
  set_overload_at O ovl nO
    (impl.mk_Overload (impl.name (data nO)) (impl.entries_root (data nO))
       (impl.entries_count (data nO)) (impl.masters (data nO))) = O.
Proof.
  intros HnO. destruct O as [mO rO cO], nO as [l r p c [n er ec ms]].
  unfold set_overload_at, set_payload. cbn in *.
  by rewrite list_insert_id.
Qed.

(** [Overload::lookup] on a well-formed chain of entries: the scope is
    left as it is, and the answer is where the descent stops. *)
Lemma Overload_lookup_run sc ovl nO te t :
  mem (impl.overloads sc) !! ovl = Some nO →
  Rep (entries_core sc (data nO)) te →
  impl.Overload_lookup (Some ovl) t sc
  = Some (root_ptr (descend (impl.node_compare_type t) te []).1, sc).
Proof.
  intros HnO HRep.
  destruct (wp_chain_find t impl.node_compare_type _ te HRep)
    as (r & s' & Hf & -> & ->).
  unfold impl.Overload_lookup.
  rewrite (with_entries_run _ sc ovl nO _ _ HnO Hf).
  unfold entries_core. cbn [root count mem].
  rewrite set_overload_at_id by done. by rewrite Scope_eta.
Qed.










(** ** Finding or creating the overload set of a name *)




(** ** One declaration *)



(** ** Looking up what was declared *)




(** No entry of a type: the decl-set is empty. *)
Lemma Overload_lookup_absent sc tO ovl o te t :
  container_wf overload_order (impl.overloads sc) tO →
  (ovl, o) ∈ elements tO →
  entries_wf sc o te → ¬ stored impl.node_compare_type t te →
  impl.Overload_lookup (Some ovl) t sc = Some (None, sc).
Proof.
  intros (HRepO & _) HinO (HRep & _ & Hs) Hno.
  destruct (rep_data _ _ _ _ _ (proj1 HRepO) HinO) as (nO & HnO & <-).
  pose proof (descend_stored impl.node_compare_entry entry_of_type
                impl.node_compare_type node_compare_type_agrees t te Hs) as Hd.
  rewrite (Overload_lookup_run sc ovl nO te t HnO HRep).
  destruct ((descend (impl.node_compare_type t) te []).1) as [|c l p d r];
    [done|].
  destruct Hd as [Hin Hz]. destruct Hno. by exists (p, d).
Qed.



(** ** Declaring twice, then with another type *)


(** The scope after the declaration of the name 10 with the type 20. *)
Definition scope_10_20 : impl.Scope :=
  impl.mk_Scope
    (mk_core [mk_node None None None Black
                (impl.mk_Overload 10 (Some 0%nat) 1 [Some 0%nat])]
       (Some 0%nat) 1)
    (Some 0%nat) 1
    [mk_node None None None Black
       (impl.mk_decl_data 0 (Some 0%nat) (Some 0%nat))]
    [mk_node None None None Black
       (impl.mk_master_decl_data 20 (impl.mk_ref_sequence [0%nat])
          None (Some 0%nat))].

Lemma scope_10_20_declared :
  impl.Scope_declare (mk_node None None None Red (impl.Overload_ctor 0)) 10 20
    impl.Scope_init
  = Some (Some 0%nat, scope_10_20).
Proof. vm_compute. reflexivity. Qed.




(** * More on the trees *)

Section rotation_properties.
Context {T : Type}.
Implicit Types (s : core T) (t : tree T) (k : ctx T).

(** The cells of a tree are fixed by the tree. *)
Lemma rep_agree (m m' : list (node T)) t : ∀ up,
  rep m up t → rep m' up t → ∀ i, i ∈ ptrs t → m' !! i = m !! i.
Proof.
  induction t as [|c l IHl p d r IHr]; intros up; simpl.
  - intros _ _ i Hi. unfold ptrs in Hi. simpl in Hi. set_solver.
  - intros (Hp & Hl & Hr) (Hp' & Hl' & Hr') i. rewrite ptrs_Br.
    intros [Hi|[->|Hi]%elem_of_cons]%elem_of_app.
    + by eapply IHl.
    + congruence.
    + by eapply IHr.
Qed.

(** Two states that spell out the same tree, and agree on the other
    cells and on the count, are the same state. *)
Lemma Rep_agree s s' t :
  Rep s t → Rep s' t → count s' = count s →
  length (mem s') = length (mem s) →
  (∀ i, i ∉ ptrs t → mem s' !! i = mem s !! i) → s' = s.
Proof.
  intros (Hrep & Hroot & _) (Hrep' & Hroot' & _) Hc Hlen Hout.
  destruct s as [m r c], s' as [m' r' c']. simpl in *. f_equal; [|congruence..].
  apply list_eq. intros i. destruct (decide (i ∈ ptrs t)) as [Hi|Hi].
  - by eapply rep_agree.
  - by apply Hout.
Qed.

(** X3.  [rotate_left] about a node [x] whose right child is [y], in a
    tree that the state spells out: the rotation returns, [y] takes the
    place of [x] with [x] as its left child and the former left subtree
    of [y] as the right subtree of [x]; the nodes come in the same order
    from left to right, [size()] is unchanged, and no cell outside the
    tree is written. *)
Theorem rotate_left_correct s cx a x dx cy b y dy g k :
  Rep s (plug (Br cx a x dx (Br cy b y dy g)) k) →
  ∃ s', rb_tree.rotate_left (Some x) s = Some (tt, s')
    ∧ Rep s' (plug (Br cy (Br cx a x dx b) y dy g) k)
    ∧ elements (plug (Br cy (Br cx a x dx b) y dy g) k)
      = elements (plug (Br cx a x dx (Br cy b y dy g)) k)
    ∧ size s' = size s
    ∧ length (mem s') = length (mem s)
    ∧ ∀ i, i ∉ ptrs (plug (Br cx a x dx (Br cy b y dy g)) k) →
           mem s' !! i = mem s !! i.
Proof.
  intros HRep.
  destruct (wp_rotate_left s cx a x dx cy b y dy g k HRep)
    as ([] & s' & Hrun & HRep' & Hc & Hlen & Hframe).
  exists s'. split_and!; [done|done| |done|done|done].
  rewrite !elements_plug. cbn [elements].
  repeat first [rewrite <-app_assoc | rewrite <-app_comm_cons]. done.
Qed.

(** X4.  [rotate_right] about a node [x] whose left child is [y]: the
    mirror image of [rotate_left]. *)
Theorem rotate_right_correct s cx a x dx cy b y dy g k :
  Rep s (plug (Br cx (Br cy a y dy b) x dx g) k) →
  ∃ s', rb_tree.rotate_right (Some x) s = Some (tt, s')
    ∧ Rep s' (plug (Br cy a y dy (Br cx b x dx g)) k)
    ∧ elements (plug (Br cy a y dy (Br cx b x dx g)) k)
      = elements (plug (Br cx (Br cy a y dy b) x dx g) k)
    ∧ size s' = size s
    ∧ length (mem s') = length (mem s)
    ∧ ∀ i, i ∉ ptrs (plug (Br cx (Br cy a y dy b) x dx g) k) →
           mem s' !! i = mem s !! i.
Proof.
  intros HRep.
  destruct (wp_rotate_right s cx a x dx cy b y dy g k HRep)
    as ([] & s' & Hrun & HRep' & Hc & Hlen & Hframe).
  exists s'. split_and!; [done|done| |done|done|done].
  rewrite !elements_plug. cbn [elements].
  repeat first [rewrite <-app_assoc | rewrite <-app_comm_cons]. done.
Qed.

(** X5.  A right rotation undoes a left rotation: after [rotate_left]
    about [x], whose right child is [y], [rotate_right] about [y] gives
    back the very state the rotations started from. *)
Theorem rotate_left_right_inverse s cx a x dx cy b y dy g k :
  Rep s (plug (Br cx a x dx (Br cy b y dy g)) k) →
  (rb_tree.rotate_left (Some x);; rb_tree.rotate_right (Some y)) s
  = Some (tt, s).
Proof.
  intros HRep.
  destruct (wp_rotate_left s cx a x dx cy b y dy g k HRep)
    as ([] & s1 & Hrun1 & HRep1 & Hc1 & Hlen1 & Hframe1).
  destruct (wp_rotate_right s1 cy a y dy cx b x dx g k HRep1)
    as ([] & s2 & Hrun2 & HRep2 & Hc2 & Hlen2 & Hframe2).
  unfold mbind, M_bind. rewrite Hrun1, Hrun2. do 2 f_equal.
  apply (Rep_agree s s2 _ HRep HRep2); [congruence|congruence|].
  intros i Hi. rewrite Hframe2, Hframe1; [done|done|].
  intros Hin. apply Hi. revert Hin. unfold ptrs.
  rewrite !elements_plug. cbn [elements].
  repeat first [rewrite <-app_assoc | rewrite <-app_comm_cons]. done.
Qed.
End rotation_properties.

(** A root 3 whose right child is 5. *)
Definition tree_3_5 : core Z :=
  mk_core [mk_node None (Some 1%nat) None Black 3;
           mk_node None None (Some 0%nat) Red 5] (Some 0%nat) 2.

(** A root 5 whose left child is 3. *)
Definition tree_5_3 : core Z :=
  mk_core [mk_node None None (Some 1%nat) Red 3;
           mk_node (Some 0%nat) None None Black 5] (Some 1%nat) 2.

Lemma tree_3_5_Rep :
  Rep tree_3_5 (plug (Br Black Leaf 0%nat 3 (Br Red Leaf 1%nat 5 Leaf)) []).
Proof.
  split_and!; [by repeat split|done|]. unfold ptrs. simpl.
  repeat constructor; set_solver.
Qed.

Lemma tree_5_3_Rep :
  Rep tree_5_3 (plug (Br Black (Br Red Leaf 0%nat 3 Leaf) 1%nat 5 Leaf) []).
Proof.
  split_and!; [by repeat split|done|]. unfold ptrs. simpl.
  repeat constructor; set_solver.
Qed.

Lemma rotate_left_correct_witness :
  ∃ s', rb_tree.rotate_left (Some 0%nat) tree_3_5 = Some (tt, s')
    ∧ Rep s' (plug (Br Red (Br Black Leaf 0%nat 3 Leaf) 1%nat 5 Leaf) [])
    ∧ elements (plug (Br Red (Br Black Leaf 0%nat 3 Leaf) 1%nat 5 Leaf) [])
      = elements (plug (Br Black Leaf 0%nat 3 (Br Red Leaf 1%nat 5 Leaf)) [])
    ∧ size s' = size tree_3_5
    ∧ length (mem s') = length (mem tree_3_5)
    ∧ ∀ i, i ∉ ptrs (plug (Br Black Leaf 0%nat 3 (Br Red Leaf 1%nat 5 Leaf)) []) →
           mem s' !! i = mem tree_3_5 !! i.
Proof.
  exact (rotate_left_correct tree_3_5 Black Leaf 0%nat 3 Red Leaf 1%nat 5 Leaf
           [] tree_3_5_Rep).
Defined.

Lemma rotate_right_correct_witness :
  ∃ s', rb_tree.rotate_right (Some 1%nat) tree_5_3 = Some (tt, s')
    ∧ Rep s' (plug (Br Red Leaf 0%nat 3 (Br Black Leaf 1%nat 5 Leaf)) [])
    ∧ elements (plug (Br Red Leaf 0%nat 3 (Br Black Leaf 1%nat 5 Leaf)) [])
      = elements (plug (Br Black (Br Red Leaf 0%nat 3 Leaf) 1%nat 5 Leaf) [])
    ∧ size s' = size tree_5_3
    ∧ length (mem s') = length (mem tree_5_3)
    ∧ ∀ i, i ∉ ptrs (plug (Br Black (Br Red Leaf 0%nat 3 Leaf) 1%nat 5 Leaf) []) →
           mem s' !! i = mem tree_5_3 !! i.
Proof.
  exact (rotate_right_correct tree_5_3 Black Leaf 1%nat 5 Red Leaf 0%nat 3 Leaf
           [] tree_5_3_Rep).
Defined.

Lemma rotate_left_right_inverse_witness :
  (rb_tree.rotate_left (Some 0%nat);; rb_tree.rotate_right (Some 1%nat))
    tree_3_5
  = Some (tt, tree_3_5).
Proof.
  exact (rotate_left_right_inverse tree_3_5 Black Leaf 0%nat 3 Red Leaf 1%nat
           5 Leaf [] tree_3_5_Rep).
Defined.

Section container_runs.
Context {Key T : Type} (cmp : T → T → Z) `{!Comparator cmp}.
Context (ctor : Key → T) (comp : Key → T → Z).
Context (comp_ctor : ∀ key, agrees cmp (comp key) (ctor key)).
Context (raw : node T).
Implicit Types (s : core T) (t : tree T) (key : Key).

(** Every cell of the arena is a node of the tree. *)
Definition all_linked s t : Prop :=
  ∀ i, (i < length (mem s))%nat → i ∈ ptrs t.

Lemma comp_equal_trans key key' d :
  comp key' (ctor key) = 0 → comp key d = 0 → comp key' d = 0.
Proof.
  intros H1 H2.
  apply (agrees_zero cmp _ _ _ (comp_ctor key')) in H1.
  apply (agrees_zero cmp _ _ _ (comp_ctor key)) in H2.
  apply (agrees_zero cmp _ _ _ (comp_ctor key')).
  by eapply cmp_zero_trans.
Qed.

(** One [insert], with what it keeps and what it adds. *)
Lemma container_insert_step key s t :
  container_wf cmp s t → all_linked s t →
  (¬ stored comp key t → count s < INT_MAX) →
  ∃ p s' t',
    rb_tree.container_insert raw ctor key comp s = Some (Some p, s')
    ∧ container_wf cmp s' t' ∧ all_linked s' t'
    ∧ (∀ e, e ∈ elements t → e ∈ elements t')
    ∧ (∀ key', stored comp key' t'
               ↔ stored comp key' t ∨ comp key' (ctor key) = 0)
    ∧ count s ≤ count s' ≤ count s + 1
    ∧ Z.of_nat (length (mem s')) - count s'
      = Z.of_nat (length (mem s)) - count s
    ∧ (∀ e, e ∈ elements t' →
            e ∈ elements t ∨ (e.2 = ctor key ∧ ¬ stored comp key t)).
Proof.
  intros Hwf Hall Hbound.
  destruct (container_insert_wf cmp ctor comp comp_ctor raw key s t Hwf Hbound)
    as (p & s' & t' & Hrun & Hwf' & _ & Hcase).
  pose proof Hwf as (HRep & Hrb & Hs & Hc).
  pose proof (descend_stored cmp ctor comp comp_ctor key t Hs) as Hd.
  destruct (wp_container_insert raw ctor key comp s t HRep (proj1 Hrb))
    as (r & s'' & Hrun' & Hpost).
  { intros HL. rewrite HL in Hd. by apply Hbound. }
  rewrite Hrun in Hrun'. injection Hrun' as <- <-.
  exists p, s', t'. split; [done|]. split; [done|].
  destruct Hcase as [(Hst & -> & ->)|(Hno & -> & Hc' & Hel)].
  - split_and!; [done|done| |lia|lia|done|by left].
    intros key'. split; [by left|]. intros [?|Heq]; [done|].
    destruct Hst as (e & He & Hz). exists e. split; [done|].
    by eapply comp_equal_trans.
  - destruct ((descend (comp key) t []).1) as [|c l q d r].
    2:{ destruct Hno, Hd as [? ?]. by exists (q, d). }
    destruct Hpost as (_ & _ & _ & Hlen).
    split_and!.
    + intros i Hi. apply elem_of_ptrs. rewrite Hlen in Hi.
      destruct (decide (i = length (mem s))) as [->|Hne].
      * exists (ctor key). rewrite Hel. set_solver.
      * destruct (proj1 (elem_of_ptrs t i) (Hall i ltac:(lia))) as [d Hd'].
        exists d. rewrite Hel. set_solver.
    + intros e He. rewrite Hel. set_solver.
    + intros key'. unfold stored. setoid_rewrite Hel. split.
      * intros (e & [->|He]%elem_of_cons & Hz); [by right|left; by exists e].
      * intros [(e & He & Hz)|Hz].
        -- exists e. split; [set_solver|done].
        -- exists (length (mem s), ctor key). split; [set_solver|done].
    + lia.
    + lia.
    + rewrite Hlen. lia.
    + intros e. rewrite Hel. intros [->|He]%elem_of_cons; [by right|by left].
Qed.

(** A run of [insert]s, with what it keeps and what it adds. *)
Lemma container_inserts_run keys : ∀ s t,
  container_wf cmp s t → all_linked s t →
  count s + Z.of_nat (length keys) ≤ INT_MAX →
  ∃ s' t',
    container_inserts ctor comp raw keys s = Some s'
    ∧ container_wf cmp s' t' ∧ all_linked s' t'
    ∧ (∀ e, e ∈ elements t → e ∈ elements t')
    ∧ (∀ key', stored comp key' t'
               ↔ stored comp key' t
                 ∨ ∃ k, k ∈ keys ∧ comp key' (ctor k) = 0)
    ∧ count s ≤ count s' ≤ count s + Z.of_nat (length keys)
    ∧ Z.of_nat (length (mem s')) - count s'
      = Z.of_nat (length (mem s)) - count s
    ∧ (∀ e, e ∈ elements t' →
            e ∈ elements t
            ∨ ∃ l1 k l2, keys = l1 ++ k :: l2 ∧ e.2 = ctor k
                         ∧ ¬ stored comp k t
                         ∧ ∀ k', k' ∈ l1 → comp k (ctor k') ≠ 0).
Proof.
  induction keys as [|key keys IH]; intros s t Hwf Hall Hb.
  { exists s, t. simpl. split_and!; [done..| |lia|lia|done|by left].
    intros key'. split; [by left|]. intros [?|(k & Hk & _)]; [done|].
    by apply elem_of_nil in Hk. }
  cbn [length] in Hb.
  destruct (container_insert_step key s t Hwf Hall)
    as (p & s1 & t1 & Hrun & Hwf1 & Hall1 & Hsub1 & Hst1 & Hc1 & Hm1 & Hnew1);
    [lia|].
  destruct (IH s1 t1 Hwf1 Hall1)
    as (s' & t' & Hruns & Hwf' & Hall' & Hsub' & Hst' & Hc' & Hm' & Hnew');
    [lia|].
  exists s', t'. simpl. rewrite Hrun.
  split_and!; [done|done|done| | | | | |].
  - intros e He. by apply Hsub', Hsub1.
  - intros key'. rewrite Hst', Hst1. split.
    + intros [[?|?]|(k & Hk & Hz)]; [by left|right..].
      * exists key. split; [set_solver|done].
      * exists k. split; [set_solver|done].
    + intros [?|(k & [->|Hk]%elem_of_cons & Hz)]; [by left; left|by left; right|].
      right. by exists k.
  - lia.
  - cbn [length]. lia.
  - lia.
  - intros e [He|(l1 & k & l2 & -> & Hek & Hno & Hl1)]%Hnew'.
    + apply Hnew1 in He as [He|[Hek Hno]]; [by left|right].
      exists [], key, keys. split_and!; [done..|].
      intros k' Hk'. by apply elem_of_nil in Hk'.
    + right. exists (key :: l1), k, l2. split_and!; [done|done| |].
      * intros Hst. apply Hno, Hst1. by left.
      * intros k' [->|Hk']%elem_of_cons; [|by apply Hl1].
        intros Hz. apply Hno, Hst1. by right.
Qed.

Lemma all_linked_init : all_linked (core_init ([] : list (node T))) Leaf.
Proof. intros i Hi. simpl in Hi. lia. Qed.

(** [find] on a well-formed container. *)
Lemma container_find_stored key s t :
  container_wf cmp s t →
  ∃ r, rb_tree.container_find key comp s = Some (r, s)
       ∧ (r ≠ None ↔ stored comp key t)
       ∧ ∀ p, r = Some p →
              ∃ d n, (p, d) ∈ elements t ∧ mem s !! p = Some n
                     ∧ data n = d ∧ comp key d = 0.
Proof.
  intros (HRep & _ & Hs & _).
  destruct (wp_container_find key comp s t HRep) as (r & ? & Hf & -> & ->).
  pose proof (descend_stored cmp ctor comp comp_ctor key t Hs) as Hd.
  eexists. split; [exact Hf|].
  destruct ((descend (comp key) t []).1) as [|c l p d r]; simpl.
  - split; [done|]. intros p [=].
  - destruct Hd as [Hin Hz]. split.
    + split; [|done]. intros _. by exists (p, d).
    + intros ? [= <-].
      destruct (rep_data _ _ _ p d (proj1 HRep) Hin) as (n & Hn & Hdn).
      by exists d, n.
Qed.

(** X6.  Insert, then look up.  After any run of [insert]s into the
    empty container, [find(key)] leaves the container as it is and
    answers a node exactly when some inserted key compares equal to
    [key]; the payload of the node it answers compares equal to [key]. *)
Theorem container_find_inserted (keys : list Key) (key : Key) :
  Z.of_nat (length keys) ≤ INT_MAX →
  ∃ s r,
    container_inserts ctor comp raw keys (core_init []) = Some s
    ∧ rb_tree.container_find key comp s = Some (r, s)
    ∧ (r ≠ None ↔ ∃ k, k ∈ keys ∧ comp key (ctor k) = 0)
    ∧ ∀ p, r = Some p → ∃ n, mem s !! p = Some n ∧ comp key (data n) = 0.
Proof.
  intros Hlen.
  destruct (container_inserts_run keys (core_init []) Leaf
              (container_wf_init cmp) all_linked_init)
    as (s & t & Hrun & Hwf & _ & _ & Hst & _); [simpl; lia|].
  destruct (container_find_stored key s t Hwf) as (r & Hf & Hr & Hp).
  exists s, r. split_and!; [done|done| |].
  - rewrite Hr, Hst. split; [|by right].
    intros [(e & He & _)|?]; [|done]. by apply elem_of_nil in He.
  - intros p Hrp. destruct (Hp p Hrp) as (d & n & _ & Hn & <- & Hz).
    by exists n.
Qed.

(** X7.  Payloads stay where they are.  Whatever is inserted later, a
    node of the container keeps its index and its payload, and a key
    that [find] answered with a node is answered with the same node
    afterwards. *)
Theorem container_insert_stable (keys1 keys2 : list Key) :
  Z.of_nat (length keys1) + Z.of_nat (length keys2) ≤ INT_MAX →
  ∃ s1 s2,
    container_inserts ctor comp raw keys1 (core_init []) = Some s1
    ∧ container_inserts ctor comp raw keys2 s1 = Some s2
    ∧ (∀ i n, mem s1 !! i = Some n →
              ∃ n', mem s2 !! i = Some n' ∧ data n' = data n)
    ∧ ∀ key p, rb_tree.container_find key comp s1 = Some (Some p, s1) →
               rb_tree.container_find key comp s2 = Some (Some p, s2).
Proof.
  intros Hlen.
  destruct (container_inserts_run keys1 (core_init []) Leaf
              (container_wf_init cmp) all_linked_init)
    as (s1 & t1 & Hrun1 & Hwf1 & Hall1 & _ & _ & Hc1 & _); [simpl; lia|].
  simpl in Hc1.
  destruct (container_inserts_run keys2 s1 t1 Hwf1 Hall1)
    as (s2 & t2 & Hrun2 & Hwf2 & _ & Hsub & _); [lia|].
  exists s1, s2. split_and!; [done|done| |].
  - intros i n Hi.
    destruct (proj1 (elem_of_ptrs t1 i)) as [d Hd].
    { apply Hall1. by eapply lookup_lt_Some. }
    destruct (rep_data _ _ _ i d (proj1 (proj1 Hwf1)) Hd) as (n1 & Hn1 & Hd1).
    destruct (rep_data _ _ _ i d (proj1 (proj1 Hwf2)) (Hsub _ Hd))
      as (n2 & Hn2 & Hd2).
    exists n2. split; [done|]. congruence.
  - intros key p Hf1.
    destruct (container_find_stored key s1 t1 Hwf1) as (r1 & Hf1' & _ & Hp1).
    rewrite Hf1 in Hf1'. injection Hf1' as <-.
    destruct (Hp1 p eq_refl) as (d & _ & Hin & _ & _ & Hz).
    destruct (container_find_stored key s2 t2 Hwf2) as (r2 & Hf2 & Hr2 & Hp2).
    rewrite Hf2. destruct r2 as [p2|].
    + destruct (Hp2 p2 eq_refl) as (d2 & _ & Hin2 & _ & _ & Hz2).
      pose proof Hwf2 as (_ & _ & Hs2 & _).
      by rewrite (stored_unique cmp ctor comp comp_ctor key t2 p2 d2 p d
                    Hs2 Hin2 (Hsub _ Hin) Hz2 Hz).
    + destruct (proj2 Hr2); [|done]. exists (p, d). split; [by apply Hsub|done].
Qed.

(** X8.  One node for each class of equal keys.  After any run of
    [insert]s into the empty container the arena holds exactly [size()]
    nodes, and [size()] is at most the number of calls. *)
Theorem container_allocates_size (keys : list Key) :
  Z.of_nat (length keys) ≤ INT_MAX →
  ∃ s, container_inserts ctor comp raw keys (core_init []) = Some s
       ∧ Z.of_nat (length (mem s)) = size s
       ∧ 0 ≤ size s ≤ Z.of_nat (length keys).
Proof.
  intros Hlen.
  destruct (container_inserts_run keys (core_init []) Leaf
              (container_wf_init cmp) all_linked_init)
    as (s & t & Hrun & _ & _ & _ & _ & Hc & Hm & _); [simpl; lia|].
  simpl in Hc, Hm. exists s. unfold size. split_and!; [done|lia..].
Qed.
(** X21.  The first key of a class provides the payload.  After any run
    of [insert]s into the empty container, the payload of every node was
    constructed from a key of the run that compares equal to none of the
    keys before it. *)
Theorem container_payload_first (keys : list Key) :
  Z.of_nat (length keys) ≤ INT_MAX →
  ∃ s, container_inserts ctor comp raw keys (core_init []) = Some s
       ∧ ∀ i n, mem s !! i = Some n →
           ∃ l1 k l2, keys = l1 ++ k :: l2 ∧ data n = ctor k
                      ∧ ∀ k', k' ∈ l1 → comp k (ctor k') ≠ 0.
Proof.
  intros Hlen.
  destruct (container_inserts_run keys (core_init []) Leaf
              (container_wf_init cmp) all_linked_init)
    as (s & t & Hrun & Hwf & Hall & _ & _ & _ & _ & Hnew); [simpl; lia|].
  exists s. split; [done|]. intros i n Hi.
  destruct (proj1 (elem_of_ptrs t i)) as [d Hd].
  { apply Hall. by eapply lookup_lt_Some. }
  destruct (rep_data _ _ _ i d (proj1 (proj1 Hwf)) Hd) as (n' & Hn' & Hd').
  rewrite Hi in Hn'. injection Hn' as <-.
  destruct (Hnew _ Hd) as [He|(l1 & k & l2 & -> & Hek & _ & Hl1)].
  { by apply elem_of_nil in He. }
  exists l1, k, l2. simpl in Hek. split_and!; [done|congruence|done].
Qed.
End container_runs.

Lemma container_find_inserted_witness :
  ∃ s r,
    container_inserts id impl.compare raw_7 [3; 1; 2] (core_init []) = Some s
    ∧ rb_tree.container_find 1 impl.compare s = Some (r, s)
    ∧ (r ≠ None ↔ ∃ k, k ∈ [3; 1; 2] ∧ impl.compare 1 (id k) = 0)
    ∧ ∀ p, r = Some p →
           ∃ n, mem s !! p = Some n ∧ impl.compare 1 (data n) = 0.
Proof.
  apply (container_find_inserted impl.compare id impl.compare compare_agrees
           raw_7 [3; 1; 2] 1).
  by vm_compute.
Defined.

Lemma container_insert_stable_witness :
  ∃ s1 s2,
    container_inserts id impl.compare raw_7 [3; 1] (core_init []) = Some s1
    ∧ container_inserts id impl.compare raw_7 [2; 3; 4] s1 = Some s2
    ∧ (∀ i n, mem s1 !! i = Some n →
              ∃ n', mem s2 !! i = Some n' ∧ data n' = data n)
    ∧ ∀ key p, rb_tree.container_find key impl.compare s1 = Some (Some p, s1) →
               rb_tree.container_find key impl.compare s2 = Some (Some p, s2).
Proof.
  apply (container_insert_stable impl.compare id impl.compare compare_agrees
           raw_7 [3; 1] [2; 3; 4]).
  by vm_compute.
Defined.

Lemma container_allocates_size_witness :
  ∃ s, container_inserts id impl.compare raw_7 [3; 1; 3; 2; 1] (core_init [])
       = Some s
       ∧ Z.of_nat (length (mem s)) = size s
       ∧ 0 ≤ size s ≤ Z.of_nat (length [3; 1; 3; 2; 1]).
Proof.
  apply (container_allocates_size impl.compare id impl.compare compare_agrees
           raw_7 [3; 1; 3; 2; 1]).
  by vm_compute.
Defined.

Lemma container_payload_first_witness :
  ∃ s, container_inserts id impl.compare raw_7 [3; 1; 3; 2] (core_init [])
       = Some s
       ∧ ∀ i n, mem s !! i = Some n →
           ∃ l1 k l2, [3; 1; 3; 2] = l1 ++ k :: l2 ∧ data n = id k
                      ∧ ∀ k', k' ∈ l1 → impl.compare k (id k') ≠ 0.
Proof.
  apply (container_payload_first impl.compare id impl.compare compare_agrees
           raw_7 [3; 1; 3; 2]).
  by vm_compute.
Defined.

Section depth.
Context {T : Type}.
Implicit Types (s : core T) (t : tree T) (k : ctx T).

(** A red-black tree is at most twice as deep as its black height. *)
Lemma height_bh t : ∀ n,
  bh n t → no_red_red t →
  (height t ≤ 2 * n + match color_of t with Red => 1 | Black => 0 end)%nat.
Proof.
  induction t as [|c l IHl p d r IHr]; intros n Hbh Hnrr; [simpl; lia|].
  cbn [height color_of]. destruct Hnrr as (Hc & Hl & Hr). destruct c.
  - destruct n as [|n]; [done|]. destruct Hbh as [Hbl Hbr].
    specialize (IHl n Hbl Hl). specialize (IHr n Hbr Hr).
    destruct (color_of l), (color_of r); lia.
  - destruct Hbh as [Hbl Hbr]. destruct (Hc eq_refl) as [Hcl Hcr].
    specialize (IHl n Hbl Hl). specialize (IHr n Hbr Hr).
    rewrite Hcl in IHl. rewrite Hcr in IHr. lia.
Qed.

(** A tree of black height [n] has at least [2^n - 1] nodes. *)
Lemma size_bh t : ∀ n, bh n t → (2 ^ n ≤ S (length (elements t)))%nat.
Proof.
  induction t as [|c l IHl p d r IHr]; intros n Hbh.
  { simpl in Hbh. subst n. simpl. lia. }
  cbn [elements]. rewrite length_app, length_cons. destruct c.
  - destruct n as [|n]; [done|]. destruct Hbh as [Hbl Hbr].
    specialize (IHl n Hbl). specialize (IHr n Hbr).
    rewrite Nat.pow_succ_r'. lia.
  - destruct Hbh as [Hbl Hbr]. specialize (IHl n Hbl). lia.
Qed.

Lemma height_log t :
  is_red_black t →
  Z.of_nat (height t) ≤ 2 * Z.log2 (Z.of_nat (length (elements t)) + 1).
Proof.
  intros (Hc & Hnrr & n & Hbh).
  pose proof (height_bh t n Hbh Hnrr) as Hh. rewrite Hc in Hh.
  pose proof (size_bh t n Hbh) as Hsz.
  assert (Z.of_nat n ≤ Z.log2 (Z.of_nat (length (elements t)) + 1)) as Hn.
  { apply Z.log2_le_pow2; [lia|].
    apply Nat2Z.inj_le in Hsz. rewrite Nat2Z.inj_pow in Hsz. lia. }
  lia.
Qed.

(** The loop of [find] needs one test more than the tree is deep. *)
Lemma wp_container_find_loop_height {Key} (key : Key) (comp : Key → T → Z) s :
  ∀ t k fuel,
  Rep s (plug t k) → (height t < fuel)%nat →
  wp (rb_tree.container_find_loop fuel key comp (root_ptr t)) s
     (λ r s', s' = s ∧ r = root_ptr (descend (comp key) t k).1).
Proof.
  induction t as [|c l IHl p d r IHr]; intros k fuel HRep Hfuel;
    (destruct fuel as [|fuel]; [simpl in Hfuel; lia|]);
    cbn [rb_tree.container_find_loop descend root_ptr].
  { wp_steps. done. }
  pose proof HRep as HRep0. Rep_open HRep.
  wp_steps. cbn [height] in Hfuel.
  repeat case_decide.
  - wp_steps. apply (IHl (mk_frame L c p d r :: k)); [done|lia].
  - wp_steps. apply (IHr (mk_frame R c p d l :: k)); [done|lia].
  - wp_steps. done.
Qed.
End depth.

Section container_depth.
Context {Key T : Type} (cmp : T → T → Z) `{!Comparator cmp}.
Context (ctor : Key → T) (comp : Key → T → Z).
Context (comp_ctor : ∀ key, agrees cmp (comp key) (ctor key)).
Context (raw : node T).

(** X9.  Lookup is logarithmic.  In the container reached by any run of
    [insert]s, the loop of [find] ends within [2 log2 (size() + 1) + 1]
    tests of its condition, whatever the key, with the answer of
    [find]. *)
Theorem container_find_logarithmic (keys : list Key) (key : Key) :
  Z.of_nat (length keys) ≤ INT_MAX →
  ∃ s r,
    container_inserts ctor comp raw keys (core_init []) = Some s
    ∧ rb_tree.container_find key comp s = Some (r, s)
    ∧ rb_tree.container_find_loop
        (S (Z.to_nat (2 * Z.log2 (size s + 1)))) key comp (root s) s
      = Some (r, s).
Proof.
  intros Hlen.
  destruct (container_inserts_wf cmp ctor comp comp_ctor raw keys
              (core_init []) Leaf (container_wf_init cmp))
    as (s & t & Hrun & (HRep & Hrb & _ & Hc) & _); [simpl; lia|].
  destruct (wp_container_find key comp s t HRep) as (r & ? & Hf & -> & ->).
  exists s, (root_ptr (descend (comp key) t []).1). split_and!; [done..|].
  pose proof (height_log t Hrb) as Hh.
  destruct (wp_container_find_loop_height key comp s t []
              (S (Z.to_nat (2 * Z.log2 (size s + 1)))) HRep)
    as (r & ? & Hloop & -> & ->).
  { unfold size. rewrite Hc. lia. }
  destruct HRep as (_ & -> & _). done.
Qed.
End container_depth.

Lemma container_find_logarithmic_witness :
  ∃ s r,
    container_inserts id impl.compare raw_7 [1; 2; 3; 4; 5; 6; 7]
      (core_init []) = Some s
    ∧ rb_tree.container_find 7 impl.compare s = Some (r, s)
    ∧ rb_tree.container_find_loop
        (S (Z.to_nat (2 * Z.log2 (size s + 1)))) 7 impl.compare (root s) s
      = Some (r, s).
Proof.
  apply (container_find_logarithmic impl.compare id impl.compare
           compare_agrees raw_7 [1; 2; 3; 4; 5; 6; 7] 7).
  by vm_compute.
Defined.

Section chain_more.
Context {T : Type} (comp : T → T → Z) `{!Comparator comp}.
Implicit Types (s : core T) (t : tree T) (z : nat).

(** A run of insertions, with the cells it leaves alone. *)
Lemma chain_inserts_frame zs : ∀ s t,
  chain_wf comp s t → Forall (λ z, (z < length (mem s))%nat) zs →
  count s + Z.of_nat (length zs) ≤ INT_MAX →
  ∃ s' t', chain_inserts comp zs s = Some s' ∧ chain_wf comp s' t'
           ∧ (∀ i, i ∈ ptrs t' → i ∈ ptrs t ∨ i ∈ zs)
           ∧ (∀ i, i ∉ ptrs t → i ∉ zs → mem s' !! i = mem s !! i).
Proof.
  induction zs as [|z zs IH]; intros s t Hwf Hzs Hb.
  { exists s, t. simpl. split_and!; [done|done|by left|done]. }
  apply Forall_cons in Hzs as [Hz Hzs]. cbn [length] in Hb.
  apply lookup_lt_is_Some in Hz as [nz Hz].
  destruct (chain_insert_wf comp z nz s t Hwf Hz)
    as (s1 & t1 & Hrun & Hwf1 & Hc1 & Hl1 & Hcase); [lia|].
  assert (∀ i, i ∈ ptrs t1 → i ∈ ptrs t ∨ i = z) as Hsub1.
  { intros i. destruct Hcase as [(_ & _ & _ & ->)|(_ & Hel & _)]; [by left|].
    rewrite !elem_of_ptrs. intros [d Hin]. rewrite Hel in Hin.
    apply elem_of_cons in Hin as [[= -> _]|Hin]; [by right|left; by exists d]. }
  assert (∀ i, i ≠ z → i ∉ ptrs t → mem s1 !! i = mem s !! i) as Hf1.
  { destruct Hcase as [(_ & -> & _)|(_ & _ & ?)]; [done|done]. }
  destruct (IH s1 t1 Hwf1) as (s' & t' & Hruns & Hwf' & Hsub' & Hf');
    [by rewrite Hl1|lia|].
  exists s', t'. simpl. rewrite Hrun. split_and!; [done|done| |].
  - intros i [Hi|Hi]%Hsub'; [|set_solver].
    apply Hsub1 in Hi as [Hi| ->]; set_solver.
  - intros i Hi Hzs'. rewrite Hf', Hf1; [done|set_solver|done| |set_solver].
    intros [?| ->]%Hsub1; set_solver.
Qed.

(** X10.  [insert] on a chain only relinks.  After any run of
    [insert]s over an arena of fresh nodes, every node holds the payload
    it held at first, and a node that was never passed to [insert] is
    exactly as it was: its arms are still null and its colour is
    untouched. *)
Theorem chain_insert_relinks_only (arena : list (node T)) (zs : list nat) :
  Z.of_nat (length zs) ≤ INT_MAX →
  Forall detached arena → Forall (λ z, (z < length arena)%nat) zs →
  ∃ s, chain_inserts comp zs (core_init arena) = Some s
       ∧ length (mem s) = length arena
       ∧ (∀ i, data <$> mem s !! i = data <$> arena !! i)
       ∧ ∀ i, i ∉ zs → mem s !! i = arena !! i.
Proof.
  intros Hlen Harena Hzs.
  destruct (chain_inserts_spec comp zs (core_init arena) Leaf
              (chain_wf_init comp arena Harena) Hzs)
    as (s & t & Hrun & _ & _ & Hl & Hdata & _); [simpl; lia|].
  destruct (chain_inserts_frame zs (core_init arena) Leaf
              (chain_wf_init comp arena Harena) Hzs)
    as (s' & t' & Hrun' & _ & _ & Hframe); [simpl; lia|].
  rewrite Hrun in Hrun'. injection Hrun' as <-.
  exists s. split_and!; [done|done|exact Hdata|].
  intros i Hi. apply Hframe; [|done]. intros Hin. by apply elem_of_nil in Hin.
Qed.

Lemma chain_find_after_run (arena : list (node T)) (zs : list nat)
    (z : nat) (nz : node T) :
  Z.of_nat (length zs) ≤ INT_MAX →
  Forall detached arena → Forall (λ z, (z < length arena)%nat) zs →
  z ∈ zs → arena !! z = Some nz →
  ∃ s p np,
    chain_inserts comp zs (core_init arena) = Some s
    ∧ rb_tree.chain_find (data nz) comp s = Some (Some p, s)
    ∧ p ∈ zs ∧ arena !! p = Some np ∧ comp (data nz) (data np) = 0.
Proof.
  intros Hlen Harena Hzs Hz Hnz.
  destruct (chain_inserts_spec comp zs (core_init arena) Leaf
              (chain_wf_init comp arena Harena) Hzs)
    as (s & t & Hrun & Hwf & _ & _ & Hdata & Hsub & _ & Hnew); [simpl; lia|].
  pose proof Hwf as (HRep & _ & Hs & _).
  destruct (wp_chain_find (data nz) comp s t HRep) as (r & ? & Hf & -> & ->).
  pose proof (descend_linked comp (data nz) t Hs) as Hd.
  assert (linked comp (data nz) t) as Hl.
  { apply (Hnew z); [done|]. unfold data_at. simpl. by rewrite Hnz. }
  destruct ((descend (comp (data nz)) t []).1) as [|c l p d r]; [done|].
  destruct Hd as [Hin Hzero].
  destruct (rep_data _ _ _ p d (proj1 HRep) Hin) as (n & Hn & Hdn).
  pose proof (Hdata p) as Hp. unfold data_at in Hp. simpl in Hp.
  rewrite Hn in Hp. destruct (arena !! p) as [np|] eqn:Hnp; [|done].
  injection Hp as Hp. exists s, p, np. split_and!; [done|done| |done|congruence].
  destruct (Hsub p) as [Hi|Hi]; [apply elem_of_ptrs; by exists d| |done].
  by apply elem_of_nil in Hi.
Qed.

(** X11.  Insert, then look up, on a chain.  After any run of
    [insert]s, [find] with the payload of an inserted node answers a
    node that was inserted and whose payload compares equal; the chain
    is left as it is. *)
Theorem chain_find_inserted (arena : list (node T)) (zs : list nat)
    (z : nat) (nz : node T) :
  Z.of_nat (length zs) ≤ INT_MAX →
  Forall detached arena → Forall (λ z, (z < length arena)%nat) zs →
  z ∈ zs → arena !! z = Some nz →
  ∃ s p np,
    chain_inserts comp zs (core_init arena) = Some s
    ∧ rb_tree.chain_find (data nz) comp s = Some (Some p, s)
    ∧ p ∈ zs ∧ arena !! p = Some np ∧ comp (data nz) (data np) = 0.
Proof. apply chain_find_after_run. Qed.

(** X22.  Among nodes with different payloads a node finds itself.
    After inserting nodes whose payloads compare pairwise different,
    [find] with the payload of an inserted node answers that very
    node. *)
Theorem chain_find_identity (arena : list (node T)) (zs : list nat)
    (z : nat) (nz : node T) :
  Z.of_nat (length zs) ≤ INT_MAX →
  Forall detached arena → Forall (λ z, (z < length arena)%nat) zs →
  (∀ i j zi zj ni nj, zs !! i = Some zi → zs !! j = Some zj → i ≠ j →
     arena !! zi = Some ni → arena !! zj = Some nj →
     comp (data ni) (data nj) ≠ 0) →
  z ∈ zs → arena !! z = Some nz →
  ∃ s, chain_inserts comp zs (core_init arena) = Some s
       ∧ rb_tree.chain_find (data nz) comp s = Some (Some z, s).
Proof.
  intros Hlen Harena Hzs Hdist Hz Hnz.
  destruct (chain_find_after_run arena zs z nz Hlen Harena Hzs Hz Hnz)
    as (s & p & np & Hrun & Hf & Hp & Hnp & Hzero).
  exists s. split; [done|]. rewrite Hf. do 3 f_equal.
  apply list_elem_of_lookup in Hz as [i Hi].
  apply list_elem_of_lookup in Hp as [j Hj].
  destruct (decide (i = j)) as [->|Hij]; [congruence|].
  by destruct (Hdist i j z p nz np).
Qed.

(** X12.  [size()] of a chain counts the calls.  After any run of
    [insert]s, [size()] is the number of calls of [insert], whether or
    not the nodes passed were equal to nodes already linked. *)
Theorem chain_size_counts_calls (arena : list (node T)) (zs : list nat) :
  Z.of_nat (length zs) ≤ INT_MAX →
  Forall detached arena → Forall (λ z, (z < length arena)%nat) zs →
  ∃ s, chain_inserts comp zs (core_init arena) = Some s
       ∧ size s = Z.of_nat (length zs).
Proof.
  intros Hlen Harena Hzs.
  destruct (chain_inserts_wf comp zs (core_init arena) Leaf
              (chain_wf_init comp arena Harena) Hzs)
    as (s & t & Hrun & _ & Hc & _); [simpl; lia|].
  exists s. split; [done|]. unfold size. rewrite Hc. simpl. lia.
Qed.
End chain_more.

(** Five fresh nodes; two hold 5 and two hold 2. *)
Definition arena_5_2_5_8_2 : list (node Z) :=
  [mk_node None None None Red 5; mk_node None None None Red 2;
   mk_node None None None Red 5; mk_node None None None Red 8;
   mk_node None None None Red 2].

Lemma chain_insert_relinks_only_witness :
  ∃ s, chain_inserts impl.compare [0; 1; 2]%nat (core_init arena_5_2_5_8_2)
       = Some s
       ∧ length (mem s) = length arena_5_2_5_8_2
       ∧ (∀ i, data <$> mem s !! i = data <$> arena_5_2_5_8_2 !! i)
       ∧ ∀ i, i ∉ [0; 1; 2]%nat → mem s !! i = arena_5_2_5_8_2 !! i.
Proof.
  apply (chain_insert_relinks_only impl.compare arena_5_2_5_8_2 [0; 1; 2]%nat).
  - by vm_compute.
  - repeat constructor.
  - repeat constructor.
Defined.

Lemma chain_find_inserted_witness :
  ∃ s p np,
    chain_inserts impl.compare [0; 1; 2]%nat (core_init arena_5_2_5_8_2)
    = Some s
    ∧ rb_tree.chain_find 5 impl.compare s = Some (Some p, s)
    ∧ p ∈ [0; 1; 2]%nat ∧ arena_5_2_5_8_2 !! p = Some np
    ∧ impl.compare 5 (data np) = 0.
Proof.
  apply (chain_find_inserted impl.compare arena_5_2_5_8_2 [0; 1; 2]%nat 2
           (mk_node None None None Red 5)).
  - by vm_compute.
  - repeat constructor.
  - repeat constructor.
  - set_solver.
  - reflexivity.
Defined.

Lemma chain_size_counts_calls_witness :
  ∃ s, chain_inserts impl.compare [0; 1; 2; 3; 4]%nat
         (core_init arena_5_2_5_8_2) = Some s
       ∧ size s = Z.of_nat (length [0; 1; 2; 3; 4]%nat).
Proof.
  apply (chain_size_counts_calls impl.compare arena_5_2_5_8_2
           [0; 1; 2; 3; 4]%nat).
  - by vm_compute.
  - repeat constructor.
  - repeat constructor.
Defined.

Lemma chain_find_identity_witness :
  ∃ s, chain_inserts impl.compare [0; 1; 3]%nat (core_init arena_5_2_5_8_2)
       = Some s
       ∧ rb_tree.chain_find 2 impl.compare s = Some (Some 1%nat, s).
Proof.
  apply (chain_find_identity impl.compare arena_5_2_5_8_2 [0; 1; 3]%nat 1
           (mk_node None None None Red 2)).
  - by vm_compute.
  - repeat constructor.
  - repeat constructor.
  - intros [|[|[|i]]] [|[|[|j]]] zi zj ni nj; simpl; try done;
      intros [= <-] [= <-] _ [= <-] [= <-]; by vm_compute.
  - set_solver.
  - reflexivity.
Defined.

(** * The comparison of ranges *)

Section lexicographical.
Context {A : Type} (compare : A → A → Z).

(** X13.  [lexicographical_compare] answers zero exactly when the two
    ranges have the same length and [compare] answers zero on every pair
    of elements at the same place. *)
Theorem lexicographical_compare_zero {B} (cmp : A → B → Z)
    (range1 : list A) (range2 : list B) :
  util.lexicographical_compare cmp range1 range2 = 0
  ↔ Forall2 (λ x y, cmp x y = 0) range1 range2.
Proof.
  revert range2. induction range1 as [|x l1 IH]; intros [|y l2]; simpl.
  - split; [constructor|done].
  - split; [done|]. intros H. inversion H.
  - split; [done|]. intros H. inversion H.
  - case_decide as Hxy.
    + split; [done|]. intros H. by inversion H.
    + rewrite IH. split.
      * intros H. constructor; [lia|done].
      * intros H. by inversion H.
Qed.

(** X14.  The first difference decides.  When the ranges agree, under
    [compare], up to a place where [compare] answers a number other than
    zero, that number is the answer; when the first range ends while they
    still agree the answer is -1, and when the second one does it is 1. *)
Theorem lexicographical_compare_first_difference {B} (cmp : A → B → Z)
    (p1 r1 : list A) (p2 r2 : list B) (x : A) (y : B) :
  Forall2 (λ x y, cmp x y = 0) p1 p2 →
  (cmp x y ≠ 0 →
   util.lexicographical_compare cmp (p1 ++ x :: r1) (p2 ++ y :: r2) = cmp x y)
  ∧ util.lexicographical_compare cmp p1 (p2 ++ y :: r2) = -1
  ∧ util.lexicographical_compare cmp (p1 ++ x :: r1) p2 = 1.
Proof.
  intros Hp. induction Hp as [|a b l1 l2 Hab Hl IH];
    cbn [app util.lexicographical_compare].
  - split_and!; [|done..]. intros Hxy. by rewrite decide_True.
  - rewrite !decide_False by lia. exact IH.
Qed.

Context `{!Comparator compare}.

Lemma lexicographical_compare_antisym (l1 l2 : list A) :
  util.lexicographical_compare compare l1 l2 < 0
  ↔ util.lexicographical_compare compare l2 l1 > 0.
Proof.
  revert l2. induction l1 as [|x l1 IH]; intros [|y l2]; simpl; [lia..|].
  pose proof (cmp_antisym (cmp:=compare) x y).
  pose proof (cmp_antisym (cmp:=compare) y x).
  repeat case_decide; try lia. apply IH.
Qed.

Lemma lexicographical_compare_trans (l1 l2 l3 : list A) :
  util.lexicographical_compare compare l1 l2 ≤ 0 →
  util.lexicographical_compare compare l2 l3 ≤ 0 →
  util.lexicographical_compare compare l1 l3 ≤ 0.
Proof.
  revert l2 l3.
  induction l1 as [|x l1 IH]; intros [|y l2] [|z l3]; simpl; try lia.
  pose proof (cmp_trans (cmp:=compare) x y z).
  pose proof (cmp_lt_le_trans compare x y z).
  pose proof (cmp_le_lt_trans compare x y z).
  pose proof (cmp_ge compare x z).
  pose proof (cmp_trans (cmp:=compare) z y x).
  pose proof (cmp_ge compare x y).
  pose proof (cmp_ge compare y z).
  repeat case_decide; try lia. apply IH.
Qed.

(** X15.  Ranges are totally ordered.  When [compare] is a total order
    on the elements, [lexicographical_compare] is one on the ranges: the
    answer on swapped arguments has the opposite sign, and the order is
    transitive; so it can itself be the comparator of a tree. *)
Theorem lexicographical_compare_Comparator :
  Comparator (util.lexicographical_compare compare).
Proof.
  split.
  - apply lexicographical_compare_antisym.
  - apply lexicographical_compare_trans.
Qed.
End lexicographical.

Lemma lexicographical_compare_Comparator_witness :
  Comparator (util.lexicographical_compare impl.compare).
Proof. exact (lexicographical_compare_Comparator impl.compare). Defined.

Lemma lexicographical_compare_first_difference_witness :
  (impl.compare 3 2 ≠ 0 →
   util.lexicographical_compare impl.compare ([1; 2] ++ 3 :: [9])
     ([1; 2] ++ 2 :: []) = impl.compare 3 2)
  ∧ util.lexicographical_compare impl.compare [1; 2] ([1; 2] ++ 2 :: []) = -1
  ∧ util.lexicographical_compare impl.compare ([1; 2] ++ 3 :: [9]) [1; 2] = 1.
Proof.
  apply (lexicographical_compare_first_difference impl.compare
           [1; 2] [9] [1; 2] [] 3 2).
  repeat constructor.
Defined.

(** * More on the sequences *)

(** X16.  Push, then get, on a [val_sequence].  As long as the length
    fits an [int], [push_back] makes [size()] one larger, [get] at the old
    size returns the element pushed, and [get] at every earlier index
    returns what it returned before. *)
Theorem val_sequence_push_back_get {T} (v : impl.val_sequence T) (x : T) :
  Z.of_nat (length (impl.val_elems v)) < INT_MAX →
  impl.val_sequence_size (impl.val_sequence_push_back v x)
  = impl.val_sequence_size v + 1
  ∧ impl.val_sequence_get (impl.val_sequence_push_back v x)
      (impl.val_sequence_size v) = impl.returns x
  ∧ ∀ i, 0 ≤ i < impl.val_sequence_size v →
         impl.val_sequence_get (impl.val_sequence_push_back v x) i
         = impl.val_sequence_get v i.
Proof.
  intros Hlen. unfold impl.val_sequence_get, impl.val_sequence_size.
  cbn [impl.val_sequence_push_back impl.val_elems].
  rewrite length_app. cbn [length].
  rewrite !to_int_small by (unfold INT_MAX in *; lia).
  split_and!; [lia| |].
  - rewrite decide_False by lia. rewrite Nat2Z.id.
    by rewrite list_lookup_middle.
  - intros i Hi. rewrite !decide_False by lia.
    by rewrite lookup_app_l by lia.
Qed.



Lemma val_sequence_push_back_get_witness :
  let v := impl.mk_val_sequence [10; 20] in
  impl.val_sequence_size (impl.val_sequence_push_back v 30)
  = impl.val_sequence_size v + 1
  ∧ impl.val_sequence_get (impl.val_sequence_push_back v 30)
      (impl.val_sequence_size v) = impl.returns 30
  ∧ ∀ i, 0 ≤ i < impl.val_sequence_size v →
         impl.val_sequence_get (impl.val_sequence_push_back v 30) i
         = impl.val_sequence_get v i.
Proof.
  apply (val_sequence_push_back_get (impl.mk_val_sequence [10; 20]) 30).
  reflexivity.
Defined.



(** * Lookup in a homogeneous scope *)

Lemma homogeneous_scope_search_first
    (decls : impl.val_sequence impl.member_rep) (n : Z) (i : nat)
    (m : impl.member_rep) :
  impl.val_elems decls !! i = Some m → impl.member_name m = n →
  (∀ j m', (j < i)%nat → impl.val_elems decls !! j = Some m' →
           impl.member_name m' ≠ n) →
  ∀ fuel j,
  (j ≤ i)%nat → Z.of_nat i < Z.of_nat j + Z.of_nat fuel →
  Z.of_nat j + Z.of_nat fuel ≤ impl.val_sequence_size decls →
  impl.homogeneous_scope_search decls n fuel (Z.of_nat j)
  = impl.returns (impl.ref_singleton (Z.of_nat i)).
Proof.
  intros Hm Hn Hfirst. induction fuel as [|fuel IH]; intros j Hj Hi Hsz; [lia|].
  cbn [impl.homogeneous_scope_search].
  destruct (val_sequence_get_spec decls (Z.of_nat j)) as [Hin _].
  destruct Hin as (m' & Hm' & ->); [lia|]. rewrite Nat2Z.id in Hm'.
  destruct (decide (j = i)) as [->|Hne].
  - rewrite Hm in Hm'. injection Hm' as <-. by rewrite decide_True.
  - rewrite decide_False by (apply (Hfirst j); [lia|done]).
    replace (Z.of_nat j + 1) with (Z.of_nat (S j)) by lia.
    apply IH; lia.
Qed.

(** X19.  The first member of the name is the one found.  In a
    homogeneous scope whose length fits an [int], looking up a name that
    a member bears answers the overload set of the first member that
    bears it. *)
Theorem homogeneous_scope_lookup_first
    (decls : impl.val_sequence impl.member_rep) (n : Z) (i : nat)
    (m : impl.member_rep) :
  Z.of_nat (length (impl.val_elems decls)) ≤ INT_MAX →
  impl.val_elems decls !! i = Some m → impl.member_name m = n →
  (∀ j m', (j < i)%nat → impl.val_elems decls !! j = Some m' →
           impl.member_name m' ≠ n) →
  impl.homogeneous_scope_subscript decls n
  = impl.returns (impl.ref_singleton (Z.of_nat i)).
Proof.
  intros Hlen Hm Hn Hfirst. unfold impl.homogeneous_scope_subscript.
  pose proof (lookup_lt_Some _ _ _ Hm) as Hi.
  assert (impl.val_sequence_size decls
          = Z.of_nat (length (impl.val_elems decls))) as Hsz.
  { unfold impl.val_sequence_size.
    apply to_int_small. unfold INT_MAX in *. lia. }
  apply (homogeneous_scope_search_first decls n i m Hm Hn Hfirst _ O);
    rewrite ?Hsz; lia.
Qed.

Lemma homogeneous_scope_lookup_first_witness :
  impl.homogeneous_scope_subscript
    (impl.mk_val_sequence
       [impl.mk_member_rep 5; impl.mk_member_rep 7; impl.mk_member_rep 7]) 7
  = impl.returns (impl.ref_singleton (Z.of_nat 1)).
Proof.
  apply (homogeneous_scope_lookup_first
           (impl.mk_val_sequence
              [impl.mk_member_rep 5; impl.mk_member_rep 7;
               impl.mk_member_rep 7]) 7 1 (impl.mk_member_rep 7)).
  - by vm_compute.
  - reflexivity.
  - reflexivity.
  - intros [|j] m' Hj; [|lia]. by intros [= <-].
Defined.

(** * Redeclarations *)

(** X20.  A redeclaration joins the decl-set of its master.  For an
    entry [i] of the farm, [redeclare] returns a new declaration [d]
    whose decl-set is the entry's with [d] appended, whose master is the
    entry's and whose position is still -1.  Every earlier declaration
    keeps its position and its master; those of the entry [i] see [d] at
    the end of their decl-set, the others see their decl-set unchanged.
    The overload sets and the decl-sequence of the scope are not
    touched. *)
Theorem redeclare_joins_decl_set (sc : impl.Scope) (i : nat)
    (n : node impl.master_decl_data) :
  impl.farm_master_info sc !! i = Some n →
  ∃ sc',
    impl.redeclare (Some i) sc
    = Some (Some (length (impl.farm_decls sc)), sc')
    ∧ impl.decl_set (length (impl.farm_decls sc)) sc'
      = impl.returns (impl.ref_sequence_push_back (impl.declset (data n))
                        (length (impl.farm_decls sc)))
    ∧ impl.master (length (impl.farm_decls sc)) sc'
      = impl.check (impl.master_decl (data n))
    ∧ impl.position (length (impl.farm_decls sc)) sc' = impl.returns (-1)
    ∧ (∀ d0 nd, impl.farm_decls sc !! d0 = Some nd →
         impl.position d0 sc' = impl.position d0 sc
         ∧ impl.master d0 sc' = impl.master d0 sc
         ∧ impl.decl_set d0 sc'
           = if decide (impl.master_data (data nd) = Some i)
             then impl.returns
                    (impl.ref_sequence_push_back (impl.declset (data n))
                       (length (impl.farm_decls sc)))
             else impl.decl_set d0 sc)
    ∧ impl.overloads sc' = impl.overloads sc
    ∧ impl.decls_root sc' = impl.decls_root sc
    ∧ impl.decls_count sc' = impl.decls_count sc.
Proof.
  intros Hn. pose proof (lookup_lt_Some _ _ _ Hn) as Hi.
  eexists. split.
  { unfold impl.redeclare, impl.decls_make. rewrite Hn. reflexivity. }
  unfold impl.decl_set, impl.master, impl.position.
  cbn [impl.farm_decls impl.farm_master_info impl.overloads impl.decls_root
       impl.decls_count].
  rewrite !list_lookup_middle by done.
  cbn [data impl.master_data impl.scope_pos].
  rewrite !list_lookup_insert_eq by done.
  cbn [data impl.declset impl.master_decl].
  split; [reflexivity|]. split; [reflexivity|]. split; [reflexivity|].
  split; [|by repeat split].
  intros d0 nd Hd0. rewrite !(lookup_app_l_Some _ _ _ _ Hd0), !Hd0.
  split_and!; [done| |].
  - destruct (impl.master_data (data nd)) as [j|]; [|done].
    destruct (decide (j = i)) as [->|Hne].
    + by rewrite list_lookup_insert_eq, Hn by done.
    + by rewrite list_lookup_insert_ne by done.
  - destruct (impl.master_data (data nd)) as [j|].
    + destruct (decide (j = i)) as [->|Hne].
      * rewrite decide_True by done. by rewrite list_lookup_insert_eq by done.
      * rewrite decide_False by congruence.
        by rewrite list_lookup_insert_ne by done.
    + by rewrite decide_False by done.
Qed.

Lemma redeclare_joins_decl_set_witness :
  let n := mk_node None None None Black
             (impl.mk_master_decl_data 20 (impl.mk_ref_sequence [0%nat])
                (Some 0%nat) (Some 0%nat)) in
  ∃ sc',
    impl.redeclare (Some 0%nat) scope_10
    = Some (Some (length (impl.farm_decls scope_10)), sc')
    ∧ impl.decl_set (length (impl.farm_decls scope_10)) sc'
      = impl.returns (impl.ref_sequence_push_back (impl.declset (data n))
                        (length (impl.farm_decls scope_10)))
    ∧ impl.master (length (impl.farm_decls scope_10)) sc'
      = impl.check (impl.master_decl (data n))
    ∧ impl.position (length (impl.farm_decls scope_10)) sc'
      = impl.returns (-1)
    ∧ (∀ d0 nd, impl.farm_decls scope_10 !! d0 = Some nd →
         impl.position d0 sc' = impl.position d0 scope_10
         ∧ impl.master d0 sc' = impl.master d0 scope_10
         ∧ impl.decl_set d0 sc'
           = if decide (impl.master_data (data nd) = Some 0%nat)
             then impl.returns
                    (impl.ref_sequence_push_back (impl.declset (data n))
                       (length (impl.farm_decls scope_10)))
             else impl.decl_set d0 scope_10)
    ∧ impl.overloads sc' = impl.overloads scope_10
    ∧ impl.decls_root sc' = impl.decls_root scope_10
    ∧ impl.decls_count sc' = impl.decls_count scope_10.
Proof.
  apply (redeclare_joins_decl_set scope_10 0).
  reflexivity.
Defined.

(** * Declaring in a homogeneous scope *)

(** The lookup is a linear search for the first member of the name. *)
Lemma homogeneous_scope_subscript_find
    (decls : impl.val_sequence impl.member_rep) (n : Z) :
  Z.of_nat (length (impl.val_elems decls)) ≤ INT_MAX →
  impl.homogeneous_scope_subscript decls n
  = match list_find (λ m, impl.member_name m = n) (impl.val_elems decls) with
    | Some (i, _) => impl.returns (impl.ref_singleton (Z.of_nat i))
    | None => impl.returns impl.ref_missing
    end.
Proof.
  intros Hlen.
  assert (impl.val_sequence_size decls
          = Z.of_nat (length (impl.val_elems decls))) as Hsz.
  { unfold impl.val_sequence_size.
    apply to_int_small. unfold INT_MAX in *. lia. }
  unfold impl.homogeneous_scope_subscript.
  destruct (list_find _ _) as [[i m]|] eqn:Hfind.
  - apply list_find_Some in Hfind as (Hm & Hn & Hfirst).
    pose proof (lookup_lt_Some _ _ _ Hm) as Hi.
    assert (∀ j m', (j < i)%nat → impl.val_elems decls !! j = Some m' →
              impl.member_name m' ≠ n) as Hfirst'.
    { intros j m' Hj Hm'. by apply (Hfirst j). }
    apply (homogeneous_scope_search_first decls n i m Hm Hn Hfirst' _ O);
      rewrite ?Hsz; lia.
  - apply list_find_None in Hfind. rewrite Forall_forall in Hfind.
    apply homogeneous_scope_search_absent; [lia|rewrite Hsz; lia|done].
Qed.

(** X23.  Declare, then look up, in a homogeneous scope whose length
    stays below [INT_MAX].  After [push_back] of a member, a name that
    the new member does not bear is looked up as before; so is a name
    that an earlier member bears, the earlier member winning; and the
    name of the new member, when no earlier member bears it, finds the
    new member. *)
Theorem homogeneous_scope_push_back_lookup
    (decls : impl.val_sequence impl.member_rep) (m : impl.member_rep)
    (n : Z) :
  Z.of_nat (length (impl.val_elems decls)) < INT_MAX →
  (impl.member_name m ≠ n →
   impl.homogeneous_scope_subscript (homogeneous_scope_push_back decls m) n
   = impl.homogeneous_scope_subscript decls n)
  ∧ (impl.homogeneous_scope_subscript decls n ≠ impl.returns impl.ref_missing →
     impl.homogeneous_scope_subscript (homogeneous_scope_push_back decls m) n
     = impl.homogeneous_scope_subscript decls n)
  ∧ (impl.member_name m = n →
     impl.homogeneous_scope_subscript decls n = impl.returns impl.ref_missing →
     impl.homogeneous_scope_subscript (homogeneous_scope_push_back decls m) n
     = impl.returns (impl.ref_singleton (impl.val_sequence_size decls))).
Proof.
  intros Hlen.
  assert (impl.val_sequence_size decls
          = Z.of_nat (length (impl.val_elems decls))) as Hsz.
  { unfold impl.val_sequence_size.
    apply to_int_small. unfold INT_MAX in *. lia. }
  rewrite Hsz.
  rewrite (homogeneous_scope_subscript_find decls n) by lia.
  rewrite (homogeneous_scope_subscript_find (homogeneous_scope_push_back _ _))
    by (simpl; rewrite length_app; simpl; unfold INT_MAX in *; lia).
  cbn [homogeneous_scope_push_back impl.val_sequence_push_back impl.val_elems].
  destruct (list_find _ (impl.val_elems decls)) as [[i m']|] eqn:Hfind.
  - rewrite (list_find_app_l _ _ _ _ _ Hfind). done.
  - rewrite (list_find_app_r _ _ _ Hfind). cbn [list_find].
    case_decide as Hm; simpl.
    + split; [done|]. split; [done|]. done.
    + split; [done|]. split; [done|]. done.
Qed.

Lemma homogeneous_scope_push_back_lookup_witness :
  let decls := impl.mk_val_sequence [impl.mk_member_rep 5; impl.mk_member_rep 7] in
  let m := impl.mk_member_rep 9 in
  (impl.member_name m ≠ 9 →
   impl.homogeneous_scope_subscript (homogeneous_scope_push_back decls m) 9
   = impl.homogeneous_scope_subscript decls 9)
  ∧ (impl.homogeneous_scope_subscript decls 9 ≠ impl.returns impl.ref_missing →
     impl.homogeneous_scope_subscript (homogeneous_scope_push_back decls m) 9
     = impl.homogeneous_scope_subscript decls 9)
  ∧ (impl.member_name m = 9 →
     impl.homogeneous_scope_subscript decls 9 = impl.returns impl.ref_missing →
     impl.homogeneous_scope_subscript (homogeneous_scope_push_back decls m) 9
     = impl.returns (impl.ref_singleton (impl.val_sequence_size decls))).
Proof.
  apply (homogeneous_scope_push_back_lookup
           (impl.mk_val_sequence [impl.mk_member_rep 5; impl.mk_member_rep 7])
           (impl.mk_member_rep 9) 9).
  reflexivity.
Defined.
